(** * Lyra: the backward worklist interpreter (engine/backward.py)

    A shallow embedding of [BackwardInterpreter.analyze] and of the
    interfaces it is written against, followed by the properties of the
    engine.

    The code is embedded twice.  In [BackwardInterpreter] a state is a
    value and a domain operation a function; the dictionaries of the engine
    ([iterations], [AnalysisResult.result]) are finite maps indexed by node
    identifier, the queue is a list, a raised exception is an explicit
    result.  In [Heap] a state is an object, [deepcopy] allocates and a
    domain operation may write to its arguments; this is where the copies of
    the source matter.  [in_place_refines] relates the two.

    Two helpers of the type encoding (frontend/z3_types.py) are embedded as
    well: [invert_dict] over ordered dictionaries and the naming of the
    constants of [TypesSolver]. *)

From Stdlib Require Import ZArith Lia DecimalString DecimalNat.
From stdpp Require Import gmap list strings.

Local Open Scope Z_scope.

(** ** Exceptions *)

(** The two exceptions the body of [analyze] can raise by itself: a
    dictionary subscript on a missing key and a list subscript on an empty
    list. *)
Inductive exn := KeyError | IndexError.

Inductive res (A : Type) :=
| Ok (a : A)
| Raise (e : exn).
Arguments Ok {A} a.
Arguments Raise {A} e.

#[global] Instance res_ret : MRet res := @Ok.
#[global] Instance res_bind : MBind res := fun A B f m =>
  match m with
  | Ok a => f a
  | Raise e => Raise e
  end.

#[global] Instance exn_eq_dec : EqDecision exn.
Proof. solve_decision. Defined.

(** ** The abstract-domain interface (abstract_domains.state.State)

    The modules [analyze] imports are not part of the sources; of each, the
    declarations below are what [analyze] uses of it. *)

Module State.
(** The operations [analyze] calls on a state.  Every operation is a
    method, [bottom] included: the source writes [entry.bottom()].
    [truth] is the truth value Python gives the object, which the [or] of
    line 64 tests: what [__bool__] returns, or whether [__len__] is not
    0, and true for a class that defines neither. *)
Class ops (T : Type) := {
  bottom : T -> T;
  join : T -> T -> T;
  less_equal : T -> T -> bool;
  widening : T -> T -> T;
  enter_if : T -> T;
  exit_if : T -> T;
  enter_loop : T -> T;
  exit_loop : T -> T;
  filter : T -> T;
  truth : T -> bool
}.
End State.

(** ** The transfer-function interface (semantics.backward.BackwardSemantics) *)

Module BackwardSemantics.
(** [semantics(stmt, state)]: one method serves the statements of a basic
    block and the condition of a conditional edge. *)
Class ops (Stmt T : Type) := {
  semantics : Stmt -> T -> T
}.
End BackwardSemantics.

(** ** The control-flow graph (core.cfg) *)

Module Kind.
(** [Edge.Kind] *)
Inductive t := Default | IfIn | IfOut | LoopIn | LoopOut.

#[global] Instance eq_dec : EqDecision t.
Proof. solve_decision. Defined.
End Kind.

Section Graph.
Context {Stmt : Type}.

(** The class of a node, as far as [isinstance] distinguishes it in
    [analyze]: [Basic] with its statements, [Loop], or any other node
    class. *)
Inductive node_class :=
| Basic (stmts : list Stmt)
| Loop
| OtherNode.

Record Node := {
  identifier : Z;
  node_cls : node_class
}.

(** An edge carries a kind, and a condition exactly when it is an
    instance of [Conditional]. *)
Record Edge := {
  source : Node;
  target : Node;
  kind : Kind.t;
  condition : option Stmt
}.

(** The queries of [ControlFlowGraph] used by the engine.  [nodes] is the
    dictionary of the graph's nodes, indexed by identifier. *)
Record ControlFlowGraph := {
  nodes : gmap Z Node;
  out_node : Node;
  out_edges : Node -> list Edge;
  predecessors : Node -> list Node
}.

Definition is_Basic (n : Node) : bool :=
  match node_cls n with Basic _ => true | _ => false end.

Definition is_Loop (n : Node) : bool :=
  match node_cls n with Loop => true | _ => false end.
End Graph.
Arguments node_class : clear implicits.
Arguments Node : clear implicits.
Arguments Edge : clear implicits.
Arguments ControlFlowGraph : clear implicits.

(** ** The result store (engine.result.AnalysisResult) *)

Module AnalysisResult.
Section Store.
Context {Stmt T : Type}.

(** Modelled from the spec: engine/result.py is not part of the sources.
    The store maps a node to its sequence of states;
    [set_node_result] overwrites the sequence, [get_node_result]
    returns it, or the unset signal for a node never written.  Nodes
    are told apart by their identifier, as [analyze] does. *)
Definition t := gmap Z (list T).

Definition contains (r : gmap Z (list T)) (n : Node Stmt) : bool :=
  bool_decide (is_Some (r !! identifier n)).

Definition get_node_result (r : gmap Z (list T)) (n : Node Stmt)
  : option (list T) :=
  r !! identifier n.

Definition set_node_result (r : gmap Z (list T)) (n : Node Stmt)
    (states : list T) : gmap Z (list T) :=
  <[identifier n := states]> r.
End Store.
End AnalysisResult.

(** ** Python subscripts *)

(** [d[k]] on a dictionary. *)
Definition dict_get {V : Type} (d : gmap Z V) (k : Z) : res V :=
  match d !! k with
  | Some v => Ok v
  | None => Raise KeyError
  end.

(** [r.get_node_result(n)[i]] applies a subscript to what the store
    returns.  For a node never written there is no sequence to index and
    the expression raises; the store being a dictionary (line 36 tests
    membership in it), the exception is taken to be [KeyError]. *)
Definition stored {T : Type} (o : option (list T)) : res (list T) :=
  match o with
  | Some states => Ok states
  | None => Raise KeyError
  end.

(** [l[0]] *)
Definition first_item {T : Type} (l : list T) : res T :=
  match l with
  | x :: _ => Ok x
  | [] => Raise IndexError
  end.

(** [l[-1]] *)
Definition last_item {T : Type} (l : list T) : res T :=
  match last l with
  | Some x => Ok x
  | None => Raise IndexError
  end.

(** ** The interpreter (engine.backward.BackwardInterpreter) *)

Module BackwardInterpreter.
Section Analyze.
Context {Stmt T : Type}.
Context `{!State.ops T} `{!BackwardSemantics.ops Stmt T}.

(** The fields of the interpreter: [self.cfg], [self.widening]. *)
Variable cfg : ControlFlowGraph Stmt.
Variable widening : Z.
(** The argument of [analyze]. *)
Variable initial : T.

(** What the [while] loop works on: the queue, the iteration counts and
    [self.result]. *)
Record loop_state := {
  worklist : list (Node Stmt);
  iterations : gmap Z Z;
  result : gmap Z (list T)
}.

(** Lines 36-39: the previous exit state of the node. *)
Definition previous_of (r : gmap Z (list T)) (current : Node Stmt)
  : res (option T) :=
  if AnalysisResult.contains r current then
    states ← stored (AnalysisResult.get_node_result r current);
    last ← last_item states;
    Ok (Some last)
  else Ok None.

(** Lines 50-57: the [if]/[elif] chain on [edge.kind]. *)
Definition cross (k : Kind.t) (successor : T) : T :=
  match k with
  | Kind.IfIn => State.exit_if successor
  | Kind.IfOut => State.enter_if successor
  | Kind.LoopIn => State.exit_loop successor
  | Kind.LoopOut => State.enter_loop successor
  | Kind.Default => successor
  end.

(** Lines 59-60: conditional edges. *)
Definition guard (c : option Stmt) (successor : T) : T :=
  match c with
  | Some cond =>
      State.filter (BackwardSemantics.semantics cond successor)
  | None => successor
  end.

(** Lines 48-60: the state an out-edge brings back from its target. *)
Definition successor_of (r : gmap Z (list T)) (edge : Edge Stmt) : res T :=
  states ← stored (AnalysisResult.get_node_result r (target edge));
  successor ← first_item states;
  Ok (guard (condition edge) (cross (kind edge) successor)).

(** Lines 47-61: the [for] loop over the out-edges. *)
Fixpoint join_edges (r : gmap Z (list T)) (edges : list (Edge Stmt))
    (entry : T) : res T :=
  match edges with
  | [] => Ok entry
  | edge :: edges =>
      successor ← successor_of r edge;
      join_edges r edges (State.join entry successor)
  end.

(** Line 64: [previous or deepcopy(initial).bottom()].  The [or] keeps
    [previous] when it is true and takes the other operand when it is
    not: when it is [None], and also when it is a state whose truth
    value is false. *)
Definition previous_or_bottom (previous : option T) : T :=
  match previous with
  | Some p => if State.truth p then p else State.bottom initial
  | None => State.bottom initial
  end.

(** Lines 42-64: the current exit state of the current node. *)
Definition exit_state (r : gmap Z (list T)) (iteration : Z)
    (previous : option T) (current : Node Stmt) : res T :=
  let entry := initial in
  if bool_decide (identifier current ≠ identifier (out_node cfg)) then
    entry ← join_edges r (out_edges cfg current) (State.bottom entry);
    if is_Loop current && bool_decide (widening < iteration) then
      Ok (State.widening (previous_or_bottom previous) entry)
    else Ok entry
  else Ok entry.

(** Line 67: the termination check. *)
Definition changed (previous : option T) (entry : T) : bool :=
  match previous with
  | None => true
  | Some p => negb (State.less_equal entry p)
  end.

(** Lines 70-73: the statements of a block in reverse, each result put
    at the left end of the deque. *)
Definition walk (stmts : list Stmt) (entry : T) : T * list T :=
  foldl (fun '(successor, states) stmt =>
           let successor := BackwardSemantics.semantics stmt successor in
           (successor, successor :: states))
        (entry, [entry]) (reverse stmts).

(** Lines 68-77: the sequence handed to [set_node_result]. *)
Definition states_of (current : Node Stmt) (entry : T) : list T :=
  match node_cls current with
  | Basic stmts => (walk stmts entry).2
  | Loop => [entry]
  | OtherNode => [entry]
  end.

(** Lines 32-81: one turn of the [while] loop, [current] being the node
    that [worklist.get()] returned and [rest] what stays queued. *)
Definition visit (current : Node Stmt) (rest : list (Node Stmt))
    (its : gmap Z Z) (r : gmap Z (list T)) : res loop_state :=
  iteration ← dict_get its (identifier current);
  previous ← previous_of r current;
  entry ← exit_state r iteration previous current;
  if changed previous entry then
    Ok {| worklist := rest ++ predecessors cfg current;
          iterations := <[identifier current := iteration + 1]> its;
          result := AnalysisResult.set_node_result r current
                      (states_of current entry) |}
  else
    Ok {| worklist := rest; iterations := its; result := r |}.

Definition turn (s : loop_state) : res loop_state :=
  match worklist s with
  | [] => Ok s
  | current :: rest => visit current rest (iterations s) (result s)
  end.

(** At most [n] turns of the loop, stopping when the queue is empty. *)
Fixpoint turns (n : nat) (s : loop_state) : res loop_state :=
  match n with
  | O => Ok s
  | S n =>
      match worklist s with
      | [] => Ok s
      | _ :: _ => s' ← turn s; turns n s'
      end
  end.

(** Lines 27-29: the queue holds the out node, every node of the graph
    has count 0; [self.result] is whatever the interpreter holds when
    [analyze] is called (empty on a new interpreter). *)
Definition start (r : gmap Z (list T)) : loop_state :=
  {| worklist := [out_node cfg];
     iterations := (fun _ => 0) <$> nodes cfg;
     result := r |}.

(** [analyze]: the loop run for at most [fuel] turns.  [None] when the
    queue is not yet empty after [fuel] turns; otherwise the returned
    store or the exception raised. *)
Definition analyze (fuel : nat) (r : gmap Z (list T))
  : option (res (gmap Z (list T))) :=
  match turns fuel (start r) with
  | Ok s =>
      match worklist s with
      | [] => Some (Ok (result s))
      | _ :: _ => None
      end
  | Raise e => Some (Raise e)
  end.
End Analyze.
End BackwardInterpreter.

(** ** The specification's reading of a turn

    Definitions written from the words of the specification (section 4.5,
    steps 4 and 6), to be compared with the ones above. *)

Module Spec.
Section Spec.
Context {Stmt T : Type}.
Context `{!State.ops T} `{!BackwardSemantics.ops Stmt T}.

(** "apply the scope operator inverse to the edge's forward meaning":
    the table [IfIn -> exit_if], [IfOut -> enter_if],
    [LoopIn -> exit_loop], [LoopOut -> enter_loop]. *)
Definition inverse_scope (k : Kind.t) : option (T -> T) :=
  match k with
  | Kind.IfIn => Some State.exit_if
  | Kind.IfOut => Some State.enter_if
  | Kind.LoopIn => Some State.exit_loop
  | Kind.LoopOut => Some State.enter_loop
  | Kind.Default => None
  end.

(** What one out-edge contributes, given the pre-state [pre] stored for
    its target: the scope operator, then, on a conditional edge,
    [semantics] of the condition followed by [filter]. *)
Definition contribution (edge : Edge Stmt) (pre : T) : T :=
  let scoped :=
    match inverse_scope (kind edge) with
    | Some op => op pre
    | None => pre
    end in
  match condition edge with
  | Some cond => State.filter (BackwardSemantics.semantics cond scoped)
  | None => scoped
  end.

(** Step 4, first two cases: [initial_state] for the out node, and
    otherwise the join, from [bottom()], over the out-edges; [pre_of]
    gives the stored entry 0 of a node. *)
Definition post_state (cfg : ControlFlowGraph Stmt) (initial : T)
    (pre_of : Node Stmt -> T) (current : Node Stmt) : T :=
  if bool_decide (identifier current = identifier (out_node cfg)) then
    initial
  else
    foldl (fun acc edge =>
             State.join acc (contribution edge (pre_of (target edge))))
          (State.bottom initial) (out_edges cfg current).

(** Step 4, third case: the replacement by widening. *)
Definition widened_post_state (threshold iteration : Z)
    (initial : T) (previous : option T) (current : Node Stmt)
    (accumulated : T) : T :=
  if is_Loop current && bool_decide (threshold < iteration) then
    State.widening (default (State.bottom initial) previous) accumulated
  else accumulated.

(** Section 3 and step 6: the sequence of a block, entry 0 first.  The
    last entry is the post-state; every other entry is [semantics] of
    its statement applied to the entry that follows it. *)
Fixpoint block_sequence (stmts : list Stmt) (post : T) : list T :=
  match stmts with
  | [] => [post]
  | stmt :: stmts =>
      let rest := block_sequence stmts post in
      BackwardSemantics.semantics stmt (default post (head rest)) :: rest
  end.

(** The sequence of a node: the block layout for a basic node, the
    post-state alone for any other. *)
Definition layout (node : Node Stmt) (post : T) : list T :=
  match node_cls node with
  | Basic stmts => block_sequence stmts post
  | Loop => [post]
  | OtherNode => [post]
  end.

(** The sequence-length invariant of section 8. *)
Definition sequence_length (n : Node Stmt) : nat :=
  match node_cls n with
  | Basic stmts => S (length stmts)
  | Loop => 1
  | OtherNode => 1
  end.
End Spec.
End Spec.

(** ** Passes over a node

    Which nodes the queue handed out, read off a run of the loop. *)

Module Trace.
Section Trace.
Import BackwardInterpreter.
Context {Stmt T : Type}.
Context `{!State.ops T} `{!BackwardSemantics.ops Stmt T}.
Variable cfg : ControlFlowGraph Stmt.
Variable widening : Z.
Variable initial : T.

(** The nodes returned by [worklist.get()] during the first [n] turns
    from [s], in order. *)
Fixpoint popped (n : nat) (s : loop_state) : list (Node Stmt) :=
  match n with
  | O => []
  | S n =>
      match worklist s with
      | [] => []
      | current :: _ =>
          current ::
            match turn cfg widening initial s with
            | Ok s' => popped n s'
            | Raise _ => []
            end
      end
  end.

(** The number of passes over the node with identifier [i]. *)
Definition passes (i : Z) (l : list (Node Stmt)) : nat :=
  length (base.filter (fun n => identifier n = i) l).

(** The count kept for identifier [i]; a missing key counts as 0 here
    (the engine itself raises on it). *)
Definition count_of (its : gmap Z Z) (i : Z) : Z :=
  default 0 (its !! i).

(** The sequence stored under the identifier of the out node ends with
    the initial state. *)
Definition out_settled (r : gmap Z (list T)) : Prop :=
  exists states,
    r !! identifier (out_node cfg) = Some states /\
    last states = Some initial.

(** A set of identifiers closed under "has a successor in the set" and
    without the out node: the nodes of a cycle that avoids the out
    node, for instance. *)
Definition trap (C : gset Z) : Prop :=
  forall node : Node Stmt,
    identifier node ∈ C ->
    identifier node ≠ identifier (out_node cfg) /\
    exists edge,
      edge ∈ out_edges cfg node /\ identifier (target edge) ∈ C.
End Trace.
End Trace.
(** ** A symbolic domain

    A conforming domain whose states are the terms built by the operations
    themselves.  A state of this domain records which operations produced
    it, so a run over it shows what the engine called, in which order and on
    what. *)

Module Symbolic.
Inductive term :=
| Atom (n : Z)
| Bottom (t : term)
| Join (a b : term)
| Widening (a b : term)
| EnterIf (t : term)
| ExitIf (t : term)
| EnterLoop (t : term)
| ExitLoop (t : term)
| Filter (t : term)
| Semantics (s : string) (t : term).

#[global] Instance term_eq_dec : EqDecision term.
Proof. solve_decision. Defined.

(** The order is syntactic equality: reflexive, and nothing else.  A
    term is a plain object: it is true. *)
#[global] Instance state_ops : State.ops term := {|
  State.bottom := Bottom;
  State.join := Join;
  State.less_equal a b := bool_decide (a = b);
  State.widening := Widening;
  State.enter_if := EnterIf;
  State.exit_if := ExitIf;
  State.enter_loop := EnterLoop;
  State.exit_loop := ExitLoop;
  State.filter := Filter;
  State.truth _ := true
|}.

#[global] Instance semantics_ops : BackwardSemantics.ops string term := {|
  BackwardSemantics.semantics := Semantics
|}.

(** Whether a state came out of [widening], at the top or anywhere
    inside. *)
Definition widened (t : term) : bool :=
  match t with
  | Widening _ _ => true
  | _ => false
  end.

Fixpoint uses_widening (t : term) : bool :=
  match t with
  | Atom _ => false
  | Widening _ _ => true
  | Join a b => uses_widening a || uses_widening b
  | Bottom t | EnterIf t | ExitIf t | EnterLoop t | ExitLoop t
  | Filter t | Semantics _ t => uses_widening t
  end.

(** A store none of whose states was built with [widening]. *)
Definition widening_free (r : gmap Z (list term)) : Prop :=
  forall i states t,
    r !! i = Some states -> t ∈ states -> uses_widening t = false.
End Symbolic.

(** ** A domain with false states

    The symbolic domain again, for a state class with a [__bool__] method:
    a state that came out of [join] is false, every other state is
    true. *)

Module Falsy.
Import Symbolic.

Record state := Mk { term_of : term }.

#[global] Instance state_eq_dec : EqDecision state.
Proof. solve_decision. Defined.

Definition lift1 (f : term -> term) (a : state) : state :=
  Mk (f (term_of a)).

Definition lift2 (f : term -> term -> term) (a b : state) : state :=
  Mk (f (term_of a) (term_of b)).

#[global] Instance state_ops : State.ops state := {|
  State.bottom := lift1 Bottom;
  State.join := lift2 Join;
  State.less_equal a b := bool_decide (a = b);
  State.widening := lift2 Widening;
  State.enter_if := lift1 EnterIf;
  State.exit_if := lift1 ExitIf;
  State.enter_loop := lift1 EnterLoop;
  State.exit_loop := lift1 ExitLoop;
  State.filter := lift1 Filter;
  State.truth a :=
    match term_of a with
    | Join _ _ => false
    | _ => true
    end
|}.

#[global] Instance semantics_ops
  : BackwardSemantics.ops string state := {|
  BackwardSemantics.semantics stmt := lift1 (Semantics stmt)
|}.
End Falsy.

(** ** The graphs of the scenarios *)

Module Scenario.
Import Symbolic.

Definition basic (i : Z) (stmts : list string) : Node string :=
  {| identifier := i; node_cls := Basic stmts |}.

(** Scenarios A and B: [in -> Basic[x := 5; x := x - 1] -> out]. *)
Module Line.
Definition n_in := basic 1 [].
Definition block := basic 2 ["x := 5"; "x := x - 1"]%string.
Definition n_out := basic 3 [].

Definition edge (a b : Node string) : Edge string :=
  {| source := a; target := b; kind := Kind.Default; condition := None |}.

Definition cfg : ControlFlowGraph string :=
  {| nodes := {[ 1 := n_in; 2 := block; 3 := n_out ]};
     out_node := n_out;
     out_edges n :=
       if bool_decide (identifier n = 1) then [edge n_in block]
       else if bool_decide (identifier n = 2) then [edge block n_out]
       else [];
     predecessors n :=
       if bool_decide (identifier n = 2) then [n_in]
       else if bool_decide (identifier n = 3) then [block]
       else [] |}.
End Line.

(** Scenario C: [in -> header <-> Basic[x := x - 1]], [header -> out];
    the body is entered through a [LoopIn] edge and left through a
    [LoopOut] edge, the exit edge is guarded by [x <= 0]. *)
Module While.
Definition n_in := basic 1 [].
Definition header : Node string := {| identifier := 2; node_cls := Loop |}.
Definition body := basic 3 ["x := x - 1"]%string.
Definition n_out := basic 4 [].

Definition in_header : Edge string :=
  {| source := n_in; target := header;
     kind := Kind.Default; condition := None |}.
Definition header_body : Edge string :=
  {| source := header; target := body;
     kind := Kind.LoopIn; condition := Some "x > 0"%string |}.
Definition body_header : Edge string :=
  {| source := body; target := header;
     kind := Kind.LoopOut; condition := None |}.
Definition header_out : Edge string :=
  {| source := header; target := n_out;
     kind := Kind.Default; condition := Some "x <= 0"%string |}.

Definition cfg : ControlFlowGraph string :=
  {| nodes := {[ 1 := n_in; 2 := header; 3 := body; 4 := n_out ]};
     out_node := n_out;
     out_edges n :=
       if bool_decide (identifier n = 1) then [in_header]
       else if bool_decide (identifier n = 2) then [header_body; header_out]
       else if bool_decide (identifier n = 3) then [body_header]
       else [];
     predecessors n :=
       if bool_decide (identifier n = 2) then [n_in; body]
       else if bool_decide (identifier n = 3) then [header]
       else if bool_decide (identifier n = 4) then [header]
       else [] |}.
End While.

(** A branch: [entry -> test], [test -> then -> out] and
    [test -> else -> out], the two arms entered through [IfIn] edges that
    carry the condition and left through [IfOut] edges. *)
Module Branch.
Definition entry := basic 0 ["y := 0"]%string.
Definition test : Node string :=
  {| identifier := 1; node_cls := OtherNode |}.
Definition arm_then := basic 2 ["x := 1"]%string.
Definition arm_else := basic 3 ["x := 2"]%string.
Definition n_out := basic 4 [].

Definition edge (a b : Node string) (k : Kind.t) (c : option string)
  : Edge string :=
  {| source := a; target := b; kind := k; condition := c |}.

Definition cfg : ControlFlowGraph string :=
  {| nodes := {[ 0 := entry; 1 := test; 2 := arm_then; 3 := arm_else;
                 4 := n_out ]};
     out_node := n_out;
     out_edges n :=
       if bool_decide (identifier n = 0)
       then [edge entry test Kind.Default None]
       else if bool_decide (identifier n = 1)
       then [edge test arm_then Kind.IfIn (Some "y > 0"%string);
             edge test arm_else Kind.IfIn (Some "not y > 0"%string)]
       else if bool_decide (identifier n = 2)
       then [edge arm_then n_out Kind.IfOut None]
       else if bool_decide (identifier n = 3)
       then [edge arm_else n_out Kind.IfOut None]
       else [];
     predecessors n :=
       if bool_decide (identifier n = 1) then [entry]
       else if bool_decide (identifier n = 2) then [test]
       else if bool_decide (identifier n = 3) then [test]
       else if bool_decide (identifier n = 4) then [arm_then; arm_else]
       else [] |}.
End Branch.

(** A conditional without an [else]: [test -> then -> out] and
    [test -> out]. *)
Module IfThen.
Definition test : Node string :=
  {| identifier := 1; node_cls := OtherNode |}.
Definition arm := basic 2 ["x := 1"]%string.
Definition n_out := basic 3 [].

Definition test_arm : Edge string :=
  {| source := test; target := arm;
     kind := Kind.IfIn; condition := Some "y > 0"%string |}.
Definition arm_out : Edge string :=
  {| source := arm; target := n_out;
     kind := Kind.IfOut; condition := None |}.
Definition test_out : Edge string :=
  {| source := test; target := n_out;
     kind := Kind.Default; condition := Some "not y > 0"%string |}.

Definition cfg : ControlFlowGraph string :=
  {| nodes := {[ 1 := test; 2 := arm; 3 := n_out ]};
     out_node := n_out;
     out_edges n :=
       if bool_decide (identifier n = 1) then [test_arm; test_out]
       else if bool_decide (identifier n = 2) then [arm_out]
       else [];
     predecessors n :=
       if bool_decide (identifier n = 2) then [test]
       else if bool_decide (identifier n = 3) then [test; arm]
       else [] |}.
End IfThen.

(** A loop head that a new interpreter passes over twice: the graph of
    [Branch] with a [Loop] node in the place of the test.  Both arms
    queue the head, and each of its successors is stored before its first
    pass. *)
Module LoopFork.
Definition entry := basic 0 ["y := 0"]%string.
Definition head : Node string := {| identifier := 1; node_cls := Loop |}.
Definition arm_left := basic 2 ["x := 1"]%string.
Definition arm_right := basic 3 ["x := 2"]%string.
Definition n_out := basic 4 [].

Definition edge (a b : Node string) (c : option string) : Edge string :=
  {| source := a; target := b; kind := Kind.Default; condition := c |}.

Definition cfg : ControlFlowGraph string :=
  {| nodes := {[ 0 := entry; 1 := head; 2 := arm_left; 3 := arm_right;
                 4 := n_out ]};
     out_node := n_out;
     out_edges n :=
       if bool_decide (identifier n = 0) then [edge entry head None]
       else if bool_decide (identifier n = 1)
       then [edge head arm_left (Some "y > 0"%string);
             edge head arm_right (Some "not y > 0"%string)]
       else if bool_decide (identifier n = 2)
       then [edge arm_left n_out None]
       else if bool_decide (identifier n = 3)
       then [edge arm_right n_out None]
       else [];
     predecessors n :=
       if bool_decide (identifier n = 1) then [entry]
       else if bool_decide (identifier n = 2) then [head]
       else if bool_decide (identifier n = 3) then [head]
       else if bool_decide (identifier n = 4) then [arm_left; arm_right]
       else [] |}.
End LoopFork.

(** A graph whose out node is a loop head on a cycle of its own. *)
Module Spin.
Definition head : Node string := {| identifier := 1; node_cls := Loop |}.

Definition back : Edge string :=
  {| source := head; target := head;
     kind := Kind.Default; condition := None |}.

Definition cfg : ControlFlowGraph string :=
  {| nodes := {[ 1 := head ]};
     out_node := head;
     out_edges n := if bool_decide (identifier n = 1) then [back] else [];
     predecessors n :=
       if bool_decide (identifier n = 1) then [head] else [] |}.
End Spin.
End Scenario.


(** ** A domain of sets

    A conforming domain whose join is commutative: a state is the set of
    the statements met on the way back to a point, [join] is the union and
    [less_equal] the inclusion.  A state has a length, the size of the
    set: the empty set is false. *)

Module Collect.
#[global] Instance state_ops : State.ops (gset string) := {|
  State.bottom _ := ∅;
  State.join a b := a ∪ b;
  State.less_equal a b := bool_decide (a ⊆ b);
  State.widening a b := a ∪ b;
  State.enter_if a := a;
  State.exit_if a := a;
  State.enter_loop a := a;
  State.exit_loop a := a;
  State.filter a := a;
  State.truth a := bool_decide (a ≠ ∅)
|}.

#[global] Instance semantics_ops
  : BackwardSemantics.ops string (gset string) := {|
  BackwardSemantics.semantics stmt a := {[ stmt ]} ∪ a
|}.
End Collect.

(** ** The interpreter over a heap of state objects

    The same code with its objects: a state is an object on a heap,
    [deepcopy] allocates a copy, a domain operation may write to the objects
    it is given and may return one of them, and a variable of [analyze]
    holds a reference.  The graph is an immutable value: [analyze] has no
    assignment to it and only calls its queries. *)

Module Heap.
Section Objects.
Context {V : Type}.

(** References are allocation indices; [next] is the first unused
    one. *)
Record heap := {
  next : nat;
  cell : nat -> V
}.

(** A computation on the heap that may raise. *)
Definition M (A : Type) : Type := heap -> res (A * heap).

#[global] Instance M_ret : MRet M := fun A a h => Ok (a, h).
#[global] Instance M_bind : MBind M := fun A B f m h =>
  match m h with
  | Ok (a, h') => f a h'
  | Raise e => Raise e
  end.

Definition lift {A : Type} (r : res A) : M A := fun h =>
  match r with
  | Ok a => Ok (a, h)
  | Raise e => Raise e
  end.

(** [deepcopy(x)]: a new object with the content of [x]. *)
Definition deepcopy (x : nat) : M nat := fun h =>
  Ok (next h,
      {| next := S (next h);
         cell := fun l => if decide (l = next h) then cell h x
                          else cell h l |}).

(** The methods of a state and [semantics], on references. *)
Class ops (Stmt : Type) := {
  bottom : nat -> M nat;
  join : nat -> nat -> M nat;
  less_equal : nat -> nat -> M bool;
  widening : nat -> nat -> M nat;
  enter_if : nat -> M nat;
  exit_if : nat -> M nat;
  enter_loop : nat -> M nat;
  exit_loop : nat -> M nat;
  filter : nat -> M nat;
  truth : nat -> M bool;
  semantics : Stmt -> nat -> M nat
}.
End Objects.
Arguments heap : clear implicits.
Arguments M : clear implicits.
Arguments ops : clear implicits.

Section Analyze.
Context {Stmt V : Type}.
Context `{!ops V Stmt}.

Variable cfg : ControlFlowGraph Stmt.
Variable threshold : Z.
(** The argument of [analyze]: a reference to the caller's state. *)
Variable initial : nat.

Record loop_state := {
  worklist : list (Node Stmt);
  iterations : gmap Z Z;
  result : gmap Z (list nat)
}.

(** Lines 36-39 *)
Definition previous_of (r : gmap Z (list nat)) (current : Node Stmt)
  : M V (option nat) :=
  if AnalysisResult.contains r current then
    states ← lift (stored (AnalysisResult.get_node_result r current));
    last ← lift (last_item states);
    previous ← deepcopy last;
    mret (Some previous)
  else mret None.

(** Lines 50-57 *)
Definition cross (k : Kind.t) (successor : nat) : M V nat :=
  match k with
  | Kind.IfIn => exit_if successor
  | Kind.IfOut => enter_if successor
  | Kind.LoopIn => exit_loop successor
  | Kind.LoopOut => enter_loop successor
  | Kind.Default => mret successor
  end.

(** Lines 59-60 *)
Definition guard (c : option Stmt) (successor : nat) : M V nat :=
  match c with
  | Some cond =>
      successor ← semantics cond successor;
      filter successor
  | None => mret successor
  end.

(** Lines 48-60 *)
Definition successor_of (r : gmap Z (list nat)) (edge : Edge Stmt)
  : M V nat :=
  states ← lift (stored (AnalysisResult.get_node_result r (target edge)));
  first ← lift (first_item states);
  successor ← deepcopy first;
  successor ← cross (kind edge) successor;
  guard (condition edge) successor.

(** Lines 47-61 *)
Fixpoint join_edges (r : gmap Z (list nat)) (edges : list (Edge Stmt))
    (entry : nat) : M V nat :=
  match edges with
  | [] => mret entry
  | edge :: edges =>
      successor ← successor_of r edge;
      entry ← join entry successor;
      join_edges r edges entry
  end.

(** Line 64: [previous or deepcopy(initial).bottom()].  The [or] asks
    a state for its truth value; the second operand is evaluated when
    [previous] is [None] or false. *)
Definition previous_or_bottom (previous : option nat) : M V nat :=
  match previous with
  | Some p =>
      true_p ← truth p;
      if (true_p : bool) then mret p
      else copy ← deepcopy initial; bottom copy
  | None => copy ← deepcopy initial; bottom copy
  end.

(** Lines 42-64 *)
Definition exit_state (r : gmap Z (list nat)) (iteration : Z)
    (previous : option nat) (current : Node Stmt) : M V nat :=
  entry ← deepcopy initial;
  if bool_decide (identifier current ≠ identifier (out_node cfg)) then
    entry ← bottom entry;
    entry ← join_edges r (out_edges cfg current) entry;
    if is_Loop current && bool_decide (threshold < iteration) then
      p ← previous_or_bottom previous;
      p ← deepcopy p;
      widening p entry
    else mret entry
  else mret entry.

(** Line 67 *)
Definition changed (previous : option nat) (entry : nat) : M V bool :=
  match previous with
  | None => mret true
  | Some p => le ← less_equal entry p; mret (negb le)
  end.

(** Lines 70-73 *)
Fixpoint walk_rev (stmts : list Stmt) (successor : nat)
    (states : list nat) : M V (list nat) :=
  match stmts with
  | [] => mret states
  | stmt :: stmts =>
      copy ← deepcopy successor;
      successor ← semantics stmt copy;
      walk_rev stmts successor (successor :: states)
  end.

(** Lines 68-77 *)
Definition states_of (current : Node Stmt) (entry : nat)
  : M V (list nat) :=
  match node_cls current with
  | Basic stmts => walk_rev (reverse stmts) entry [entry]
  | Loop => mret [entry]
  | OtherNode => mret [entry]
  end.

(** Lines 32-81 *)
Definition visit (current : Node Stmt) (rest : list (Node Stmt))
    (its : gmap Z Z) (r : gmap Z (list nat)) : M V loop_state :=
  iteration ← lift (dict_get its (identifier current));
  previous ← previous_of r current;
  entry ← exit_state r iteration previous current;
  go ← changed previous entry;
  if (go : bool) then
    states ← states_of current entry;
    mret {| worklist := rest ++ predecessors cfg current;
            iterations := <[identifier current := iteration + 1]> its;
            result := AnalysisResult.set_node_result r current states |}
  else
    mret {| worklist := rest; iterations := its; result := r |}.

Definition turn (s : loop_state) : M V loop_state :=
  match worklist s with
  | [] => mret s
  | current :: rest => visit current rest (iterations s) (result s)
  end.

Fixpoint turns (n : nat) (s : loop_state) : M V loop_state :=
  match n with
  | O => mret s
  | S n =>
      match worklist s with
      | [] => mret s
      | _ :: _ => s' ← turn s; turns n s'
      end
  end.

Definition start (r : gmap Z (list nat)) : loop_state :=
  {| worklist := [out_node cfg];
     iterations := (fun _ => 0) <$> nodes cfg;
     result := r |}.

(** [analyze] from the heap [h], for at most [fuel] turns: the store
    returned and the heap it leaves. *)
Definition analyze (fuel : nat) (r : gmap Z (list nat)) (h : heap V)
  : option (res (gmap Z (list nat) * heap V)) :=
  match turns fuel (start r) h with
  | Ok (s, h') =>
      match worklist s with
      | [] => Some (Ok (result s, h'))
      | _ :: _ => None
      end
  | Raise e => Some (Raise e)
  end.
End Analyze.

(** What is asked of a domain: an operation writes only to the objects it
    is given, never frees, and returns one of its arguments or a new
    object. *)
Section Footprint.
Context {V : Type}.

Definition touches (args : list nat) (h h' : heap V) : Prop :=
  (next h <= next h')%nat /\
  forall l, (l < next h)%nat -> l ∉ args -> cell h' l = cell h l.

Definition returns (args : list nat) (h : heap V) (y : nat) : Prop :=
  y ∈ args \/ (next h <= y)%nat.

Definition local1 {A : Type} (f : nat -> M V A)
    (post : list nat -> heap V -> A -> Prop) : Prop :=
  forall x h a h',
    f x h = Ok (a, h') -> touches [x] h h' /\ post [x] h a.

Definition local2 {A : Type} (f : nat -> nat -> M V A)
    (post : list nat -> heap V -> A -> Prop) : Prop :=
  forall x y h a h',
    f x y h = Ok (a, h') -> touches [x; y] h h' /\ post [x; y] h a.

Record lawful {Stmt : Type} `{!ops V Stmt} : Prop := {
  lawful_bottom : local1 bottom returns;
  lawful_join : local2 join returns;
  lawful_less_equal : local2 less_equal (fun _ _ _ => True);
  lawful_widening : local2 widening returns;
  lawful_enter_if : local1 enter_if returns;
  lawful_exit_if : local1 exit_if returns;
  lawful_enter_loop : local1 enter_loop returns;
  lawful_exit_loop : local1 exit_loop returns;
  lawful_filter : local1 filter returns;
  lawful_truth : local1 truth (fun _ _ _ => True);
  lawful_semantics : forall stmt, local1 (semantics stmt) returns
}.

(** A computation that leaves every object allocated before [base] as
    it is, and whose result satisfies [Q]. *)
Definition framed {A : Type} (base : nat) (m : M V A) (Q : A -> Prop)
  : Prop :=
  forall h a h',
    (base <= next h)%nat ->
    m h = Ok (a, h') ->
    (next h <= next h')%nat /\
    (forall l, (l < base)%nat -> cell h' l = cell h l) /\
    Q a.
End Footprint.
Arguments lawful {V Stmt} _.
End Heap.

(** ** Domains that work in place

    A domain of values put on the heap in the style of the domains of the
    library: an operation overwrites its receiver with the result and
    returns it. *)

Module InPlace.
Import Heap.

Section InPlace.
Context {Stmt T : Type}.
Context {D : State.ops T} {Sem : BackwardSemantics.ops Stmt T}.

Definition write (x : nat) (v : T) (h : heap T) : heap T :=
  {| next := next h;
     cell := fun l => if decide (l = x) then v else cell h l |}.

Definition update1 (f : T -> T) (x : nat) : M T nat := fun h =>
  Ok (x, write x (f (cell h x)) h).

Definition update2 (f : T -> T -> T) (x y : nat) : M T nat := fun h =>
  Ok (x, write x (f (cell h x) (cell h y)) h).

#[global] Instance ops : Heap.ops T Stmt := {|
  bottom := update1 State.bottom;
  join := update2 State.join;
  less_equal x y := fun h =>
    Ok (State.less_equal (cell h x) (cell h y), h);
  widening := update2 State.widening;
  enter_if := update1 State.enter_if;
  exit_if := update1 State.exit_if;
  enter_loop := update1 State.enter_loop;
  exit_loop := update1 State.exit_loop;
  filter := update1 State.filter;
  truth x := fun h => Ok (State.truth (cell h x), h);
  semantics stmt := update1 (BackwardSemantics.semantics stmt)
|}.

(** The contents of the states a store refers to. *)
Definition contents (r : gmap Z (list nat)) (h : heap T)
  : gmap Z (list T) :=
  fmap (M := gmap Z)
    (fun states : list nat => fmap (M := list) (cell h) states) r.

(** What a caller sees of a run on the heap. *)
Definition observe (o : option (res (gmap Z (list nat) * heap T)))
  : option (res (gmap Z (list T))) :=
  match o with
  | Some (Ok (r, h)) => Some (Ok (contents r h))
  | Some (Raise e) => Some (Raise e)
  | None => None
  end.

(** The state of the loop as the interpreter on values has it. *)
Definition abstract (s : Heap.loop_state (Stmt := Stmt)) (h : heap T)
  : BackwardInterpreter.loop_state (Stmt := Stmt) (T := T) :=
  {| BackwardInterpreter.worklist := Heap.worklist s;
     BackwardInterpreter.iterations := Heap.iterations s;
     BackwardInterpreter.result := contents (Heap.result s) h |}.

(** Every reference of the store is in use. *)
Definition allocated (r : gmap Z (list nat)) (h : heap T) : Prop :=
  forall i states l,
    r !! i = Some states -> l ∈ states -> (l < next h)%nat.
End InPlace.

(** A caller's heap: one state object, at reference 0. *)
Definition caller {T : Type} (v : T) : heap T :=
  {| next := 1; cell := fun _ => v |}.
End InPlace.
(** ** What a run can reach *)

Module Reach.
Section Reach.
Context {Stmt : Type}.
Variable cfg : ControlFlowGraph Stmt.

(** The nodes the queue can ever hold: the out node (line 28) and the
    predecessors of a node it held (lines 79-80). *)
Inductive coreachable : Node Stmt -> Prop :=
| coreachable_out : coreachable (out_node cfg)
| coreachable_pred (n p : Node Stmt) :
    coreachable n -> p ∈ predecessors cfg n -> coreachable p.

(** The weight of a queue, for a graph whose nodes have at most [B]
    predecessors and a rank that decreases along [predecessors]. *)
Definition weight (B : nat) (rank : Node Stmt -> nat)
    (l : list (Node Stmt)) : nat :=
  foldr (fun node acc => ((B + 1) ^ rank node + acc)%nat) 0%nat l.

(** A node of the graph: [cfg.nodes] holds it under its identifier. *)
Definition is_node (n : Node Stmt) : Prop :=
  nodes cfg !! identifier n = Some n.

(** What the engine takes for granted of the graph it is given.  The
    out node and every predecessor are nodes of the graph. *)
Definition well_formed : Prop :=
  is_node (out_node cfg) /\
  forall n p, p ∈ predecessors cfg n -> is_node p.

(** [out_edges] and [predecessors] describe the same edges: the target
    of an out-edge of a node is a node of the graph and has that node
    among its predecessors. *)
Definition consistent : Prop :=
  forall n edge,
    is_node n -> edge ∈ out_edges cfg n ->
    is_node (target edge) /\ n ∈ predecessors cfg (target edge).
End Reach.

(** A store without empty sequences. *)
Definition filled {T : Type} (r : gmap Z (list T)) : Prop :=
  forall i, r !! i ≠ Some [].

Section Settled.
Import BackwardInterpreter.
Context {Stmt T : Type}.
Context `{!State.ops T} `{!BackwardSemantics.ops Stmt T}.
Variable cfg : ControlFlowGraph Stmt.
Variable initial : T.

(** The exit state stored for a node accounts for what its successors
    hold: with [joined] the join over the out-edges of line 61 taken on
    the store [r], the stored exit state [x] is [joined] or, for a loop
    head, a widening with [joined] (lines 63-64), or the check of
    line 67 found the newly computed state [less_equal] to it.  For a
    loop head the newly computed state may be the widening of line 64
    with [x] as the previous state: the widening from [x] when [x] is
    true, from [bottom()] when it is not. *)
Definition settled (r : gmap Z (list T)) (n : Node Stmt) : Prop :=
  exists joined x,
    join_edges r (out_edges cfg n) (State.bottom initial) = Ok joined /\
    r !! identifier n ≫= last = Some x /\
    (x = joined \/
     State.less_equal joined x = true \/
     (is_Loop n = true /\
      ((exists prev, x = State.widening prev joined) \/
       State.less_equal
         (State.widening
            (if State.truth x then x else State.bottom initial) joined)
         x = true))).
End Settled.
End Reach.

(** ** Helpers of the type encoding (frontend/z3_types.py) *)

(** A Python dictionary that keeps its items in insertion order, as
    [OrderedDict] and [dict] do. *)
Module OrderedDict.
(** The exceptions of a subscript: a key the dictionary does not have, a
    key that cannot be hashed. *)
Inductive error := KeyError | TypeError.

Inductive outcome (A : Type) :=
| Return (a : A)
| Throw (e : error).
Arguments Return {A} a.
Arguments Throw {A} e.

#[global] Instance outcome_ret : MRet outcome := fun A a => Return a.
#[global] Instance outcome_bind : MBind outcome := fun A B f m =>
  match m with
  | Return a => f a
  | Throw e => Throw e
  end.

(** What a dictionary asks of a key.  [hashable k] tells whether
    [hash(k)] returns: it raises [TypeError] for a list, a set, a
    dictionary.  [same a b] tells whether the dictionary takes [a] and
    [b] for one key: equal hashes and [a == b], so that [1], [1.0] and
    [True] are one key. *)
Class Key (K : Type) := {
  hashable : K -> bool;
  same : K -> K -> bool
}.

(** Keys whose equality is an equivalence. *)
Record lawful (K : Type) `{!Key K} : Prop := {
  same_refl : forall a : K, hashable a = true -> same a a = true;
  same_sym : forall a b : K, same a b = same b a;
  same_trans : forall a b c : K,
    same a b = true -> same b c = true -> same a c = true
}.

Section OrderedDict.
Context {K V : Type} `{!Key K}.

(** The item stored under a key the dictionary takes for [key]. *)
Fixpoint find (d : list (K * V)) (key : K) : option V :=
  match d with
  | [] => None
  | (k, v) :: d => if same k key then Some v else find d key
  end.

(** [d[key]] *)
Definition getitem (d : list (K * V)) (key : K) : outcome V :=
  if hashable key then
    match find d key with
    | Some v => Return v
    | None => Throw KeyError
    end
  else Throw TypeError.

(** The items after [d[key] = value]: the value of a key the
    dictionary has is replaced where it stands and the key object
    already there is kept; a new key goes last. *)
Fixpoint put (d : list (K * V)) (key : K) (value : V) : list (K * V) :=
  match d with
  | [] => [(key, value)]
  | (k, v) :: d =>
      if same k key then (k, value) :: d
      else (k, v) :: put d key value
  end.

(** [d[key] = value] *)
Definition setitem (d : list (K * V)) (key : K) (value : V)
  : outcome (list (K * V)) :=
  if hashable key then Return (put d key value) else Throw TypeError.

(** [for key in d]: the keys in insertion order. *)
Definition keys (d : list (K * V)) : list K := d.*1.

(** The items of a dictionary: every key can be hashed and no two
    items have the same key. *)
Fixpoint wf (d : list (K * V)) : Prop :=
  match d with
  | [] => True
  | (k, _) :: d =>
      hashable k = true /\
      Forall (fun item => same k item.1 = false) d /\
      wf d
  end.
End OrderedDict.
End OrderedDict.

Section InvertDict.
Import OrderedDict.
Context {K V : Type} `{!Key K} `{!Key V}.

(** Lines 438-439: the loop of [invert_dict] over the keys still to be
    seen. *)
Fixpoint invert_loop (d : list (K * V)) (ks : list K)
    (result : list (V * K)) : outcome (list (V * K)) :=
  match ks with
  | [] => Return result
  | key :: ks =>
      value ← getitem d key;
      result ← setitem result value key;
      invert_loop d ks result
  end.

(** [invert_dict(d)] *)
Definition invert_dict (d : list (K * V)) : outcome (list (V * K)) :=
  invert_loop d (keys d) [].
End InvertDict.

(** Python values for the dictionaries of the examples: integers, booleans
    and strings can be hashed and lists cannot; a boolean is the same key
    as the integer 0 or 1. *)
Module Py.
Inductive value :=
| Int (n : Z)
| Bool (b : bool)
| Str (s : string)
| List (l : list Z).

(** What [==] and [hash] see of a value that can be hashed. *)
Definition code (v : value) : option (Z + string) :=
  match v with
  | Int n => Some (inl n)
  | Bool b => Some (inl (if b then 1 else 0))
  | Str s => Some (inr s)
  | List _ => None
  end.

#[global] Instance value_key : OrderedDict.Key value := {|
  OrderedDict.hashable v := bool_decide (is_Some (code v));
  OrderedDict.same a b :=
    match code a, code b with
    | Some x, Some y => bool_decide (x = y)
    | _, _ => false
    end
|}.

#[global] Instance string_key : OrderedDict.Key string := {|
  OrderedDict.hashable _ := true;
  OrderedDict.same a b := bool_decide (a = b)
|}.
End Py.

(** The part of [TypesSolver] that names the constants. *)
Module TypesSolver.
Section TypesSolver.
Context {Sort : Type}.

(** The fields the two methods use: [self.element_id] and
    [self.z3_types.type_sort]. *)
Record t := {
  element_id : nat;
  type_sort : Sort
}.

(** A constant of the solver: [Const(name, sort)]. *)
Record Const := {
  const_name : string;
  const_sort : Sort
}.

(** Lines 62-64 *)
Definition new_element_id (self : t) : nat * t :=
  let self := {| element_id := element_id self + 1;
                 type_sort := type_sort self |} in
  (element_id self, self).

(** [str(n)] for an integer that is not negative. *)
Definition str (n : nat) : string :=
  NilEmpty.string_of_uint (Nat.to_uint n).

(** ["{}_{}".format(name, n)] *)
Definition format (name : string) (n : nat) : string :=
  name +:+ "_" +:+ str n.

(** Lines 66-70 *)
Definition new_z3_const (self : t) (name : string) (sort : option Sort)
  : Const * t :=
  let sort := match sort with
              | None => type_sort self
              | Some sort => sort
              end in
  let '(id, self) := new_element_id self in
  ({| const_name := format name id; const_sort := sort |}, self).
End TypesSolver.
Arguments t : clear implicits.
Arguments Const : clear implicits.
End TypesSolver.
(** * Properties of the engine *)

(** ** Subscripts and the error monad *)

Lemma bind_Ok {A B : Type} (m : res A) (f : A -> res B) (b : B) :
  m ≫= f = Ok b <-> exists a, m = Ok a /\ f a = Ok b.
Proof.
  destruct m as [a|e]; simpl.
  - split; [intros Hf; exists a; auto | intros (a' & Ha & Hf); congruence].
  - split; [discriminate | intros (a' & Ha & _); discriminate].
Qed.

Lemma last_item_app {T : Type} (l : list T) (x : T) :
  last_item (l ++ [x]) = Ok x.
Proof. unfold last_item. by rewrite last_snoc. Qed.

Section Turn.
Import BackwardInterpreter.
Context {Stmt T : Type}.
Context `{!State.ops T} `{!BackwardSemantics.ops Stmt T}.
Variable cfg : ControlFlowGraph Stmt.
Variable widening : Z.
Variable initial : T.

(** *** The out-edges *)

Lemma cross_guard_contribution (edge : Edge Stmt) (pre : T) :
  guard (condition edge) (cross (kind edge) pre) = Spec.contribution edge pre.
Proof.
  unfold Spec.contribution, guard, cross, Spec.inverse_scope.
  by destruct (kind edge), (condition edge).
Qed.

Lemma successor_of_stored (r : gmap Z (list T)) (edge : Edge Stmt)
    (pre : T) (rest : list T) :
  r !! identifier (target edge) = Some (pre :: rest) ->
  successor_of r edge = Ok (Spec.contribution edge pre).
Proof.
  intros Hr. unfold successor_of, AnalysisResult.get_node_result.
  rewrite Hr. simpl. by rewrite cross_guard_contribution.
Qed.

Lemma join_edges_stored (r : gmap Z (list T)) (pre_of : Node Stmt -> T)
    (edges : list (Edge Stmt)) (entry : T) :
  (forall edge, edge ∈ edges ->
     exists rest, r !! identifier (target edge)
                  = Some (pre_of (target edge) :: rest)) ->
  join_edges r edges entry
  = Ok (foldl (fun acc edge =>
                 State.join acc
                   (Spec.contribution edge (pre_of (target edge))))
              entry edges).
Proof.
  revert entry. induction edges as [|edge edges IH]; intros entry Hall.
  - reflexivity.
  - destruct (Hall edge) as [rest Hr]; [by left|].
    simpl. rewrite (successor_of_stored _ _ _ _ Hr). simpl.
    apply IH. intros e He. apply Hall. by right.
Qed.

(** The loop over the out-edges completes only if every target has a
    stored sequence with an entry 0. *)
Lemma join_edges_Ok_stored (r : gmap Z (list T)) (edges : list (Edge Stmt))
    (entry v : T) (edge : Edge Stmt) :
  join_edges r edges entry = Ok v ->
  edge ∈ edges ->
  exists pre rest, r !! identifier (target edge) = Some (pre :: rest).
Proof.
  revert entry. induction edges as [|edge' edges IH]; intros entry Hj Hin.
  - by apply elem_of_nil in Hin.
  - simpl in Hj. apply bind_Ok in Hj as (s & Hs & Hj).
    apply elem_of_cons in Hin as [->|Hin]; [|by eapply IH].
    unfold successor_of, AnalysisResult.get_node_result in Hs.
    destruct (r !! identifier (target edge')) as [[|pre rest]|];
      try discriminate.
    by exists pre, rest.
Qed.

(** An out-edge whose target was never stored stops the loop over the
    out-edges with an exception, whatever the edges before it do. *)
Lemma join_edges_unset (r : gmap Z (list T)) (edges : list (Edge Stmt))
    (edge : Edge Stmt) (entry : T) :
  edge ∈ edges ->
  r !! identifier (target edge) = None ->
  exists e, join_edges r edges entry = Raise e.
Proof.
  revert entry. induction edges as [|edge' edges IH]; intros entry Hin Hr.
  - by apply elem_of_nil in Hin.
  - simpl. destruct (successor_of r edge') as [s|e] eqn:Hs.
    + simpl. apply IH; [|done].
      apply elem_of_cons in Hin as [->|Hin]; [|done].
      unfold successor_of, AnalysisResult.get_node_result in Hs.
      by rewrite Hr in Hs.
    + by exists e.
Qed.

Lemma post_state_out (pre_of : Node Stmt -> T) (current : Node Stmt) :
  identifier current = identifier (out_node cfg) ->
  Spec.post_state cfg initial pre_of current = initial.
Proof. intros Hout. unfold Spec.post_state. by rewrite bool_decide_true. Qed.

(** C1 (amended). The value accumulated by lines 42-61 follows the case
    split of the specification: [initial] for the out node; for any other
    node, once every out-edge target has a stored sequence whose entry 0
    is [pre_of] of it, the join from [bottom()] over the out-edges of the
    stored entry 0 sent through the inverse scope operator of the edge
    kind and, on a conditional edge, through [semantics] of the condition
    and [filter].  That value is the exit state of the node, except at a
    loop head, other than the out node, whose count is above the
    threshold: there the exit state is the widening of lines 63-64
    applied to it, from [previous] when [previous] is defined and true and
    from [bottom()] otherwise. *)
Theorem C1_post_state_case_split (r : gmap Z (list T)) (iteration : Z)
    (previous : option T) (current : Node Stmt) (pre_of : Node Stmt -> T) :
  (identifier current ≠ identifier (out_node cfg) ->
   forall edge, edge ∈ out_edges cfg current ->
     exists rest, r !! identifier (target edge)
                  = Some (pre_of (target edge) :: rest)) ->
  exit_state cfg widening initial r iteration previous current
  = Ok (if bool_decide (identifier current = identifier (out_node cfg))
        then initial
        else if is_Loop current && bool_decide (widening < iteration)
        then State.widening
               match previous with
               | Some p => if State.truth p then p else State.bottom initial
               | None => State.bottom initial
               end
               (Spec.post_state cfg initial pre_of current)
        else Spec.post_state cfg initial pre_of current).
Proof.
  intros Hstored. unfold exit_state.
  destruct (decide (identifier current = identifier (out_node cfg)))
    as [Hout|Hout].
  - rewrite bool_decide_false by (intros Hne; by apply Hne).
    by rewrite bool_decide_true.
  - rewrite bool_decide_true by done.
    rewrite (bool_decide_false _ Hout).
    rewrite (join_edges_stored r pre_of) by auto. simpl.
    unfold Spec.post_state. rewrite (bool_decide_false _ Hout).
    by destruct (is_Loop current && bool_decide (widening < iteration)).
Qed.

(** *** Where widening is applied *)

(** The out node keeps [initial], whatever its class and count. *)
Lemma exit_state_out (r : gmap Z (list T)) (iteration : Z)
    (previous : option T) (current : Node Stmt) :
  identifier current = identifier (out_node cfg) ->
  exit_state cfg widening initial r iteration previous current = Ok initial.
Proof.
  intros Hout. unfold exit_state.
  by rewrite bool_decide_false by (intros Hne; by apply Hne).
Qed.

Lemma exit_state_inner (r : gmap Z (list T)) (iteration : Z)
    (previous : option T) (current : Node Stmt) :
  identifier current ≠ identifier (out_node cfg) ->
  exit_state cfg widening initial r iteration previous current
  = accumulated ← join_edges r (out_edges cfg current)
                     (State.bottom initial);
    Ok (if is_Loop current && bool_decide (widening < iteration)
        then State.widening (previous_or_bottom initial previous)
               accumulated
        else accumulated).
Proof.
  intros Hout. unfold exit_state. rewrite bool_decide_true by done.
  destruct (join_edges _ _ _) as [acc|e]; [|done]. simpl.
  by destruct (is_Loop current && bool_decide (widening < iteration)).
Qed.

(** *** The two ways a turn ends *)

Lemma visit_inv (current : Node Stmt) (rest : list (Node Stmt))
    (its : gmap Z Z) (r : gmap Z (list T)) (s' : loop_state) :
  visit cfg widening initial current rest its r = Ok s' ->
  exists iteration previous entry,
    its !! identifier current = Some iteration /\
    previous_of r current = Ok previous /\
    exit_state cfg widening initial r iteration previous current
    = Ok entry /\
    s' = if changed previous entry then
           {| worklist := rest ++ predecessors cfg current;
              iterations := <[identifier current := iteration + 1]> its;
              result := <[identifier current := states_of current entry]> r |}
         else {| worklist := rest; iterations := its; result := r |}.
Proof.
  unfold visit. intros Hv.
  apply bind_Ok in Hv as (iteration & Hit & Hv).
  apply bind_Ok in Hv as (previous & Hprev & Hv).
  apply bind_Ok in Hv as (entry & Hentry & Hv).
  exists iteration, previous, entry. repeat split; try done.
  - unfold dict_get in Hit.
    destruct (its !! identifier current); by simplify_eq.
  - destruct (changed previous entry); by simplify_eq.
Qed.


(** A node without a stored result is never skipped by the termination
    check: when its turn completes, its sequence is stored, its
    predecessors are queued and its count is incremented. *)
Lemma first_visit_stores (current : Node Stmt) (rest : list (Node Stmt))
    (its : gmap Z Z) (r : gmap Z (list T)) (s' : loop_state) :
  previous_of r current = Ok None ->
  visit cfg widening initial current rest its r = Ok s' ->
  exists iteration entry,
    its !! identifier current = Some iteration /\
    exit_state cfg widening initial r iteration None current = Ok entry /\
    result s' = <[identifier current := states_of current entry]> r /\
    worklist s' = rest ++ predecessors cfg current /\
    iterations s' = <[identifier current := iteration + 1]> its.
Proof.
  intros Hnone Hv. apply visit_inv in Hv
    as (iteration & previous & entry & Hit & Hprev & Hentry & ->).
  assert (previous = None) as -> by congruence.
  by exists iteration, entry.
Qed.
End Turn.

(** ** Turns over the symbolic domain *)

Section SymbolicTurn.
Import BackwardInterpreter Symbolic.
Variable cfg : ControlFlowGraph string.
Variable widening : Z.
Variable initial : term.

Lemma successor_of_widening_free (r : gmap Z (list term))
    (edge : Edge string) (t : term) :
  widening_free r ->
  successor_of r edge = Ok t ->
  uses_widening t = false.
Proof.
  intros Hfree. unfold successor_of, AnalysisResult.get_node_result.
  destruct (r !! identifier (target edge)) as [[|pre rest]|] eqn:Hr;
    simpl; try discriminate.
  intros [= <-].
  assert (uses_widening pre = false) as Hpre
    by (eapply Hfree; [exact Hr | by left]).
  by destruct (kind edge), (condition edge).
Qed.

Lemma join_edges_widening_free (r : gmap Z (list term))
    (edges : list (Edge string)) (entry t : term) :
  widening_free r ->
  uses_widening entry = false ->
  join_edges r edges entry = Ok t ->
  uses_widening t = false.
Proof.
  intros Hfree. revert entry.
  induction edges as [|edge edges IH]; intros entry Hentry; simpl.
  - by intros [= <-].
  - intros Hj. apply bind_Ok in Hj as (successor & Hs & Hj).
    apply (IH (Join entry successor)); [|done]. simpl.
    by rewrite Hentry, (successor_of_widening_free _ _ _ Hfree Hs).
Qed.

Lemma walk_widening_free (stmts : list string) (entry : term) :
  uses_widening entry = false ->
  forall t, t ∈ (walk stmts entry).2 -> uses_widening t = false.
Proof.
  intros Hentry. unfold walk.
  assert (forall l acc,
    uses_widening acc.1 = false ->
    (forall t, t ∈ acc.2 -> uses_widening t = false) ->
    forall t,
      t ∈ (foldl (fun '(successor, states) stmt =>
                    let successor :=
                      BackwardSemantics.semantics stmt successor in
                    (successor, successor :: states)) acc l).2 ->
      uses_widening t = false) as Hfold.
  { induction l as [|stmt l IH]; intros [successor states] H1 H2; simpl.
    - exact H2.
    - apply IH; simpl; [done|].
      intros t [->|Ht]%elem_of_cons; [done | by apply H2]. }
  apply Hfold; simpl; [done|].
  by intros t ->%list_elem_of_singleton.
Qed.

Lemma states_of_widening_free (current : Node string) (entry : term) :
  uses_widening entry = false ->
  forall t, t ∈ states_of current entry -> uses_widening t = false.
Proof.
  intros Hentry t. unfold states_of.
  destruct (node_cls current) as [stmts| |].
  - by apply walk_widening_free.
  - by intros ->%list_elem_of_singleton.
  - by intros ->%list_elem_of_singleton.
Qed.

Lemma widening_free_insert (r : gmap Z (list term)) (i : Z)
    (states : list term) :
  widening_free r ->
  (forall t, t ∈ states -> uses_widening t = false) ->
  widening_free (<[i := states]> r).
Proof.
  intros Hfree Hstates j states' t Hj Ht.
  destruct (decide (i = j)) as [->|Hne].
  - rewrite lookup_insert_eq in Hj. simplify_eq. by apply Hstates.
  - rewrite lookup_insert_ne in Hj by done. by eapply Hfree.
Qed.

Lemma previous_of_widening_free (r : gmap Z (list term))
    (current : Node string) (p : term) :
  widening_free r ->
  previous_of r current = Ok (Some p) ->
  uses_widening p = false.
Proof.
  intros Hfree. unfold previous_of, AnalysisResult.contains,
    AnalysisResult.get_node_result.
  destruct (r !! identifier current) as [states|] eqn:Hr.
  - rewrite bool_decide_true by eauto. simpl. unfold last_item.
    destruct (last states) as [x|] eqn:Hlast; simpl; [|discriminate].
    intros [= <-]. eapply Hfree; [exact Hr|].
    apply last_Some in Hlast as [l' ->]. set_solver.
  - rewrite bool_decide_false by (intros [? ?]; discriminate).
    discriminate.
Qed.

(** Over the symbolic domain, from a store and an initial state built
    without widening, a turn applies widening once, to produce the exit
    state, when it is due, and not at all otherwise. *)
Lemma widening_only_when_due (current : Node string)
    (rest : list (Node string)) (its : gmap Z Z)
    (r : gmap Z (list term)) (s' : loop_state) (iteration : Z) :
  uses_widening initial = false ->
  widening_free r ->
  its !! identifier current = Some iteration ->
  visit cfg widening initial current rest its r = Ok s' ->
  exists previous entry,
    previous_of r current = Ok previous /\
    exit_state cfg widening initial r iteration previous current
    = Ok entry /\
    if bool_decide (identifier current ≠ identifier (out_node cfg))
       && is_Loop current && bool_decide (widening < iteration)
    then
      exists accumulated,
        join_edges r (out_edges cfg current) (Bottom initial)
        = Ok accumulated /\
        uses_widening accumulated = false /\
        entry = Widening
                  match previous with
                  | Some p => if State.truth p then p else Bottom initial
                  | None => Bottom initial
                  end
                  accumulated /\
        (result s' = r \/ result s' = <[identifier current := [entry]]> r)
    else
      uses_widening entry = false /\ widening_free (result s').
Proof.
  intros Hinit Hfree Hit Hv.
  apply visit_inv in Hv
    as (iteration' & previous & entry & Hit' & Hprev & Hentry & ->).
  assert (iteration' = iteration) as -> by congruence.
  exists previous, entry. split; [done|]. split; [done|].
  assert (forall t, uses_widening t = false ->
            widening_free (result
              (if changed previous t
               then {| worklist := rest ++ predecessors cfg current;
                       iterations :=
                         <[identifier current := iteration + 1]> its;
                       result :=
                         <[identifier current := states_of current t]> r |}
               else {| worklist := rest; iterations := its;
                       result := r |}))) as Hstore.
  { intros t Ht. destruct (changed previous t); simpl; [|done].
    apply widening_free_insert; [done|].
    by apply states_of_widening_free. }
  destruct (decide (identifier current = identifier (out_node cfg)))
    as [Hout|Hout].
  - rewrite bool_decide_false by (intros Hne; by apply Hne). simpl.
    rewrite exit_state_out in Hentry by done. simplify_eq. auto.
  - rewrite bool_decide_true by done. simpl.
    rewrite exit_state_inner in Hentry by done.
    apply bind_Ok in Hentry as (accumulated & Hacc & Hentry).
    simpl in Hacc.
    assert (uses_widening accumulated = false) as Hfree_acc
      by (eapply join_edges_widening_free; [done| |exact Hacc]; done).
    simpl in Hentry.
    destruct (is_Loop current && bool_decide (widening < iteration))
      eqn:Hdue; simplify_eq.
    + exists accumulated. repeat split; try done.
      apply andb_true_iff in Hdue as [Hloop _].
      unfold states_of. unfold is_Loop in Hloop.
      destruct (node_cls current); try discriminate.
      destruct (changed previous _); simpl; auto.
    + auto.
Qed.
End SymbolicTurn.

(** C3 (amended). Widening is applied exactly when the popped node is not
    the out node, is a loop head and has a count above the threshold.  For
    every domain, the exit state of the out node is the initial state, and
    the exit state of any other node is the join over its out-edges, replaced
    by a widening with it exactly when the node is a loop head with
    [widening < iteration]: [previous.widening(accumulated)] when
    [previous] is defined and true, and the widening from [bottom()] when
    [previous] is undefined or is a state whose truth value is false (the
    [or] of line 64).  Over the symbolic domain, from a store and an
    initial state built without widening: a turn in which widening is due
    stores, if anything, that one widened state; in every other turn the
    store stays built without widening, so nothing else in [analyze] applies
    it. *)
Theorem C3_widening_point :
  (forall (Stmt T : Type) (D : State.ops T)
          (Sem : BackwardSemantics.ops Stmt T)
          (cfg : ControlFlowGraph Stmt) (widening : Z) (initial : T)
          (r : gmap Z (list T)) (iteration : Z) (previous : option T)
          (current : Node Stmt),
     BackwardInterpreter.exit_state cfg widening initial r iteration
       previous current
     = if bool_decide (identifier current = identifier (out_node cfg))
       then Ok initial
       else
         accumulated ← BackwardInterpreter.join_edges r
                          (out_edges cfg current) (State.bottom initial);
         Ok (if is_Loop current && bool_decide (widening < iteration)
             then State.widening
                    match previous with
                    | Some p =>
                        if State.truth p then p else State.bottom initial
                    | None => State.bottom initial
                    end
                    accumulated
             else accumulated)) /\
  (forall (cfg : ControlFlowGraph string) (widening : Z)
          (initial : Symbolic.term) (current : Node string)
          (rest : list (Node string)) (its : gmap Z Z)
          (r : gmap Z (list Symbolic.term))
          (s' : BackwardInterpreter.loop_state) (iteration : Z),
     Symbolic.uses_widening initial = false ->
     Symbolic.widening_free r ->
     its !! identifier current = Some iteration ->
     BackwardInterpreter.visit cfg widening initial current rest its r
     = Ok s' ->
     exists previous entry,
       BackwardInterpreter.previous_of r current = Ok previous /\
       BackwardInterpreter.exit_state cfg widening initial r iteration
         previous current = Ok entry /\
       if bool_decide (identifier current ≠ identifier (out_node cfg))
          && is_Loop current && bool_decide (widening < iteration)
       then
         exists accumulated,
           BackwardInterpreter.join_edges r (out_edges cfg current)
             (Symbolic.Bottom initial) = Ok accumulated /\
           Symbolic.uses_widening accumulated = false /\
           entry = Symbolic.Widening
                     match previous with
                     | Some p =>
                         if State.truth p then p else Symbolic.Bottom initial
                     | None => Symbolic.Bottom initial
                     end
                     accumulated /\
           (BackwardInterpreter.result s' = r \/
            BackwardInterpreter.result s'
            = <[identifier current := [entry]]> r)
       else
         Symbolic.uses_widening entry = false /\
         Symbolic.widening_free (BackwardInterpreter.result s')).
Proof.
  split.
  - intros Stmt T D Sem cfg widening initial r iteration previous current.
    destruct (decide (identifier current = identifier (out_node cfg)))
      as [Hout|Hout].
    + rewrite bool_decide_true by done. by apply exit_state_out.
    + rewrite bool_decide_false by done. by apply exit_state_inner.
  - intros. by eapply widening_only_when_due.
Qed.

(** ** The sequence of a node *)

Section Sequence.
Import BackwardInterpreter.
Context {Stmt T : Type}.
Context `{!State.ops T} `{!BackwardSemantics.ops Stmt T}.

(** One more statement in front of the block is one more call of
    [semantics], on the state computed last, put in front. *)
Lemma walk_cons (stmt : Stmt) (stmts : list Stmt) (entry : T) :
  walk (stmt :: stmts) entry
  = let '(successor, states) := walk stmts entry in
    let successor := BackwardSemantics.semantics stmt successor in
    (successor, successor :: states).
Proof.
  unfold walk. rewrite reverse_cons, foldl_app. simpl.
  by destruct (foldl _ _ _).
Qed.

Lemma walk_block_sequence (stmts : list Stmt) (entry : T) :
  walk stmts entry
  = (default entry (head (Spec.block_sequence stmts entry)),
     Spec.block_sequence stmts entry).
Proof.
  induction stmts as [|stmt stmts IH]; [done|].
  rewrite walk_cons, IH. reflexivity.
Qed.

Lemma block_sequence_length (stmts : list Stmt) (post : T) :
  length (Spec.block_sequence stmts post) = S (length stmts).
Proof. induction stmts as [|stmt stmts IH]; simpl; [done | by rewrite IH]. Qed.

Lemma block_sequence_last (stmts : list Stmt) (post : T) :
  last (Spec.block_sequence stmts post) = Some post.
Proof.
  induction stmts as [|stmt stmts IH]; [done|].
  simpl. destruct (Spec.block_sequence stmts post) eqn:Hseq; [done|].
  by rewrite last_cons, IH.
Qed.

Lemma states_of_layout (node : Node Stmt) (entry : T) :
  states_of node entry = Spec.layout node entry.
Proof.
  unfold states_of, Spec.layout. destruct (node_cls node); [|done..].
  by rewrite walk_block_sequence.
Qed.

Lemma layout_length (node : Node Stmt) (post : T) :
  length (Spec.layout node post) = Spec.sequence_length node.
Proof.
  unfold Spec.layout, Spec.sequence_length.
  destruct (node_cls node); [|done..]. apply block_sequence_length.
Qed.

Lemma layout_last (node : Node Stmt) (post : T) :
  last (Spec.layout node post) = Some post.
Proof.
  unfold Spec.layout. destruct (node_cls node); [|done..].
  apply block_sequence_last.
Qed.
End Sequence.

(** ** Runs of the loop *)

Section Run.
Import BackwardInterpreter Trace.
Context {Stmt T : Type}.
Context `{!State.ops T} `{!BackwardSemantics.ops Stmt T}.
Variable cfg : ControlFlowGraph Stmt.
Variable widening : Z.
Variable initial : T.

Local Abbreviation turn := (turn cfg widening initial).
Local Abbreviation turns := (turns cfg widening initial).
Local Abbreviation visit := (visit cfg widening initial).
Local Abbreviation analyze := (analyze cfg widening initial).
Local Abbreviation popped := (popped cfg widening initial).

Lemma turns_empty (n : nat) (s : loop_state) :
  worklist s = [] -> turns n s = Ok s.
Proof. intros Hw. destruct n; simpl; [done | by rewrite Hw]. Qed.

Lemma turns_succ (n : nat) (s : loop_state) (current : Node Stmt)
    (rest : list (Node Stmt)) :
  worklist s = current :: rest ->
  turns (S n) s = s' ← turn s; turns n s'.
Proof. intros Hw. simpl. by rewrite Hw. Qed.

Lemma turn_visit (s : loop_state) (current : Node Stmt)
    (rest : list (Node Stmt)) :
  worklist s = current :: rest ->
  turn s = visit current rest (iterations s) (result s).
Proof. intros Hw. unfold BackwardInterpreter.turn. by rewrite Hw. Qed.

(** More turns allowed change nothing once the loop has stopped. *)
Lemma turns_stopped (n m : nat) (s s' : loop_state) :
  turns n s = Ok s' -> worklist s' = [] -> (n <= m)%nat ->
  turns m s = Ok s'.
Proof.
  revert m s. induction n as [|n IH]; intros m s Hn Hw Hle.
  - simpl in Hn. simplify_eq. by apply turns_empty.
  - destruct m as [|m]; [lia|].
    destruct (worklist s) as [|current rest] eqn:Hs.
    + rewrite turns_empty in Hn by done. simplify_eq.
      by apply turns_empty.
    + rewrite (turns_succ n _ _ _ Hs) in Hn.
      rewrite (turns_succ m _ _ _ Hs).
      apply bind_Ok in Hn as (s1 & Hturn & Hn). rewrite Hturn. simpl.
      apply IH; [done..|lia].
Qed.

Lemma turns_raised (n m : nat) (s : loop_state) (e : exn) :
  turns n s = Raise e -> (n <= m)%nat -> turns m s = Raise e.
Proof.
  revert m s. induction n as [|n IH]; intros m s Hn Hle; [done|].
  destruct m as [|m]; [lia|].
  destruct (worklist s) as [|current rest] eqn:Hs.
  - by rewrite turns_empty in Hn.
  - rewrite (turns_succ n _ _ _ Hs) in Hn.
    rewrite (turns_succ m _ _ _ Hs).
    destruct (turn s) as [s1|e1]; simpl in *; [|done].
    apply IH; [done|lia].
Qed.

Lemma analyze_more_fuel (n m : nat) (r : gmap Z (list T))
    (o : res (gmap Z (list T))) :
  analyze n r = Some o -> (n <= m)%nat -> analyze m r = Some o.
Proof.
  unfold BackwardInterpreter.analyze. intros Hn Hle.
  destruct (turns n (start cfg r)) as [s|e] eqn:Hturns.
  - destruct (worklist s) eqn:Hw; [|done].
    by rewrite (turns_stopped _ _ _ _ Hturns Hw Hle), Hw.
  - by rewrite (turns_raised _ _ _ _ Hturns Hle).
Qed.

(** The outcome of [analyze] does not depend on the number of turns it
    is allowed, once that is enough. *)
Lemma analyze_fuel_independent (fuel1 fuel2 : nat)
    (r : gmap Z (list T)) (o1 o2 : res (gmap Z (list T))) :
  analyze fuel1 r = Some o1 ->
  analyze fuel2 r = Some o2 ->
  o1 = o2.
Proof.
  intros H1 H2. destruct (Nat.le_ge_cases fuel1 fuel2) as [Hle|Hle].
  - apply (analyze_more_fuel _ _ _ _ H1) in Hle. congruence.
  - apply (analyze_more_fuel _ _ _ _ H2) in Hle. congruence.
Qed.

(** *** What a run stores *)

Lemma popped_succ (n : nat) (s s1 : loop_state) (current : Node Stmt)
    (rest : list (Node Stmt)) :
  worklist s = current :: rest -> turn s = Ok s1 ->
  popped (S n) s = current :: popped n s1.
Proof. intros Hw Hturn. simpl. by rewrite Hw, Hturn. Qed.

(** C6. Every sequence stored by [analyze] has the layout of the
    specification.  After any number of turns, a sequence found in the
    store is the one the store held at the start or was stored for a node
    the queue handed out, from the exit state [post] computed for it; in
    that case, for a basic node with k statements it has k+1 entries, the
    last one being [post] and every other one [semantics] of its statement
    applied to the entry after it; for any other node (a loop head, a
    conditional) it is [post] alone. *)
Theorem C6_stored_sequences (n : nat) (s0 s : loop_state) (i : Z)
    (states : list T) :
  turns n s0 = Ok s ->
  result s !! i = Some states ->
  result s0 !! i = Some states \/
  exists node post,
    node ∈ popped n s0 /\ identifier node = i /\
    (exists r iteration previous,
       exit_state cfg widening initial r iteration previous node
       = Ok post) /\
    states = states_of node post /\
    states = Spec.layout node post /\
    length states = Spec.sequence_length node /\
    last states = Some post.
Proof.
  revert s0. induction n as [|n IH]; intros s0 Hturns Hi.
  - simpl in Hturns. simplify_eq. by left.
  - destruct (worklist s0) as [|current rest] eqn:Hw.
    + rewrite turns_empty in Hturns by done. simplify_eq. by left.
    + rewrite (turns_succ n _ _ _ Hw) in Hturns.
      apply bind_Ok in Hturns as (s1 & Hturn & Hturns).
      rewrite (popped_succ _ _ _ _ _ Hw Hturn).
      destruct (IH s1 Hturns Hi) as [Hold|(node & post & Hin & Hrest)].
      * rewrite (turn_visit _ _ _ Hw) in Hturn.
        apply visit_inv in Hturn
          as (iteration & previous & entry & _ & _ & Hentry & ->).
        destruct (changed previous entry); simpl in Hold; [|by left].
        destruct (decide (identifier current = i)) as [<-|Hne].
        -- rewrite lookup_insert_eq in Hold. simplify_eq.
           right. exists current, entry. split; [by left|].
           split; [done|]. split; [eauto|].
           rewrite states_of_layout, layout_length, layout_last. done.
        -- rewrite lookup_insert_ne in Hold by done. by left.
      * right. exists node, post. split; [by right | done].
Qed.

(** *** Counts and passes *)

Lemma passes_cons (i : Z) (node : Node Stmt) (l : list (Node Stmt)) :
  passes i (node :: l)
  = ((if decide (identifier node = i) then 1 else 0) + passes i l)%nat.
Proof.
  unfold passes. rewrite filter_cons.
  by destruct (decide (identifier node = i)).
Qed.

Lemma count_of_visit (current : Node Stmt) (rest : list (Node Stmt))
    (its : gmap Z Z) (r : gmap Z (list T)) (s' : loop_state) (i : Z) :
  visit current rest its r = Ok s' ->
  count_of (iterations s') i
  <= count_of its i + (if decide (identifier current = i) then 1 else 0).
Proof.
  intros Hv. apply visit_inv in Hv
    as (iteration & previous & entry & Hit & _ & _ & ->).
  unfold count_of.
  destruct (changed previous entry); simpl.
  - destruct (decide (identifier current = i)) as [<-|Hne].
    + rewrite lookup_insert_eq, Hit. simpl. lia.
    + rewrite lookup_insert_ne by done. lia.
  - destruct (decide (identifier current = i)); lia.
Qed.

(** The count of a node never exceeds the number of passes over it. *)
Lemma count_le_passes (n : nat) (s0 s : loop_state) (i : Z) :
  turns n s0 = Ok s ->
  count_of (iterations s) i
  <= count_of (iterations s0) i + Z.of_nat (passes i (popped n s0)).
Proof.
  revert s0. induction n as [|n IH]; intros s0 Hturns.
  - simpl in Hturns. simplify_eq. simpl. unfold passes. simpl. lia.
  - destruct (worklist s0) as [|current rest] eqn:Hw.
    + rewrite turns_empty in Hturns by done. simplify_eq. lia.
    + rewrite (turns_succ n _ _ _ Hw) in Hturns.
      apply bind_Ok in Hturns as (s1 & Hturn & Hturns).
      rewrite (popped_succ _ _ _ _ _ Hw Hturn), passes_cons.
      specialize (IH s1 Hturns).
      rewrite (turn_visit _ _ _ Hw) in Hturn.
      apply (count_of_visit _ _ _ _ _ i) in Hturn.
      destruct (decide (identifier current = i)); lia.
Qed.

Lemma count_of_start (r : gmap Z (list T)) (i : Z) :
  count_of (iterations (start cfg r)) i = 0.
Proof.
  unfold count_of. simpl. rewrite lookup_fmap.
  by destruct (nodes cfg !! i).
Qed.

(** Without a count above the threshold the exit state is the plain
    join. *)
Lemma exit_state_plain (r : gmap Z (list T)) (iteration : Z)
    (previous : option T) (current : Node Stmt) :
  identifier current ≠ identifier (out_node cfg) ->
  iteration <= widening ->
  exit_state cfg widening initial r iteration previous current
  = join_edges r (out_edges cfg current) (State.bottom initial).
Proof.
  intros Hout Hle. unfold exit_state. rewrite bool_decide_true by done.
  rewrite (bool_decide_false (widening < iteration)) by lia.
  rewrite andb_false_r. by destruct (join_edges _ _ _).
Qed.

(** In a run, a pass over a node that was handed out at most [widening]
    times before is not widened. *)
Lemma early_pass_plain (n : nat) (r0 : gmap Z (list T)) (s : loop_state)
    (current : Node Stmt) (iteration : Z) (previous : option T) :
  turns n (start cfg r0) = Ok s ->
  identifier current ≠ identifier (out_node cfg) ->
  Z.of_nat (passes (identifier current) (popped n (start cfg r0)))
  <= widening ->
  iterations s !! identifier current = Some iteration ->
  exit_state cfg widening initial (result s) iteration previous current
  = join_edges (result s) (out_edges cfg current) (State.bottom initial).
Proof.
  intros Hturns Hout Hpasses Hit. apply exit_state_plain; [done|].
  pose proof (count_le_passes _ _ _ (identifier current) Hturns) as Hle.
  rewrite count_of_start in Hle. unfold count_of in Hle.
  rewrite Hit in Hle. simpl in Hle. lia.
Qed.

(** *** Running again from the store of a finished run *)

Lemma out_settled_visit (current : Node Stmt) (rest : list (Node Stmt))
    (its : gmap Z Z) (r : gmap Z (list T)) (s' : loop_state) :
  Trace.out_settled cfg initial r ->
  visit current rest its r = Ok s' ->
  Trace.out_settled cfg initial (result s').
Proof.
  intros Hset Hv. apply visit_inv in Hv
    as (iteration & previous & entry & _ & _ & Hentry & ->).
  destruct (changed previous entry); simpl; [|done].
  destruct (decide (identifier current = identifier (out_node cfg)))
    as [Hout|Hout].
  - rewrite exit_state_out in Hentry by done. injection Hentry as <-.
    exists (states_of current initial). rewrite Hout, lookup_insert_eq.
    split; [done|]. by rewrite states_of_layout, layout_last.
  - destruct Hset as (states & Hr & Hlast). exists states.
    by rewrite lookup_insert_ne.
Qed.

Lemma out_settled_turns (n : nat) (s0 s : loop_state) :
  Trace.out_settled cfg initial (result s0) ->
  turns n s0 = Ok s ->
  Trace.out_settled cfg initial (result s).
Proof.
  revert s0. induction n as [|n IH]; intros s0 Hset Hturns.
  - simpl in Hturns. by simplify_eq.
  - destruct (worklist s0) as [|current rest] eqn:Hw.
    + rewrite turns_empty in Hturns by done. by simplify_eq.
    + rewrite (turns_succ n _ _ _ Hw) in Hturns.
      apply bind_Ok in Hturns as (s1 & Hturn & Hturns).
      apply (IH s1); [|done].
      rewrite (turn_visit _ _ _ Hw) in Hturn.
      by eapply out_settled_visit.
Qed.

Lemma previous_of_settled (r : gmap Z (list T)) :
  Trace.out_settled cfg initial r -> previous_of r (out_node cfg) = Ok (Some initial).
Proof.
  intros (states & Hr & Hlast).
  unfold previous_of, AnalysisResult.contains,
    AnalysisResult.get_node_result.
  rewrite Hr, bool_decide_true by eauto. simpl.
  unfold last_item. by rewrite Hlast.
Qed.

(** C8. Fixpoint stability: when [less_equal] is reflexive and a run of
    [analyze] has returned a store, a second run started from that store
    (same graph, domain and initial state) makes one turn, on the out
    node, which leaves the store and every count as they are and the queue
    empty; it returns the same store.  No sequence is recomputed or
    overwritten. *)
Theorem C8_fixpoint_stable (fuel : nat) (r0 r1 : gmap Z (list T)) :
  (forall a : T, State.less_equal a a = true) ->
  analyze fuel r0 = Some (Ok r1) ->
  turn (start cfg r1)
  = Ok {| worklist := [];
          iterations := iterations (start cfg r1);
          result := r1 |}
  /\ forall fuel', analyze (S fuel') r1 = Some (Ok r1).
Proof.
  intros Hrefl Hrun.
  assert (turn (start cfg r1)
          = Ok {| worklist := [];
                  iterations := iterations (start cfg r1);
                  result := r1 |}) as Hturn1.
  { unfold BackwardInterpreter.analyze in Hrun.
    destruct (turns fuel (start cfg r0)) as [s|e] eqn:Hturns; [|done].
    destruct (worklist s) eqn:Hw; [|done]. simplify_eq.
    destruct fuel as [|n]; [simpl in Hturns; by simplify_eq|].
    rewrite (turns_succ n (start cfg r0) (out_node cfg) [] eq_refl) in Hturns.
    apply bind_Ok in Hturns as (s1 & Hturn & Hturns).
    rewrite (turn_visit (start cfg r0) (out_node cfg) [] eq_refl) in Hturn.
    pose proof Hturn as Hfirst.
    apply visit_inv in Hturn
      as (iteration & previous & entry & Hit & Hprev & Hentry & Hs1).
    rewrite exit_state_out in Hentry by done. injection Hentry as <-.
    subst s1.
    destruct (changed previous initial) eqn:Hchanged.
    - assert (Trace.out_settled cfg initial (result s)) as Hset.
      { eapply out_settled_turns; [|exact Hturns]. simpl.
        exists (states_of (out_node cfg) initial).
        rewrite lookup_insert_eq.
        by rewrite states_of_layout, layout_last. }
      rewrite (turn_visit (start cfg (result s)) (out_node cfg) []
                 eq_refl).
      unfold BackwardInterpreter.visit. simpl.
      simpl in Hit. unfold dict_get. rewrite Hit. simpl.
      rewrite (previous_of_settled _ Hset). simpl.
      rewrite exit_state_out by done. simpl.
      by rewrite Hrefl.
    - rewrite turns_empty in Hturns by done. simplify_eq. simpl.
      rewrite (turn_visit (start cfg r0) (out_node cfg) [] eq_refl).
      simpl. simpl in Hfirst. by rewrite Hfirst. }
  split; [done|]. intros fuel'.
  unfold BackwardInterpreter.analyze.
  rewrite (turns_succ fuel' (start cfg r1) (out_node cfg) [] eq_refl),
    Hturn1. simpl.
  by rewrite turns_empty.
Qed.

(** *** Cycles *)

(** The turn over a node of a trap nothing of which is stored raises. *)
Lemma trap_turn_raises (C : gset Z) (current : Node Stmt)
    (rest : list (Node Stmt)) (its : gmap Z Z) (r : gmap Z (list T)) :
  trap cfg C ->
  (forall i, i ∈ C -> r !! i = None) ->
  identifier current ∈ C ->
  exists e, visit current rest its r = Raise e.
Proof.
  intros Htrap Hnone Hcur.
  destruct (Htrap current Hcur) as (Hout & edge & Hin & Hedge).
  destruct (visit current rest its r) as [s'|e] eqn:Hv; [|by exists e].
  apply visit_inv in Hv
    as (iteration & previous & entry & _ & _ & Hentry & _).
  rewrite exit_state_inner in Hentry by done.
  destruct (join_edges_unset r (out_edges cfg current) edge
              (State.bottom initial) Hin (Hnone _ Hedge)) as [e He].
  by rewrite He in Hentry.
Qed.

(** No run ever stores a sequence for a node of such a trap: the engine
    cannot get a first pass over a cycle done, whatever the domain. *)
Lemma cycle_never_stored (C : gset Z) (n : nat) (s0 s : loop_state) :
  trap cfg C ->
  (forall i, i ∈ C -> result s0 !! i = None) ->
  turns n s0 = Ok s ->
  forall i, i ∈ C -> result s !! i = None.
Proof.
  intros Htrap. revert s0. induction n as [|n IH]; intros s0 Hnone Hturns.
  - simpl in Hturns. by simplify_eq.
  - destruct (worklist s0) as [|current rest] eqn:Hw.
    + rewrite turns_empty in Hturns by done. by simplify_eq.
    + rewrite (turns_succ n _ _ _ Hw) in Hturns.
      apply bind_Ok in Hturns as (s1 & Hturn & Hturns).
      apply (IH s1); [|done].
      rewrite (turn_visit _ _ _ Hw) in Hturn.
      destruct (decide (identifier current ∈ C)) as [Hcur|Hcur].
      * destruct (trap_turn_raises C current rest (iterations s0)
                    (result s0) Htrap Hnone Hcur) as [e He].
        by rewrite He in Hturn.
      * apply visit_inv in Hturn
          as (iteration & previous & entry & _ & _ & _ & ->).
        intros i Hi. destruct (changed previous entry); simpl; [|auto].
        rewrite lookup_insert_ne; [auto|].
        intros <-. by apply Hcur.
Qed.
End Run.

(** ** The objects a run writes to *)

Section Frame.
Import Heap.
Context {Stmt V : Type}.
Context {D : Heap.ops V Stmt}.
Hypothesis domain_lawful : Heap.lawful D.

Variable cfg : ControlFlowGraph Stmt.
Variable threshold : Z.
Variable initial : nat.
(** The first reference not yet in use when [analyze] is called. *)
Variable base : nat.

Lemma framed_ret {A : Type} (a : A) (Q : A -> Prop) :
  Q a -> framed base (mret a : M V A) Q.
Proof. intros HQ h a' h' Hb [= <- <-]. auto. Qed.

Lemma framed_bind {A B : Type} (m : M V A) (f : A -> M V B)
    (Q : A -> Prop) (R : B -> Prop) :
  framed base m Q ->
  (forall a, Q a -> framed base (f a) R) ->
  framed base (m ≫= f) R.
Proof.
  intros Hm Hf h b h' Hb Hrun. unfold mbind, M_bind in Hrun.
  destruct (m h) as [[a h1]|e] eqn:Hmh; [|done].
  destruct (Hm h a h1 Hb Hmh) as (Hn1 & Hc1 & HQ).
  destruct (Hf a HQ h1 b h' ltac:(lia) Hrun) as (Hn2 & Hc2 & HR).
  split; [lia|]. split; [|done].
  intros l Hl. by rewrite Hc2, Hc1.
Qed.

Lemma framed_weaken {A : Type} (m : M V A) (Q R : A -> Prop) :
  framed base m Q -> (forall a, Q a -> R a) -> framed base m R.
Proof.
  intros Hm HQR h a h' Hb Hrun.
  destruct (Hm h a h' Hb Hrun) as (? & ? & ?). auto.
Qed.

Lemma framed_lift {A : Type} (r : res A) :
  framed base (lift r : M V A) (fun _ => True).
Proof. intros h a h' Hb Hrun. destruct r; by simplify_eq/=. Qed.

(** A copy is a new object; making it writes to no object in use. *)
Lemma framed_deepcopy (x : nat) :
  framed base (deepcopy x : M V nat) (fun y => (base <= y)%nat).
Proof.
  intros h y h' Hb [= <- <-]. simpl. split; [lia|]. split; [|done].
  intros l Hl. destruct (decide (l = next h)); [lia|done].
Qed.

Lemma framed_local1 (f : nat -> M V nat) (x : nat) :
  local1 f returns -> (base <= x)%nat ->
  framed base (f x) (fun y => (base <= y)%nat).
Proof.
  intros Hf Hx h y h' Hb Hrun.
  destruct (Hf x h y h' Hrun) as ((Hn & Hc) & Hret).
  split; [done|]. split.
  - intros l Hl. apply Hc; [lia|].
    intros ->%list_elem_of_singleton. lia.
  - destruct Hret as [->%list_elem_of_singleton|Hnew]; lia.
Qed.

Lemma framed_local2 (f : nat -> nat -> M V nat) (x y : nat) :
  local2 f returns -> (base <= x)%nat -> (base <= y)%nat ->
  framed base (f x y) (fun z => (base <= z)%nat).
Proof.
  intros Hf Hx Hy h z h' Hb Hrun.
  destruct (Hf x y h z h' Hrun) as ((Hn & Hc) & Hret).
  split; [done|]. split.
  - intros l Hl. apply Hc; [lia|].
    intros [->|[->|[]%elem_of_nil]%elem_of_cons]%elem_of_cons; lia.
  - destruct Hret
      as [[->|[->|[]%elem_of_nil]%elem_of_cons]%elem_of_cons|Hnew]; lia.
Qed.

Lemma framed_less_equal (x y : nat) :
  (base <= x)%nat -> (base <= y)%nat ->
  framed base (less_equal x y) (fun _ => True).
Proof.
  intros Hx Hy h z h' Hb Hrun.
  destruct (lawful_less_equal domain_lawful x y h z h' Hrun)
    as ((Hn & Hc) & _).
  split; [done|]. split; [|done].
  intros l Hl. apply Hc; [lia|].
  intros [->|[->|[]%elem_of_nil]%elem_of_cons]%elem_of_cons; lia.
Qed.

Local Abbreviation fresh := (fun y : nat => (base <= y)%nat).
Local Abbreviation fresh_opt :=
  (fun o : option nat => forall p, o = Some p -> (base <= p)%nat).

Lemma framed_previous_of (r : gmap Z (list nat)) (current : Node Stmt) :
  framed base (previous_of (V:=V) r current) fresh_opt.
Proof.
  unfold previous_of. destruct (AnalysisResult.contains r current).
  - eapply framed_bind; [apply framed_lift|]. intros states _.
    eapply framed_bind; [apply framed_lift|]. intros last _.
    eapply framed_bind; [apply framed_deepcopy|]. intros p Hp.
    apply framed_ret. by intros ? [= <-].
  - by apply framed_ret.
Qed.

Lemma framed_cross (k : Kind.t) (successor : nat) :
  (base <= successor)%nat -> framed base (cross k successor) fresh.
Proof.
  intros Hs. destruct k; simpl.
  - by apply framed_ret.
  - apply framed_local1; [apply domain_lawful | done].
  - apply framed_local1; [apply domain_lawful | done].
  - apply framed_local1; [apply domain_lawful | done].
  - apply framed_local1; [apply domain_lawful | done].
Qed.

Lemma framed_guard (c : option Stmt) (successor : nat) :
  (base <= successor)%nat -> framed base (guard c successor) fresh.
Proof.
  intros Hs. destruct c as [cond|]; simpl.
  - eapply framed_bind.
    + apply framed_local1; [apply domain_lawful | done].
    + intros s' Hs'. apply framed_local1; [apply domain_lawful | done].
  - by apply framed_ret.
Qed.

Lemma framed_successor_of (r : gmap Z (list nat)) (edge : Edge Stmt) :
  framed base (successor_of r edge) fresh.
Proof.
  unfold successor_of.
  eapply framed_bind; [apply framed_lift|]. intros states _.
  eapply framed_bind; [apply framed_lift|]. intros first _.
  eapply framed_bind; [apply framed_deepcopy|]. intros s Hs.
  eapply framed_bind; [by apply framed_cross|]. intros s' Hs'.
  by apply framed_guard.
Qed.

Lemma framed_join_edges (r : gmap Z (list nat)) (edges : list (Edge Stmt))
    (entry : nat) :
  (base <= entry)%nat -> framed base (join_edges r edges entry) fresh.
Proof.
  revert entry. induction edges as [|edge edges IH]; intros entry He.
  - by apply framed_ret.
  - simpl.
    eapply framed_bind; [apply framed_successor_of|]. intros s Hs.
    eapply framed_bind.
    + apply framed_local2; [apply domain_lawful | done..].
    + intros entry' He'. by apply IH.
Qed.

Lemma framed_truth (x : nat) :
  (base <= x)%nat -> framed base (truth x) (fun _ => True).
Proof.
  intros Hx h z h' Hb Hrun.
  destruct (lawful_truth domain_lawful x h z h' Hrun) as ((Hn & Hc) & _).
  split; [done|]. split; [|done].
  intros l Hl. apply Hc; [lia|].
  intros ->%list_elem_of_singleton. lia.
Qed.

Lemma framed_previous_or_bottom (previous : option nat) :
  fresh_opt previous ->
  framed base (previous_or_bottom initial previous) fresh.
Proof.
  intros Hp. destruct previous as [p|]; simpl.
  - eapply framed_bind; [apply framed_truth; by apply Hp|].
    intros true_p _. destruct true_p.
    + apply framed_ret. by apply Hp.
    + eapply framed_bind; [apply framed_deepcopy|]. intros c Hc.
      apply framed_local1; [apply domain_lawful | done].
  - eapply framed_bind; [apply framed_deepcopy|]. intros c Hc.
    apply framed_local1; [apply domain_lawful | done].
Qed.

(** The exit state is computed on copies: [initial] itself is only ever
    handed to [deepcopy]. *)
Lemma framed_exit_state (r : gmap Z (list nat)) (iteration : Z)
    (previous : option nat) (current : Node Stmt) :
  fresh_opt previous ->
  framed base (exit_state cfg threshold initial r iteration previous
                 current) fresh.
Proof.
  intros Hp. unfold exit_state.
  eapply framed_bind; [apply framed_deepcopy|]. intros entry He.
  destruct (bool_decide _); [|by apply framed_ret].
  eapply framed_bind.
  { apply framed_local1; [apply domain_lawful | done]. }
  intros entry1 He1.
  eapply framed_bind; [by apply framed_join_edges|]. intros entry2 He2.
  destruct (_ && _); [|by apply framed_ret].
  eapply framed_bind; [by apply framed_previous_or_bottom|].
  intros p Hp'.
  eapply framed_bind; [apply framed_deepcopy|]. intros p' Hp''.
  apply framed_local2; [apply domain_lawful | done..].
Qed.

Lemma framed_changed (previous : option nat) (entry : nat) :
  fresh_opt previous -> (base <= entry)%nat ->
  framed base (changed previous entry) (fun _ => True).
Proof.
  intros Hp He. destruct previous as [p|]; simpl.
  - eapply framed_bind; [apply framed_less_equal; auto|].
    intros le _. by apply framed_ret.
  - by apply framed_ret.
Qed.

Lemma framed_walk_rev (stmts : list Stmt) (successor : nat)
    (states : list nat) :
  framed base (walk_rev stmts successor states) (fun _ => True).
Proof.
  revert successor states.
  induction stmts as [|stmt stmts IH]; intros successor states.
  - by apply framed_ret.
  - simpl.
    eapply framed_bind; [apply framed_deepcopy|]. intros c Hc.
    eapply framed_bind.
    { apply framed_local1; [apply domain_lawful | done]. }
    intros s _. apply IH.
Qed.

Lemma framed_states_of (current : Node Stmt) (entry : nat) :
  framed base (states_of current entry) (fun _ => True).
Proof.
  unfold states_of. destruct (node_cls current).
  - apply framed_walk_rev.
  - by apply framed_ret.
  - by apply framed_ret.
Qed.

Lemma framed_visit (current : Node Stmt) (rest : list (Node Stmt))
    (its : gmap Z Z) (r : gmap Z (list nat)) :
  framed base (visit cfg threshold initial current rest its r)
    (fun _ => True).
Proof.
  unfold visit.
  eapply framed_bind; [apply framed_lift|]. intros iteration _.
  eapply framed_bind; [apply framed_previous_of|]. intros previous Hp.
  eapply framed_bind; [by apply framed_exit_state|]. intros entry He.
  eapply framed_bind; [by apply framed_changed|]. intros go _.
  destruct go; [|by apply framed_ret].
  eapply framed_bind; [apply framed_states_of|]. intros states _.
  by apply framed_ret.
Qed.

Lemma framed_turns (n : nat) (s : loop_state) :
  framed base (turns cfg threshold initial n s) (fun _ => True).
Proof.
  revert s. induction n as [|n IH]; intros s; [by apply framed_ret|].
  simpl. destruct (worklist s) as [|current rest] eqn:Hw;
    [by apply framed_ret|].
  eapply framed_bind; [|intros s' _; apply IH].
  unfold turn. rewrite Hw. apply framed_visit.
Qed.
End Frame.

(** C9. [analyze] does not mutate its inputs.  With a domain whose
    operations write only to the state objects they are given, every object
    that exists when [analyze] is called has the same content when it
    returns: the object [initial] refers to, which the engine hands to
    [deepcopy] only, and any other object of the caller, the states of an
    earlier store included.  The graph is a value the engine only queries. *)
Theorem C9_inputs_unchanged {Stmt V : Type} (D : Heap.ops V Stmt)
    (cfg : ControlFlowGraph Stmt) (threshold : Z) (initial : nat)
    (fuel : nat) (r0 r : gmap Z (list nat)) (h0 h : Heap.heap V) :
  Heap.lawful D ->
  (initial < Heap.next h0)%nat ->
  Heap.analyze cfg threshold initial fuel r0 h0 = Some (Ok (r, h)) ->
  Heap.cell h initial = Heap.cell h0 initial /\
  forall l, (l < Heap.next h0)%nat -> Heap.cell h l = Heap.cell h0 l.
Proof.
  intros Hlawful Hinit Hrun. unfold Heap.analyze in Hrun.
  destruct (Heap.turns cfg threshold initial fuel (Heap.start cfg r0) h0)
    as [[s h']|e] eqn:Hturns; [|done].
  destruct (Heap.worklist s); [|done]. simplify_eq.
  destruct (framed_turns Hlawful cfg threshold initial (Heap.next h0)
              fuel _ h0 s h (le_n _) Hturns) as (_ & Hcells & _).
  auto.
Qed.

(** ** In-place domains *)

Section InPlaceLawful.
Import Heap.
Context {Stmt T : Type}.
Context {D : State.ops T} {Sem : BackwardSemantics.ops Stmt T}.

Lemma update1_local (f : T -> T) :
  local1 (InPlace.update1 f) returns.
Proof.
  intros x h a h' [= <- <-]. split; [split|].
  - done.
  - intros l _ Hl. simpl. destruct (decide (l = x)) as [->|]; [|done].
    exfalso. apply Hl. by left.
  - left. by left.
Qed.

Lemma update2_local (f : T -> T -> T) :
  local2 (InPlace.update2 f) returns.
Proof.
  intros x y h a h' [= <- <-]. split; [split|].
  - done.
  - intros l _ Hl. simpl. destruct (decide (l = x)) as [->|]; [|done].
    exfalso. apply Hl. by left.
  - left. by left.
Qed.

(** An in-place domain writes to its receiver only. *)
Lemma in_place_lawful : lawful (InPlace.ops (D := D) (Sem := Sem)).
Proof.
  split; simpl; try apply update1_local; try apply update2_local.
  - intros x y h a h' [= <- <-]. by repeat split.
  - intros x h a h' [= <- <-]. by repeat split.
  - intros stmt. apply update1_local.
Qed.
End InPlaceLawful.

(** ** The heap and the values

    With an in-place domain, a run of the interpreter on the heap computes
    what the interpreter on values computes from the contents: the copies of
    the source keep every stored state and the caller's state out of reach
    of the operations. *)

Section Simulation.
Import Heap.
Context {Stmt T : Type}.
Context {D : State.ops T} {Sem : BackwardSemantics.ops Stmt T}.
Variable cfg : ControlFlowGraph Stmt.
Variable threshold : Z.
Variable initial : nat.

Local Abbreviation contents := (InPlace.contents (T := T)).
Local Abbreviation allocated := (InPlace.allocated (T := T)).

Ltac heap_crush :=
  repeat (split || intro); simplify_eq/=;
  repeat (case_decide; simplify_eq/=); try lia; try done.

Lemma contents_stable (r : gmap Z (list nat)) (h h' : heap T) :
  (forall i states l,
     r !! i = Some states -> l ∈ states -> cell h' l = cell h l) ->
  contents r h' = contents r h.
Proof.
  intros Hsame. unfold InPlace.contents. apply map_eq. intros i.
  rewrite !lookup_fmap. destruct (r !! i) as [states|] eqn:Hr; [|done].
  simpl. f_equal. apply Forall_fmap_ext_1, Forall_forall.
  intros l Hl. by eapply Hsame.
Qed.

Lemma contents_below (r : gmap Z (list nat)) (h h' : heap T) :
  allocated r h ->
  (forall l, (l < next h)%nat -> cell h' l = cell h l) ->
  contents r h' = contents r h.
Proof.
  intros Halloc Hc. apply contents_stable.
  intros i states l Hr Hl. apply Hc. by eapply Halloc.
Qed.

Lemma allocated_mono (r : gmap Z (list nat)) (h h' : heap T) :
  allocated r h -> (next h <= next h')%nat -> allocated r h'.
Proof.
  intros Halloc Hn i states l Hr Hl.
  specialize (Halloc i states l Hr Hl). lia.
Qed.

Lemma lookup_contents (r : gmap Z (list nat)) (h : heap T) (i : Z) :
  contents r h !! i = fmap (M := list) (cell h) <$> r !! i.
Proof. unfold InPlace.contents. by rewrite lookup_fmap. Qed.

(** *** One out-edge *)

Lemma cross_in_place (k : Kind.t) (s : nat) (h : heap T) :
  exists h',
    Heap.cross k s h = Ok (s, h') /\
    next h' = next h /\
    cell h' s = BackwardInterpreter.cross k (cell h s) /\
    forall l, l ≠ s -> cell h' l = cell h l.
Proof.
  destruct k; simpl; eexists; (split; [reflexivity|]); heap_crush.
Qed.

Lemma guard_in_place (c : option Stmt) (s : nat) (h : heap T) :
  exists h',
    Heap.guard c s h = Ok (s, h') /\
    next h' = next h /\
    cell h' s = BackwardInterpreter.guard c (cell h s) /\
    forall l, l ≠ s -> cell h' l = cell h l.
Proof.
  destruct c as [cond|]; simpl; eexists; (split; [reflexivity|]);
    heap_crush.
Qed.

(** The state an out-edge brings back is a new object, holding what the
    interpreter on values computes from the contents of the store. *)
Lemma successor_of_in_place (r : gmap Z (list nat)) (edge : Edge Stmt)
    (h : heap T) :
  match Heap.successor_of r edge h with
  | Ok (s, h') =>
      s = next h /\ next h' = S (next h) /\
      (forall l, (l < next h)%nat -> cell h' l = cell h l) /\
      BackwardInterpreter.successor_of (contents r h) edge
      = Ok (cell h' s)
  | Raise e =>
      BackwardInterpreter.successor_of (contents r h) edge = Raise e
  end.
Proof.
  unfold Heap.successor_of, BackwardInterpreter.successor_of,
    AnalysisResult.get_node_result.
  rewrite lookup_contents.
  destruct (r !! identifier (target edge)) as [[|first rest]|]; simpl;
    try done.
  unfold mbind, M_bind. simpl.
  set (h1 := {| next := S (next h); cell := _ |}).
  destruct (cross_in_place (kind edge) (next h) h1)
    as (h2 & -> & Hn2 & Hv2 & Hc2).
  destruct (guard_in_place (condition edge) (next h) h2)
    as (h3 & -> & Hn3 & Hv3 & Hc3).
  split; [done|]. split; [by rewrite Hn3, Hn2|]. split.
  - intros l Hl. rewrite Hc3, Hc2 by lia. subst h1. heap_crush.
  - rewrite Hv3, Hv2. subst h1. heap_crush.
Qed.

(** The loop over the out-edges joins into its accumulator, in place. *)
Lemma join_edges_in_place (r : gmap Z (list nat))
    (edges : list (Edge Stmt)) (entry : nat) (h : heap T) :
  allocated r h ->
  (forall i states, r !! i = Some states -> entry ∉ states) ->
  (entry < next h)%nat ->
  match Heap.join_edges r edges entry h with
  | Ok (a, h') =>
      a = entry /\ (next h <= next h')%nat /\
      (forall l, (l < next h)%nat -> l ≠ entry -> cell h' l = cell h l) /\
      BackwardInterpreter.join_edges (contents r h) edges (cell h entry)
      = Ok (cell h' a)
  | Raise e =>
      BackwardInterpreter.join_edges (contents r h) edges (cell h entry)
      = Raise e
  end.
Proof.
  intros Halloc Hentry. revert h Halloc.
  induction edges as [|edge edges IH]; intros h Halloc Hlt; simpl.
  - heap_crush.
  - unfold mbind at 1, M_bind at 1.
    pose proof (successor_of_in_place r edge h) as Hs.
    destruct (Heap.successor_of r edge h) as [[s h1]|e]; simpl;
      [|by rewrite Hs].
    destruct Hs as (-> & Hn1 & Hc1 & ->). simpl.
    unfold mbind, M_bind. simpl.
    set (h2 := InPlace.write entry _ h1).
    assert (contents r h2 = contents r h) as Hcontents.
    { apply contents_stable. intros i states l Hr Hl.
      subst h2. simpl. case_decide as Heq.
      - subst l. by destruct (Hentry i states Hr).
      - apply Hc1. by eapply Halloc. }
    specialize (IH h2).
    destruct (Heap.join_edges r edges entry h2) as [[a h3]|e].
    + destruct IH as (-> & Hn3 & Hc3 & Hpure).
      { eapply allocated_mono; [done|]. subst h2. simpl. lia. }
      { subst h2. simpl. lia. }
      split; [done|]. split; [subst h2; simpl in *; lia|]. split.
      * intros l Hl Hne. rewrite Hc3 by (subst h2; simpl; lia).
        subst h2. simpl. rewrite decide_False by done. by apply Hc1.
      * rewrite <- Hpure, Hcontents. subst h2. simpl.
        rewrite decide_True by done. by rewrite (Hc1 entry Hlt).
    + rewrite <- IH, Hcontents.
      * subst h2. simpl. rewrite decide_True by done.
        by rewrite (Hc1 entry Hlt).
      * eapply allocated_mono; [done|]. subst h2. simpl. lia.
      * subst h2. simpl. lia.
Qed.

(** *** The previous exit state *)

Lemma previous_of_in_place (r : gmap Z (list nat)) (current : Node Stmt)
    (h : heap T) :
  match Heap.previous_of r current h with
  | Ok (o, h') =>
      (next h <= next h')%nat /\
      (forall l, (l < next h)%nat -> cell h' l = cell h l) /\
      (forall p, o = Some p -> (next h <= p < next h')%nat) /\
      BackwardInterpreter.previous_of (contents r h) current
      = Ok (cell h' <$> o)
  | Raise e =>
      BackwardInterpreter.previous_of (contents r h) current = Raise e
  end.
Proof.
  unfold Heap.previous_of, BackwardInterpreter.previous_of,
    AnalysisResult.contains, AnalysisResult.get_node_result.
  rewrite lookup_contents.
  destruct (r !! identifier current) as [states|]; simpl.
  - unfold last_item, mbind, M_bind, lift. simpl. rewrite fmap_last.
    destruct (last states) as [x|]; simpl; [|done].
    heap_crush.
  - heap_crush.
Qed.

(** *** The exit state *)

Lemma exit_state_in_place (r : gmap Z (list nat)) (iteration : Z)
    (previous : option nat) (current : Node Stmt) (h : heap T) :
  allocated r h ->
  (initial < next h)%nat ->
  (forall p, previous = Some p -> (p < next h)%nat) ->
  match Heap.exit_state cfg threshold initial r iteration previous
          current h with
  | Ok (a, h') =>
      (next h <= a < next h')%nat /\
      (forall l, (l < next h)%nat -> cell h' l = cell h l) /\
      BackwardInterpreter.exit_state cfg threshold (cell h initial)
        (contents r h) iteration (cell h <$> previous) current
      = Ok (cell h' a)
  | Raise e =>
      BackwardInterpreter.exit_state cfg threshold (cell h initial)
        (contents r h) iteration (cell h <$> previous) current
      = Raise e
  end.
Proof.
  intros Halloc Hinit Hprev.
  unfold Heap.exit_state, BackwardInterpreter.exit_state.
  unfold mbind at 1, M_bind at 1. simpl.
  set (h1 := {| next := S (next h); cell := _ |}).
  destruct (bool_decide _); [|subst h1; heap_crush].
  unfold mbind at 1, M_bind at 1. simpl.
  set (h2 := InPlace.write (next h) _ h1).
  assert (forall l, (l < next h)%nat -> cell h2 l = cell h l) as Hc2
    by (intros l Hl; subst h2 h1; heap_crush).
  assert (cell h2 (next h) = State.bottom (cell h initial)) as Hv2
    by (subst h2 h1; heap_crush).
  assert (contents r h2 = contents r h) as Hcontents
    by (by apply contents_below).
  pose proof (join_edges_in_place r (out_edges cfg current) (next h) h2)
    as Hjoin.
  unfold mbind at 1, M_bind at 1.
  destruct (Heap.join_edges r (out_edges cfg current) (next h) h2)
    as [[a h3]|e].
  - destruct Hjoin as (-> & Hn3 & Hc3 & Hpure).
    { eapply allocated_mono; [done|]. subst h2 h1. simpl. lia. }
    { intros i states Hr Hin. specialize (Halloc i states _ Hr Hin). lia. }
    { subst h2 h1. simpl. lia. }
    rewrite Hcontents, Hv2 in Hpure. rewrite Hpure. simpl.
    assert (next h2 = S (next h)) as Hn2 by (subst h2 h1; done).
    assert (forall l, (l < next h)%nat -> cell h3 l = cell h l) as Hc3'.
    { intros l Hl. rewrite Hc3 by lia. by apply Hc2. }
    destruct (is_Loop current && bool_decide (threshold < iteration)).
    + destruct previous as [p|]; simpl.
      * specialize (Hprev p eq_refl).
        unfold mbind, M_bind. simpl. rewrite (Hc3' p) by lia.
        destruct (State.truth (cell h p)); simpl.
        -- heap_crush; rewrite ?(Hc3' p) by lia; try done; by apply Hc3'.
        -- heap_crush; rewrite ?(Hc3' initial) by lia; try done;
             by apply Hc3'.
      * unfold mbind, M_bind. simpl.
        heap_crush; rewrite ?(Hc3' initial) by lia; try done;
          by apply Hc3'.
    + simpl. split; [lia|]. split; [exact Hc3' | done].
  - rewrite Hcontents, Hv2 in Hjoin. rewrite Hjoin; [done| | |].
    + eapply allocated_mono; [done|]. subst h2 h1. simpl. lia.
    + intros i states Hr Hin. specialize (Halloc i states _ Hr Hin). lia.
    + subst h2 h1. simpl. lia.
Qed.

Lemma changed_in_place (previous : option nat) (entry : nat) (h : heap T) :
  Heap.changed previous entry h
  = Ok (BackwardInterpreter.changed (cell h <$> previous) (cell h entry),
        h).
Proof. by destruct previous. Qed.

(** *** The sequence of a node *)

Lemma walk_rev_in_place (stmts : list Stmt) (successor : nat)
    (states : list nat) (h : heap T) :
  (successor < next h)%nat ->
  (forall l, l ∈ states -> (l < next h)%nat) ->
  exists locs h',
    Heap.walk_rev stmts successor states h = Ok (locs, h') /\
    (next h <= next h')%nat /\
    (forall l, (l < next h)%nat -> cell h' l = cell h l) /\
    (forall l, l ∈ locs -> (l < next h')%nat) /\
    cell h' <$> locs
    = (foldl (fun '(successor, states) stmt =>
                let successor :=
                  BackwardSemantics.semantics stmt successor in
                (successor, successor :: states))
             (cell h successor, cell h <$> states) stmts).2.
Proof.
  revert successor states h.
  induction stmts as [|stmt stmts IH]; intros successor states h Hs Hst.
  - exists states, h. simpl. repeat split; auto.
  - simpl. unfold mbind, M_bind. simpl.
    set (h2 := InPlace.write (next h) _ _).
    destruct (IH (next h) (next h :: states) h2)
      as (locs & h' & Hrun & Hn & Hc & Hlocs & Hpure).
    { subst h2. simpl. lia. }
    { intros l [->|Hl]%elem_of_cons; subst h2; simpl; [lia|].
      specialize (Hst l Hl). lia. }
    exists locs, h'. split; [exact Hrun|].
    assert (forall l, (l < next h)%nat -> cell h2 l = cell h l) as Hc2.
    { intros l Hl. subst h2. simpl.
      rewrite !decide_False by lia. done. }
    split; [subst h2; simpl in *; lia|]. split.
    { intros l Hl. rewrite Hc by (subst h2; simpl; lia). by apply Hc2. }
    split; [done|].
    rewrite Hpure. f_equal. f_equal.
    assert (cell h2 (next h)
            = BackwardSemantics.semantics stmt (cell h successor)) as ->.
    { subst h2. simpl. rewrite decide_True by done.
      by rewrite decide_True by done. }
    rewrite fmap_cons. f_equal. f_equal.
    { subst h2. simpl. rewrite decide_True by done.
      by rewrite decide_True by done. }
    apply Forall_fmap_ext_1, Forall_forall. intros l Hl.
    apply Hc2. by apply Hst.
Qed.

Lemma states_of_in_place (current : Node Stmt) (entry : nat) (h : heap T) :
  (entry < next h)%nat ->
  exists locs h',
    Heap.states_of current entry h = Ok (locs, h') /\
    (next h <= next h')%nat /\
    (forall l, (l < next h)%nat -> cell h' l = cell h l) /\
    (forall l, l ∈ locs -> (l < next h')%nat) /\
    cell h' <$> locs = BackwardInterpreter.states_of current (cell h entry).
Proof.
  intros He. unfold Heap.states_of, BackwardInterpreter.states_of.
  destruct (node_cls current) as [stmts| |].
  - destruct (walk_rev_in_place (reverse stmts) entry [entry] h He)
      as (locs & h' & Hrun & Hn & Hc & Hlocs & Hpure).
    { by intros l ->%list_elem_of_singleton. }
    exists locs, h'. by repeat split.
  - exists [entry], h. repeat split; auto.
    by intros l ->%list_elem_of_singleton.
  - exists [entry], h. repeat split; auto.
    by intros l ->%list_elem_of_singleton.
Qed.

(** *** Turns *)

Lemma run_bind {A B : Type} (m : M T A) (f : A -> M T B) (h : heap T) :
  (m ≫= f) h
  = match m h with
    | Ok (a, h') => f a h'
    | Raise e => Raise e
    end.
Proof. reflexivity. Qed.

Lemma contents_insert (r : gmap Z (list nat)) (i : Z) (locs : list nat)
    (h : heap T) :
  contents (<[i := locs]> r) h = <[i := cell h <$> locs]> (contents r h).
Proof. unfold InPlace.contents. by rewrite fmap_insert. Qed.

Lemma visit_in_place (current : Node Stmt) (rest : list (Node Stmt))
    (its : gmap Z Z) (r : gmap Z (list nat)) (h : heap T) :
  allocated r h ->
  (initial < next h)%nat ->
  match Heap.visit cfg threshold initial current rest its r h with
  | Ok (s', h') =>
      (next h <= next h')%nat /\
      (forall l, (l < next h)%nat -> cell h' l = cell h l) /\
      allocated (Heap.result s') h' /\
      BackwardInterpreter.visit cfg threshold (cell h initial) current
        rest its (contents r h)
      = Ok (InPlace.abstract s' h')
  | Raise e =>
      BackwardInterpreter.visit cfg threshold (cell h initial) current
        rest its (contents r h)
      = Raise e
  end.
Proof.
  intros Halloc Hinit.
  unfold Heap.visit, BackwardInterpreter.visit.
  rewrite run_bind.
  destruct (dict_get its (identifier current)) as [iteration|e]; simpl;
    [|done].
  rewrite run_bind.
  pose proof (previous_of_in_place r current h) as Hprev.
  destruct (Heap.previous_of r current h) as [[previous h1]|e];
    [|by rewrite Hprev].
  destruct Hprev as (Hn1 & Hc1 & Hp1 & ->). simpl.
  rewrite run_bind.
  pose proof (exit_state_in_place r iteration previous current h1)
    as Hexit.
  assert (contents r h1 = contents r h) as Hcontents1
    by (by apply contents_below).
  rewrite Hcontents1, (Hc1 initial Hinit) in Hexit.
  destruct (Heap.exit_state cfg threshold initial r iteration previous
              current h1) as [[entry h2]|e].
  - destruct Hexit as ((He1 & He2) & Hc2 & ->).
    { by eapply allocated_mono. }
    { lia. }
    { intros p Hp. specialize (Hp1 p Hp). lia. }
    simpl. rewrite run_bind, changed_in_place.
    assert (cell h2 <$> previous = cell h1 <$> previous) as ->.
    { destruct previous as [p|]; [|done]. simpl. f_equal.
      apply Hc2. specialize (Hp1 p eq_refl). lia. }
    destruct (BackwardInterpreter.changed _ _).
    + rewrite run_bind.
      destruct (states_of_in_place current entry h2 He2)
        as (locs & h3 & -> & Hn3 & Hc3 & Hlocs & Hpure).
      simpl. split; [lia|]. split.
      { intros l Hl. rewrite Hc3, Hc2, Hc1 by lia. done. }
      split.
      { intros i states l.
        unfold AnalysisResult.set_node_result.
        destruct (decide (identifier current = i)) as [<-|Hne].
        - rewrite lookup_insert_eq. intros [= <-]. apply Hlocs.
        - rewrite lookup_insert_ne by done. intros Hr Hl.
          specialize (Halloc i states l Hr Hl). lia. }
      unfold InPlace.abstract. simpl. f_equal. f_equal.
      unfold AnalysisResult.set_node_result.
      rewrite contents_insert, Hpure. f_equal.
      symmetry. apply contents_below; [done|].
      intros l Hl. rewrite Hc3, Hc2, Hc1 by lia. done.
    + simpl. split; [lia|]. split.
      { intros l Hl. rewrite Hc2, Hc1 by lia. done. }
      split; [eapply allocated_mono; [done|lia]|].
      unfold InPlace.abstract. simpl. f_equal. f_equal.
      symmetry. apply contents_below; [done|].
      intros l Hl. rewrite Hc2, Hc1 by lia. done.
  - rewrite Hexit; [done| | |].
    + by eapply allocated_mono.
    + lia.
    + intros p Hp. specialize (Hp1 p Hp). lia.
Qed.

Lemma turns_in_place (n : nat) (s : Heap.loop_state) (h : heap T) :
  allocated (Heap.result s) h ->
  (initial < next h)%nat ->
  match Heap.turns cfg threshold initial n s h with
  | Ok (s', h') =>
      (next h <= next h')%nat /\
      (forall l, (l < next h)%nat -> cell h' l = cell h l) /\
      allocated (Heap.result s') h' /\
      BackwardInterpreter.turns cfg threshold (cell h initial) n
        (InPlace.abstract s h)
      = Ok (InPlace.abstract s' h')
  | Raise e =>
      BackwardInterpreter.turns cfg threshold (cell h initial) n
        (InPlace.abstract s h)
      = Raise e
  end.
Proof.
  revert s h. induction n as [|n IH]; intros s h Halloc Hinit.
  - simpl. auto.
  - simpl. destruct (Heap.worklist s) as [|current rest] eqn:Hw.
    + simpl. auto.
    + rewrite run_bind. unfold Heap.turn, BackwardInterpreter.turn.
      simpl. rewrite Hw.
      pose proof (visit_in_place current rest (Heap.iterations s)
                    (Heap.result s) h Halloc Hinit) as Hvisit.
      destruct (Heap.visit cfg threshold initial current rest
                  (Heap.iterations s) (Heap.result s) h)
        as [[s1 h1]|e]; [|by rewrite Hvisit].
      destruct Hvisit as (Hn1 & Hc1 & Halloc1 & ->). simpl.
      specialize (IH s1 h1 Halloc1 ltac:(lia)).
      rewrite (Hc1 initial Hinit) in IH.
      destruct (Heap.turns cfg threshold initial n s1 h1)
        as [[s2 h2]|e]; [|done].
      destruct IH as (Hn2 & Hc2 & Halloc2 & ->).
      split; [lia|]. split; [|done].
      intros l Hl. rewrite Hc2, Hc1 by lia. done.
Qed.
End Simulation.

(** The interpreter on the heap, with an in-place domain, returns a store
    whose contents are the store the interpreter on values returns from the
    contents of its inputs, and raises where that one raises. *)
Theorem in_place_refines {Stmt T : Type} {D : State.ops T}
    {Sem : BackwardSemantics.ops Stmt T} (cfg : ControlFlowGraph Stmt)
    (threshold : Z) (initial : nat) (fuel : nat) (r0 : gmap Z (list nat))
    (h0 : Heap.heap T) :
  InPlace.allocated r0 h0 ->
  (initial < Heap.next h0)%nat ->
  InPlace.observe (Heap.analyze cfg threshold initial fuel r0 h0)
  = BackwardInterpreter.analyze cfg threshold (Heap.cell h0 initial) fuel
      (InPlace.contents r0 h0).
Proof.
  intros Halloc Hinit.
  unfold Heap.analyze, BackwardInterpreter.analyze.
  pose proof (turns_in_place cfg threshold initial fuel
                (Heap.start cfg r0) h0 Halloc Hinit) as Hturns.
  change (InPlace.abstract (Heap.start cfg r0) h0)
    with (BackwardInterpreter.start cfg (InPlace.contents r0 h0)) in Hturns.
  destruct (Heap.turns cfg threshold initial fuel (Heap.start cfg r0) h0)
    as [[s h]|e]; [|by rewrite Hturns].
  destruct Hturns as (_ & _ & _ & ->). simpl.
  by destruct (Heap.worklist s).
Qed.

(** C7. [analyze] is deterministic.  On values: two runs on the same graph,
    with the same domain operations and semantics (functions of their
    arguments), the same initial state and the same store at the start
    return the same contents, or raise the same exception, whatever number
    of turns each was allowed.  On the heap, with an in-place domain: the
    contents returned depend on the contents of the initial state and of the
    store only, not on which objects hold them. *)
Theorem C7_analyze_deterministic :
  (forall (Stmt T : Type) (D : State.ops T)
          (Sem : BackwardSemantics.ops Stmt T)
          (cfg : ControlFlowGraph Stmt) (widening : Z) (initial : T)
          (fuel1 fuel2 : nat) (r : gmap Z (list T))
          (o1 o2 : res (gmap Z (list T))),
     BackwardInterpreter.analyze cfg widening initial fuel1 r = Some o1 ->
     BackwardInterpreter.analyze cfg widening initial fuel2 r = Some o2 ->
     o1 = o2) /\
  (forall (Stmt T : Type) (D : State.ops T)
          (Sem : BackwardSemantics.ops Stmt T)
          (cfg : ControlFlowGraph Stmt) (widening : Z)
          (initial1 initial2 : nat) (fuel1 fuel2 : nat)
          (r1 r2 : gmap Z (list nat)) (h1 h2 : Heap.heap T)
          (o1 o2 : res (gmap Z (list T))),
     InPlace.allocated r1 h1 -> InPlace.allocated r2 h2 ->
     (initial1 < Heap.next h1)%nat -> (initial2 < Heap.next h2)%nat ->
     Heap.cell h1 initial1 = Heap.cell h2 initial2 ->
     InPlace.contents r1 h1 = InPlace.contents r2 h2 ->
     InPlace.observe (Heap.analyze cfg widening initial1 fuel1 r1 h1)
     = Some o1 ->
     InPlace.observe (Heap.analyze cfg widening initial2 fuel2 r2 h2)
     = Some o2 ->
     o1 = o2).
Proof.
  split.
  - intros. by eapply analyze_fuel_independent.
  - intros Stmt T D Sem cfg widening initial1 initial2 fuel1 fuel2 r1 r2
      h1 h2 o1 o2 Ha1 Ha2 Hi1 Hi2 Hinit Hstore H1 H2.
    rewrite in_place_refines in H1, H2 by done.
    rewrite Hinit, Hstore in H1.
    by eapply analyze_fuel_independent.
Qed.

(** ** The scenarios *)

Section ScenarioC.
Import BackwardInterpreter Trace Scenario.
Context {T : Type}.
Context `{!State.ops T} `{!BackwardSemantics.ops string T}.
Variable initial : T.

(** At count 1 and threshold 1 the header of scenario C is not widened,
    whatever the domain, the store and the previous state. *)
Lemma header_count_one_plain (r : gmap Z (list T)) (previous : option T) :
  exit_state While.cfg 1 initial r 1 previous While.header
  = join_edges r [While.header_body; While.header_out]
      (State.bottom initial).
Proof. by apply exit_state_plain. Qed.

Lemma while_trap : trap While.cfg {[ 2; 3 ]}.
Proof.
  intros node Hin.
  assert (identifier node = 2 \/ identifier node = 3) as [Hid|Hid]
    by set_solver.
  - split; [simpl; lia|]. exists While.header_body. simpl.
    rewrite bool_decide_false, bool_decide_true by lia.
    split; [by left | set_solver].
  - split; [simpl; lia|]. exists While.body_header. simpl.
    rewrite !bool_decide_false, bool_decide_true by lia.
    split; [by left | set_solver].
Qed.

(** The loop of scenario C is never analysed: from a store that holds
    nothing for the header and the body, no run stores anything for
    them, whatever the domain, the threshold and the initial state. *)
Lemma scenario_C_never_analysed (threshold : Z) (n : nat)
    (r0 : gmap Z (list T)) (s : loop_state) :
  r0 !! 2 = None -> r0 !! 3 = None ->
  turns While.cfg threshold initial n (start While.cfg r0) = Ok s ->
  result s !! 2 = None /\ result s !! 3 = None.
Proof.
  intros H2 H3 Hturns.
  assert (forall i : Z, i ∈ ({[ 2; 3 ]} : gset Z) ->
            result (start While.cfg r0) !! i = None) as Hnone.
  { intros i Hi. assert (i = 2 \/ i = 3) as [->| ->] by set_solver; done. }
  split; eapply (cycle_never_stored While.cfg threshold initial
                   {[ 2; 3 ]} n _ s while_trap Hnone Hturns);
    set_solver.
Qed.
End ScenarioC.

Section Scenarios.
Import BackwardInterpreter Trace Symbolic Scenario.

(** C2. In scenario C, on a new interpreter, the first pass over the loop
    header finds no stored result for the body: the lookup raises, no exit
    state is computed and [analyze] ends with the exception. *)
Theorem C2_unvisited_successor_raises :
  exists s,
    turns While.cfg 1 (Atom 0) 1 (start While.cfg ∅) = Ok s /\
    worklist s = [While.header] /\
    While.header_body ∈ out_edges While.cfg While.header /\
    result s !! identifier (target While.header_body) = None /\
    (forall iteration previous,
       exit_state While.cfg 1 (Atom 0) (result s) iteration previous
         While.header = Raise KeyError) /\
    turn While.cfg 1 (Atom 0) s = Raise KeyError /\
    analyze While.cfg 1 (Atom 0) 2 ∅ = Some (Raise KeyError).
Proof.
  eexists. split; [vm_compute; reflexivity|].
  repeat split; try (vm_compute; reflexivity).
  by left.
Qed.

(** C5. With threshold 1 the second pass over a loop head is not
    widened: line 63 asks for a count above the threshold, and the count
    of a node on its second pass is at most 1.  In scenario C a new
    interpreter does not get that far: it hands out the out node and the
    header, and the first pass over the header raises (C2).  Whatever the
    domain, the store and the previous state, the exit state of the header
    at count 1 is the plain join over its two out-edges.  On [LoopFork],
    where a new interpreter does pass over a loop head twice, the second
    pass finds count 1 and a previous state, and the exit state it
    computes is the join again, built without widening. *)
Theorem C5_second_pass_not_widened :
  popped While.cfg 1 (Atom 0) 2 (start While.cfg ∅)
  = [While.n_out; While.header] /\
  analyze While.cfg 1 (Atom 0) 2 ∅ = Some (Raise KeyError) /\
  (forall (T : Type) (D : State.ops T)
          (Sem : BackwardSemantics.ops string T) (initial : T)
          (r : gmap Z (list T)) (previous : option T),
     exit_state While.cfg 1 initial r 1 previous While.header
     = join_edges r [While.header_body; While.header_out]
         (State.bottom initial)) /\
  exists s rest previous entry,
    turns LoopFork.cfg 1 (Atom 0) 4 (start LoopFork.cfg ∅) = Ok s /\
    worklist s = LoopFork.head :: rest /\
    passes 1 (popped LoopFork.cfg 1 (Atom 0) 4 (start LoopFork.cfg ∅))
    = 1%nat /\
    iterations s !! identifier LoopFork.head = Some 1 /\
    is_Loop LoopFork.head = true /\
    previous_of (result s) LoopFork.head = Ok (Some previous) /\
    exit_state LoopFork.cfg 1 (Atom 0) (result s) 1 (Some previous)
      LoopFork.head = Ok entry /\
    join_edges (result s) (out_edges LoopFork.cfg LoopFork.head)
      (Bottom (Atom 0)) = Ok entry /\
    uses_widening entry = false /\
    entry ≠ Widening previous entry.
Proof.
  split; [vm_compute; reflexivity|].
  split; [vm_compute; reflexivity|].
  split; [intros; apply header_count_one_plain|].
  eexists. eexists. eexists. eexists.
  split; [vm_compute; reflexivity|].
  split; [vm_compute; reflexivity|].
  split; [vm_compute; reflexivity|].
  split; [vm_compute; reflexivity|].
  split; [reflexivity|].
  split; [vm_compute; reflexivity|].
  split; [vm_compute; reflexivity|].
  split; [vm_compute; reflexivity|].
  split; [vm_compute; reflexivity|].
  discriminate.
Qed.

(** C10. In a conditional without [else], the test node is handed out for
    the first time, with no stored result, before its [then] arm was
    visited: the turn raises, so no sequence is stored for the node and
    its predecessors are not queued. *)
Theorem C10_first_visit_raises :
  exists s,
    turns IfThen.cfg 1 (Atom 0) 1 (start IfThen.cfg ∅) = Ok s /\
    worklist s = [IfThen.test; IfThen.arm] /\
    previous_of (result s) IfThen.test = Ok None /\
    turn IfThen.cfg 1 (Atom 0) s = Raise KeyError /\
    analyze IfThen.cfg 1 (Atom 0) 2 ∅ = Some (Raise KeyError).
Proof.
  eexists. split; [vm_compute; reflexivity|].
  repeat split; vm_compute; reflexivity.
Qed.
End Scenarios.

(** ** Counterexamples and instances *)

Section Instances.
Import BackwardInterpreter Trace Symbolic Scenario.

(** C1 at the block of scenarios A and B, once the out node is stored. *)
Lemma C1_witness :
  (identifier Line.block ≠ identifier (out_node Line.cfg) ->
   forall edge, edge ∈ out_edges Line.cfg Line.block ->
     exists rest,
       ({[ 3 := [Atom 0] ]} : gmap Z (list term))
         !! identifier (target edge)
       = Some ((fun _ => Atom 0) (target edge) :: rest)) /\
  exit_state Line.cfg 1 (Atom 0) {[ 3 := [Atom 0] ]} 0 None Line.block
  = Ok (Join (Bottom (Atom 0)) (Atom 0)).
Proof.
  assert (identifier Line.block ≠ identifier (out_node Line.cfg) ->
          forall edge, edge ∈ out_edges Line.cfg Line.block ->
            exists rest,
              ({[ 3 := [Atom 0] ]} : gmap Z (list term))
                !! identifier (target edge)
              = Some ((fun _ => Atom 0) (target edge) :: rest)) as Hstored.
  { intros _ edge Hin. vm_compute in Hin.
    apply list_elem_of_singleton in Hin. subst edge.
    exists []. vm_compute. reflexivity. }
  split; [exact Hstored|].
  rewrite (C1_post_state_case_split Line.cfg 1 (Atom 0) _ 0 None
             Line.block (fun _ => Atom 0) Hstored).
  vm_compute. reflexivity.
Defined.

(** C1 fails as stated: on [LoopFork] with threshold 0 a new interpreter
    passes over the loop head a second time, with count 1.  Both out-edge
    targets are stored, and the exit state is not the join of the case
    split but the widening of the previous state with it. *)
Lemma C1_counterexample :
  exists s rest previous entry,
    turns LoopFork.cfg 0 (Atom 0) 4 (start LoopFork.cfg ∅) = Ok s /\
    worklist s = LoopFork.head :: rest /\
    iterations s !! identifier LoopFork.head = Some 1 /\
    previous_of (result s) LoopFork.head = Ok previous /\
    (forall edge, edge ∈ out_edges LoopFork.cfg LoopFork.head ->
       exists states,
         result s !! identifier (target edge)
         = Some (default (Atom 0)
                   (result s !! identifier (target edge) ≫= head)
                 :: states)) /\
    exit_state LoopFork.cfg 0 (Atom 0) (result s) 1 previous LoopFork.head
    = Ok entry /\
    widened entry = true /\
    entry ≠ Spec.post_state LoopFork.cfg (Atom 0)
              (fun node =>
                 default (Atom 0) (result s !! identifier node ≫= head))
              LoopFork.head.
Proof.
  eexists. eexists. eexists. eexists.
  split; [vm_compute; reflexivity|].
  split; [vm_compute; reflexivity|].
  split; [vm_compute; reflexivity|].
  split; [vm_compute; reflexivity|].
  split.
  { intros edge Hin. vm_compute in Hin.
    apply elem_of_cons in Hin as [->|Hin];
      [eexists; vm_compute; reflexivity|].
    apply list_elem_of_singleton in Hin. subst edge.
    eexists. vm_compute. reflexivity. }
  split; [vm_compute; reflexivity|].
  split; [reflexivity|].
  vm_compute. discriminate.
Qed.

(** C3 fails as stated, in two ways.  The out node of [Spin] is a loop
    head; on its second pass its count, 1, exceeds the threshold 0, and
    its exit state is the initial state, where the rule as stated gives
    the widening of the previous state with it.  On [LoopFork], over the
    domain with false states and with threshold 0, a new interpreter
    passes over the loop head a second time with a previous state that is
    defined and false: the exit state is the widening from [bottom()],
    where the rule as stated gives the widening of the previous state. *)
Lemma C3_counterexample :
  (exists s rest iteration previous,
     turns Spin.cfg 0 (Atom 0) 1 (start Spin.cfg ∅) = Ok s /\
     worklist s = Spin.head :: rest /\
     is_Loop Spin.head = true /\
     iterations s !! identifier Spin.head = Some iteration /\
     0 < iteration /\
     previous_of (result s) Spin.head = Ok previous /\
     exit_state Spin.cfg 0 (Atom 0) (result s) iteration previous Spin.head
     = Ok (Atom 0) /\
     uses_widening (Atom 0) = false /\
     Spec.widened_post_state 0 iteration (Atom 0) previous Spin.head
       (Spec.post_state Spin.cfg (Atom 0) (fun _ => Atom 0) Spin.head)
     = Widening (Atom 0) (Atom 0)) /\
  (exists s rest previous accumulated,
     turns LoopFork.cfg 0 (Falsy.Mk (Atom 0)) 4 (start LoopFork.cfg ∅)
     = Ok s /\
     worklist s = LoopFork.head :: rest /\
     is_Loop LoopFork.head = true /\
     iterations s !! identifier LoopFork.head = Some 1 /\
     previous_of (result s) LoopFork.head = Ok (Some previous) /\
     State.truth previous = false /\
     join_edges (result s) (out_edges LoopFork.cfg LoopFork.head)
       (State.bottom (Falsy.Mk (Atom 0))) = Ok accumulated /\
     exit_state LoopFork.cfg 0 (Falsy.Mk (Atom 0)) (result s) 1
       (Some previous) LoopFork.head
     = Ok (State.widening (State.bottom (Falsy.Mk (Atom 0))) accumulated)
     /\
     State.widening (State.bottom (Falsy.Mk (Atom 0))) accumulated
     ≠ State.widening previous accumulated /\
     Spec.widened_post_state 0 1 (Falsy.Mk (Atom 0)) (Some previous)
       LoopFork.head accumulated
     = State.widening previous accumulated).
Proof.
  split.
  - eexists. eexists. eexists. eexists.
    split; [vm_compute; reflexivity|].
    split; [vm_compute; reflexivity|].
    split; [reflexivity|].
    split; [vm_compute; reflexivity|].
    split; [lia|].
    split; [vm_compute; reflexivity|].
    split; [vm_compute; reflexivity|].
    split; vm_compute; reflexivity.
  - eexists. eexists. eexists. eexists.
    split; [vm_compute; reflexivity|].
    split; [vm_compute; reflexivity|].
    split; [reflexivity|].
    split; [vm_compute; reflexivity|].
    split; [vm_compute; reflexivity|].
    split; [reflexivity|].
    split; [vm_compute; reflexivity|].
    split; [vm_compute; reflexivity|].
    split; [vm_compute; discriminate|].
    vm_compute. reflexivity.
Qed.

Lemma widening_free_two (i j : Z) (a b : list term) :
  (forall t, t ∈ a -> uses_widening t = false) ->
  (forall t, t ∈ b -> uses_widening t = false) ->
  widening_free (<[i := a]> {[ j := b ]}).
Proof.
  intros Ha Hb. apply widening_free_insert; [|done].
  apply widening_free_insert; [|done].
  intros k states t Hk. by rewrite lookup_empty in Hk.
Qed.

(** C3 at the header of scenario C with count 2 and threshold 1. *)
Lemma C3_witness :
  uses_widening (Atom 0) = false /\
  widening_free (<[3 := [Atom 3]]> {[ 4 := [Atom 0] ]}) /\
  ({[ 2 := 2 ]} : gmap Z Z) !! identifier While.header = Some 2 /\
  exists s' previous entry,
    visit While.cfg 1 (Atom 0) While.header [] {[ 2 := 2 ]}
      (<[3 := [Atom 3]]> {[ 4 := [Atom 0] ]}) = Ok s' /\
    previous_of (<[3 := [Atom 3]]> {[ 4 := [Atom 0] ]}) While.header
    = Ok previous /\
    exit_state While.cfg 1 (Atom 0) (<[3 := [Atom 3]]> {[ 4 := [Atom 0] ]})
      2 previous While.header = Ok entry /\
    widened entry = true.
Proof.
  assert (widening_free (<[3 := [Atom 3]]> {[ 4 := [Atom 0] ]})) as Hfree.
  { apply widening_free_two; by intros t ->%list_elem_of_singleton. }
  assert (({[ 2 := 2 ]} : gmap Z Z) !! identifier While.header = Some 2)
    as Hit by (vm_compute; reflexivity).
  split; [reflexivity|]. split; [exact Hfree|]. split; [exact Hit|].
  eexists.
  destruct (proj2 C3_widening_point While.cfg 1 (Atom 0) While.header []
              {[ 2 := 2 ]} (<[3 := [Atom 3]]> {[ 4 := [Atom 0] ]})
              _ 2 eq_refl Hfree Hit ltac:(vm_compute; reflexivity))
    as (previous & entry & Hprev & Hentry & Hdue).
  exists previous, entry. split; [reflexivity|].
  split; [exact Hprev|]. split; [exact Hentry|].
  vm_compute in Hdue. destruct Hdue as (acc & _ & _ & -> & _).
  reflexivity.
Defined.



(** C6 at the block of scenario A after a whole run. *)
Lemma C6_witness :
  exists s states,
    turns Line.cfg 1 (Atom 0) 3 (start Line.cfg ∅) = Ok s /\
    result s !! 2 = Some states /\
    length states = 3%nat /\
    exists post, last states = Some post.
Proof.
  assert (exists s, turns Line.cfg 1 (Atom 0) 3 (start Line.cfg ∅) = Ok s
                    /\ exists states, result s !! 2 = Some states)
    as (s & Hturns & states & Hstates).
  { eexists. split; [vm_compute; reflexivity|].
    eexists. vm_compute. reflexivity. }
  exists s, states. split; [exact Hturns|]. split; [exact Hstates|].
  destruct (C6_stored_sequences _ _ _ _ _ _ _ _ Hturns Hstates)
    as [Hold|(node & post & Hin & Hid & _ & _ & _ & Hlen & Hlast)].
  - vm_compute in Hold. discriminate.
  - split; [|by exists post]. rewrite Hlen.
    vm_compute in Hin.
    repeat (apply elem_of_cons in Hin as [->|Hin];
            [try (vm_compute in Hid; discriminate); reflexivity|]).
    by apply elem_of_nil in Hin.
Defined.

(** C7 with two callers, the state of the second being its third
    object, and with three turns or ten. *)
Lemma C7_witness :
  exists o1 o2,
    InPlace.allocated (∅ : gmap Z (list nat)) (InPlace.caller (Atom 0)) /\
    InPlace.allocated (∅ : gmap Z (list nat))
      {| Heap.next := 3; Heap.cell := fun _ => Atom 0 |} /\
    InPlace.observe
      (Heap.analyze Line.cfg 1 0%nat 3 ∅ (InPlace.caller (Atom 0)))
    = Some o1 /\
    InPlace.observe
      (Heap.analyze Line.cfg 1 2%nat 10 ∅
         {| Heap.next := 3; Heap.cell := fun _ => Atom 0 |})
    = Some o2 /\
    o1 = o2.
Proof.
  assert (forall h : Heap.heap term,
            InPlace.allocated (∅ : gmap Z (list nat)) h) as Hempty.
  { intros h i states l Hi. by rewrite lookup_empty in Hi. }
  assert (exists o1,
            InPlace.observe
              (Heap.analyze Line.cfg 1 0%nat 3 ∅
                 (InPlace.caller (Atom 0))) = Some o1)
    as [o1 H1] by (eexists; vm_compute; reflexivity).
  assert (exists o2,
            InPlace.observe
              (Heap.analyze Line.cfg 1 2%nat 10 ∅
                 {| Heap.next := 3; Heap.cell := fun _ => Atom 0 |})
            = Some o2)
    as [o2 H2] by (eexists; vm_compute; reflexivity).
  exists o1, o2. split; [apply Hempty|]. split; [apply Hempty|].
  split; [exact H1|]. split; [exact H2|].
  refine (proj2 C7_analyze_deterministic _ _ _ _ _ _ _ _ _ _ _ _ _ _ _ _
            (Hempty _) (Hempty _) _ _ _ _ H1 H2).
  - simpl. lia.
  - simpl. lia.
  - reflexivity.
  - reflexivity.
Defined.

Lemma term_less_equal_refl (a : term) : State.less_equal a a = true.
Proof. simpl. by apply bool_decide_eq_true_2. Qed.

(** C8 on scenario A: the store of a first run, given to a second one. *)
Lemma C8_witness :
  (forall a : term, State.less_equal a a = true) /\
  exists r1,
    analyze Line.cfg 1 (Atom 0) 3 ∅ = Some (Ok r1) /\
    turn Line.cfg 1 (Atom 0) (start Line.cfg r1)
    = Ok {| worklist := [];
            iterations := iterations (start Line.cfg r1);
            result := r1 |} /\
    analyze Line.cfg 1 (Atom 0) 1 r1 = Some (Ok r1).
Proof.
  split; [exact term_less_equal_refl|].
  assert (exists r1, analyze Line.cfg 1 (Atom 0) 3 ∅ = Some (Ok r1))
    as [r1 Hrun] by (eexists; vm_compute; reflexivity).
  exists r1. split; [exact Hrun|].
  destruct (C8_fixpoint_stable _ _ _ _ _ _ term_less_equal_refl Hrun)
    as [Hturn Hagain].
  split; [exact Hturn | exact (Hagain 0%nat)].
Defined.

(** *** The in-place domain *)

(** C9 on scenario A with the in-place domain: the caller's state, at
    reference 0, still holds what it held. *)
Lemma C9_witness :
  Heap.lawful InPlace.ops /\
  (0 < Heap.next (InPlace.caller (Atom 0)))%nat /\
  exists r h,
    Heap.analyze Line.cfg 1 0%nat 3 ∅ (InPlace.caller (Atom 0))
    = Some (Ok (r, h)) /\
    Heap.cell h 0%nat = Atom 0.
Proof.
  split; [exact in_place_lawful|]. split; [simpl; lia|].
  assert (exists r h,
            Heap.analyze Line.cfg 1 0%nat 3 ∅ (InPlace.caller (Atom 0))
            = Some (Ok (r, h))) as (r & h & Hrun)
    by (eexists; eexists; vm_compute; reflexivity).
  exists r, h. split; [exact Hrun|].
  destruct (C9_inputs_unchanged InPlace.ops Line.cfg 1 0%nat 3 ∅ r
              (InPlace.caller (Atom 0)) h in_place_lawful
              ltac:(simpl; lia) Hrun) as [Hinitial _].
  exact Hinitial.
Defined.

(** The two readings of the code agree on the scenarios: the contents of
    the store computed on the heap are the store computed on values. *)
Example line_on_heap :
  InPlace.observe
    (Heap.analyze Line.cfg 1 0%nat 3 ∅ (InPlace.caller (Atom 0)))
  = analyze Line.cfg 1 (Atom 0) 3 ∅.
Proof. vm_compute. reflexivity. Qed.

Example branch_on_heap :
  InPlace.observe
    (Heap.analyze Branch.cfg 1 0%nat 7 ∅ (InPlace.caller (Atom 0)))
  = analyze Branch.cfg 1 (Atom 0) 7 ∅.
Proof. vm_compute. reflexivity. Qed.

Example while_on_heap :
  InPlace.observe
    (Heap.analyze While.cfg 1 0%nat 7 ∅ (InPlace.caller (Atom 0)))
  = analyze While.cfg 1 (Atom 0) 7 ∅.
Proof. vm_compute. reflexivity. Qed.
End Instances.

(** * Further properties of the engine *)

Section Errors.
Import BackwardInterpreter Trace Reach.
Context {Stmt T : Type}.
Context `{!State.ops T} `{!BackwardSemantics.ops Stmt T}.
Variable cfg : ControlFlowGraph Stmt.
Variable widening : Z.
Variable initial : T.

Local Abbreviation turn := (turn cfg widening initial).
Local Abbreviation turns := (turns cfg widening initial).
Local Abbreviation visit := (visit cfg widening initial).
Local Abbreviation analyze := (analyze cfg widening initial).
Local Abbreviation popped := (popped cfg widening initial).
Local Abbreviation exit_state := (exit_state cfg widening initial).

(** *** When a turn raises *)

Lemma successor_of_Raise (r : gmap Z (list T)) (edge : Edge Stmt)
    (e : exn) :
  successor_of r edge = Raise e ->
  match e with
  | KeyError => r !! identifier (target edge) = None
  | IndexError => r !! identifier (target edge) = Some []
  end.
Proof.
  unfold successor_of, AnalysisResult.get_node_result.
  destruct (r !! identifier (target edge)) as [[|pre rest]|]; simpl;
    intros Hs; by simplify_eq.
Qed.

Lemma join_edges_Raise (r : gmap Z (list T)) (edges : list (Edge Stmt))
    (entry : T) (e : exn) :
  join_edges r edges entry = Raise e ->
  exists edge, edge ∈ edges /\ successor_of r edge = Raise e.
Proof.
  revert entry. induction edges as [|edge edges IH]; intros entry; simpl.
  - discriminate.
  - destruct (successor_of r edge) as [s|e'] eqn:Hs; simpl.
    + intros Hj. destruct (IH _ Hj) as (edge' & Hin & He).
      exists edge'. split; [by right | done].
    + intros [= <-]. exists edge. split; [by left | done].
Qed.

Lemma join_edges_Ok (r : gmap Z (list T)) (edges : list (Edge Stmt))
    (entry : T) :
  (forall edge, edge ∈ edges ->
     exists pre rest, r !! identifier (target edge) = Some (pre :: rest)) ->
  exists v, join_edges r edges entry = Ok v.
Proof.
  revert entry. induction edges as [|edge edges IH]; intros entry Hall.
  - by exists entry.
  - destruct (Hall edge) as (pre & rest & Hr); [by left|].
    simpl. rewrite (successor_of_stored r edge pre rest Hr). simpl.
    apply IH. intros edge' Hin. apply Hall. by right.
Qed.

(** X1. The exit state of a node other than the out node is computed exactly
    when every out-edge leads to a node with a stored, non-empty
    sequence.  Otherwise the turn raises: [KeyError] at an out-edge whose
    target was never stored, [IndexError] at one whose stored sequence is
    empty. *)
Theorem exit_state_completes (r : gmap Z (list T)) (iteration : Z)
    (previous : option T) (current : Node Stmt) :
  identifier current ≠ identifier (out_node cfg) ->
  ((exists v, exit_state r iteration previous current = Ok v) <->
   forall edge, edge ∈ out_edges cfg current ->
     exists pre rest,
       r !! identifier (target edge) = Some (pre :: rest)) /\
  (exit_state r iteration previous current = Raise KeyError ->
   exists edge, edge ∈ out_edges cfg current /\
                r !! identifier (target edge) = None) /\
  (exit_state r iteration previous current = Raise IndexError ->
   exists edge, edge ∈ out_edges cfg current /\
                r !! identifier (target edge) = Some []).
Proof.
  intros Hout. rewrite (exit_state_inner cfg widening initial) by done.
  assert (forall (f : T -> T) e,
    join_edges r (out_edges cfg current) (State.bottom initial)
      ≫= (fun accumulated => Ok (f accumulated)) = Raise e ->
    exists edge, edge ∈ out_edges cfg current /\
                 successor_of r edge = Raise e) as Hraise.
  { intros f e. destruct (join_edges _ _ _) as [acc|e'] eqn:Hj; simpl;
      [discriminate|].
    intros [= ->]. by eapply join_edges_Raise. }
  split; [split|split].
  - intros [v Hv]. apply bind_Ok in Hv as (acc & Hacc & _).
    intros edge Hin. by eapply join_edges_Ok_stored.
  - intros Hall.
    destruct (join_edges_Ok r (out_edges cfg current)
                (State.bottom initial) Hall) as [acc ->].
    simpl. eauto.
  - intros He. destruct (Hraise _ _ He) as (edge & Hin & Hs).
    exists edge. split; [done|]. by apply successor_of_Raise in Hs.
  - intros He. destruct (Hraise _ _ He) as (edge & Hin & Hs).
    exists edge. split; [done|]. by apply successor_of_Raise in Hs.
Qed.

(** *** Empty sequences *)

Lemma states_of_nonempty (current : Node Stmt) (entry : T) :
  states_of current entry ≠ [].
Proof.
  intros Hnil. pose proof (layout_length current entry) as Hlen.
  rewrite <- states_of_layout, Hnil in Hlen.
  unfold Spec.sequence_length in Hlen.
  by destruct (node_cls current).
Qed.

Lemma visit_filled (current : Node Stmt) (rest : list (Node Stmt))
    (its : gmap Z Z) (r : gmap Z (list T)) (s' : loop_state) :
  filled r -> visit current rest its r = Ok s' -> filled (result s').
Proof.
  intros Hr Hv. apply (visit_inv cfg widening initial) in Hv
    as (iteration & previous & entry & _ & _ & _ & ->).
  destruct (changed previous entry); simpl; [|done].
  intros i. destruct (decide (identifier current = i)) as [<-|Hne].
  - rewrite lookup_insert_eq. intros [= Hnil].
    by apply states_of_nonempty in Hnil.
  - rewrite lookup_insert_ne by done. apply Hr.
Qed.

Lemma visit_no_IndexError (current : Node Stmt) (rest : list (Node Stmt))
    (its : gmap Z Z) (r : gmap Z (list T)) :
  filled r -> visit current rest its r ≠ Raise IndexError.
Proof.
  intros Hr. unfold BackwardInterpreter.visit, dict_get.
  destruct (its !! identifier current) as [iteration|]; simpl; [|done].
  unfold previous_of, AnalysisResult.contains,
    AnalysisResult.get_node_result.
  destruct (r !! identifier current) as [states|] eqn:Hcur; simpl.
  - unfold last_item. destruct (last states) as [x|] eqn:Hlast; simpl.
    + destruct (BackwardInterpreter.exit_state cfg widening initial r
                  iteration (Some x) current) as [entry|e] eqn:He; simpl.
      * by destruct (State.less_equal entry x).
      * intros [= ->]. revert He. unfold BackwardInterpreter.exit_state.
        destruct (bool_decide _); [|done].
        destruct (join_edges _ _ _) as [acc|e] eqn:Hj; simpl.
        { by destruct (_ && _). }
        intros [= ->]. apply join_edges_Raise in Hj as (edge & _ & Hs).
        apply successor_of_Raise in Hs. by apply (Hr _) in Hs.
    + apply last_None in Hlast. subst states. by apply (Hr _) in Hcur.
  - destruct (BackwardInterpreter.exit_state cfg widening initial r
                iteration None current) as [entry|e] eqn:He; simpl;
      [done|].
    intros [= ->]. revert He. unfold BackwardInterpreter.exit_state.
    destruct (bool_decide _); [|done].
    destruct (join_edges _ _ _) as [acc|e] eqn:Hj; simpl.
    { by destruct (_ && _). }
    intros [= ->]. apply join_edges_Raise in Hj as (edge & _ & Hs).
    apply successor_of_Raise in Hs. by apply (Hr _) in Hs.
Qed.

(** X2. The engine never stores an empty sequence, and from a store without
    empty sequences (the empty store of a new interpreter, for one) it
    never raises [IndexError]: the subscripts [...[0]] and [...[-1]] are
    safe, only a dictionary lookup can fail. *)
Theorem no_IndexError (n : nat) (s0 : loop_state) :
  filled (result s0) ->
  turns n s0 ≠ Raise IndexError /\
  forall s, turns n s0 = Ok s -> filled (result s).
Proof.
  revert s0. induction n as [|n IH]; intros s0 Hr.
  - simpl. split; [done|]. by intros s [= <-].
  - destruct (worklist s0) as [|current rest] eqn:Hw.
    + rewrite (turns_empty cfg widening initial) by done.
      split; [done|]. by intros s [= <-].
    + rewrite (turns_succ cfg widening initial n _ _ _ Hw).
      rewrite (turn_visit cfg widening initial _ _ _ Hw).
      destruct (visit current rest (iterations s0) (result s0))
        as [s1|e] eqn:Hv; simpl.
      * apply IH. by eapply visit_filled.
      * split; [|done]. intros [= ->].
        by apply (visit_no_IndexError current rest (iterations s0)) in Hr.
Qed.
End Errors.

Section Invariants.
Import BackwardInterpreter Trace Reach.
Context {Stmt T : Type}.
Context `{!State.ops T} `{!BackwardSemantics.ops Stmt T}.
Variable cfg : ControlFlowGraph Stmt.
Variable widening : Z.
Variable initial : T.

Local Abbreviation turn := (turn cfg widening initial).
Local Abbreviation turns := (turns cfg widening initial).
Local Abbreviation visit := (visit cfg widening initial).
Local Abbreviation analyze := (analyze cfg widening initial).
Local Abbreviation popped := (popped cfg widening initial).
Local Abbreviation exit_state := (exit_state cfg widening initial).

(** An induction principle for runs: what holds of the state at the start
    and is kept by every turn that completes holds after the run. *)
Lemma turns_ind (P : loop_state -> Prop) :
  (forall current rest s s',
     worklist s = current :: rest -> P s ->
     visit current rest (iterations s) (result s) = Ok s' -> P s') ->
  forall n s0 s, P s0 -> turns n s0 = Ok s -> P s.
Proof.
  intros Hstep. induction n as [|n IH]; intros s0 s Hinit Hturns.
  - simpl in Hturns. by simplify_eq.
  - destruct (worklist s0) as [|current rest] eqn:Hw.
    + rewrite (turns_empty cfg widening initial) in Hturns by done.
      by simplify_eq.
    + rewrite (turns_succ cfg widening initial n _ _ _ Hw) in Hturns.
      apply bind_Ok in Hturns as (s1 & Hturn & Hturns).
      rewrite (turn_visit cfg widening initial _ _ _ Hw) in Hturn.
      apply (IH s1); [|done]. by eapply Hstep.
Qed.

(** *** The iteration counts *)

(** X3. The dictionary of counts keeps the keys it is built with, the
    identifiers of [cfg.nodes]: a turn only overwrites the count of the
    node it visits, which must be there.  Every count is at least 0 and at
    most the number of passes over its node. *)
Theorem iterations_keys (n : nat) (r0 : gmap Z (list T)) (s : loop_state) :
  turns n (start cfg r0) = Ok s ->
  dom (iterations s) = dom (nodes cfg) /\
  forall i k,
    iterations s !! i = Some k ->
    0 <= k <= Z.of_nat (passes i (popped n (start cfg r0))).
Proof.
  intros Hturns.
  assert (dom (iterations s) = dom (nodes cfg)
          /\ forall i k, iterations s !! i = Some k -> 0 <= k) as [Hd Hk].
  { apply (turns_ind
             (fun s => dom (iterations s) = dom (nodes cfg)
                       /\ forall i k, iterations s !! i = Some k -> 0 <= k)
             ) with (n := n) (s0 := start cfg r0); [| |done].
    - intros current rest s1 s2 _ [Hd Hk] Hv.
      apply (visit_inv cfg widening initial) in Hv
        as (iteration & previous & entry & Hit & _ & _ & ->).
      destruct (changed previous entry); simpl; [|done]. split.
      + rewrite dom_insert_L, <- Hd. apply elem_of_dom_2 in Hit.
        apply subseteq_union_1_L. by apply singleton_subseteq_l.
      + intros i k. destruct (decide (identifier current = i)) as [<-|Hne].
        * rewrite lookup_insert_eq. intros [= <-].
          specialize (Hk _ _ Hit). lia.
        * rewrite lookup_insert_ne by done. apply Hk.
    - simpl. split; [by rewrite dom_fmap_L|].
      intros i k. rewrite lookup_fmap.
      destruct (nodes cfg !! i); simpl; intros [= <-]. lia. }
  split; [done|]. intros i k Hi. split; [by eapply Hk|].
  pose proof (count_le_passes cfg widening initial n _ _ i Hturns) as Hle.
  rewrite count_of_start in Hle. unfold count_of in Hle.
  rewrite Hi in Hle. simpl in Hle. lia.
Qed.

(** *** The nodes a run visits *)

Lemma visit_worklist (current : Node Stmt) (rest : list (Node Stmt))
    (its : gmap Z Z) (r : gmap Z (list T)) (s' : loop_state) :
  visit current rest its r = Ok s' ->
  worklist s' = rest \/ worklist s' = rest ++ predecessors cfg current.
Proof.
  intros Hv. apply (visit_inv cfg widening initial) in Hv
    as (iteration & previous & entry & _ & _ & _ & ->).
  destruct (changed previous entry); simpl; auto.
Qed.

Lemma popped_coreachable_from (n : nat) (s0 : loop_state) :
  Forall (coreachable cfg) (worklist s0) ->
  Forall (coreachable cfg) (popped n s0).
Proof.
  revert s0. induction n as [|n IH]; intros s0 Hw; simpl; [done|].
  destruct (worklist s0) as [|current rest] eqn:Hs0; [done|].
  apply Forall_cons in Hw as [Hcur Hrest].
  apply Forall_cons. split; [done|].
  unfold BackwardInterpreter.turn. rewrite Hs0.
  destruct (visit current rest (iterations s0) (result s0))
    as [s1|e] eqn:Hv; [|done].
  apply IH. apply visit_worklist in Hv as [-> | ->]; [done|].
  apply Forall_app. split; [done|].
  apply Forall_forall. intros p Hp. by eapply coreachable_pred.
Qed.

(** X4. The queue only ever hands out the out node and predecessors of nodes
    it handed out before: a node from which the out node cannot be reached
    is never visited. *)
Theorem popped_coreachable (n : nat) (r0 : gmap Z (list T))
    (node : Node Stmt) :
  node ∈ popped n (start cfg r0) ->
  coreachable cfg node.
Proof.
  intros Hin.
  assert (Forall (coreachable cfg) (popped n (start cfg r0))) as Hall.
  { apply popped_coreachable_from. simpl.
    apply Forall_cons. split; [constructor | done]. }
  by eapply Forall_forall in Hall.
Qed.

(** *** Counts and the store *)

(** X5. For a node the store did not hold when [analyze] was called: it has a
    stored sequence exactly when its count is positive. *)
Theorem stored_iff_counted (n : nat) (r0 : gmap Z (list T))
    (s : loop_state) (i : Z) :
  turns n (start cfg r0) = Ok s ->
  r0 !! i = None ->
  is_Some (result s !! i) <-> 0 < count_of (iterations s) i.
Proof.
  intros Hturns Hnone.
  apply (turns_ind
           (fun s => 0 <= count_of (iterations s) i /\
                     (is_Some (result s !! i)
                      <-> 0 < count_of (iterations s) i)))
    with (n := n) (s0 := start cfg r0); [| |done].
  - intros current rest s1 s2 _ [Hge Hiff] Hv.
    apply (visit_inv cfg widening initial) in Hv
      as (iteration & previous & entry & Hit & _ & _ & ->).
    destruct (changed previous entry); simpl; [|done].
    unfold count_of in *.
    destruct (decide (identifier current = i)) as [<-|Hne].
    + rewrite !lookup_insert_eq. rewrite Hit in Hge. simpl in *.
      split; [lia|]. split; [lia | eauto].
    + by rewrite !lookup_insert_ne.
  - rewrite count_of_start. simpl. rewrite Hnone. split; [lia|].
    split; [intros [? ?]; discriminate | lia].
Qed.

(** *** The result of the out node *)

(** X6. On a graph in which no other node carries the identifier of the out
    node, and from a store without a result for it: after the first turn
    and for the rest of the run, the sequence of the out node is the
    backward semantics of its statements from the initial state, entry 0
    first and the initial state last. *)
Theorem out_node_result (n : nat) (r0 : gmap Z (list T)) (s : loop_state) :
  (forall node p,
     p ∈ predecessors cfg node ->
     identifier p = identifier (out_node cfg) -> p = out_node cfg) ->
  r0 !! identifier (out_node cfg) = None ->
  (0 < n)%nat ->
  turns n (start cfg r0) = Ok s ->
  result s !! identifier (out_node cfg)
  = Some (Spec.layout (out_node cfg) initial).
Proof.
  intros Hunique Hnone Hn Hturns.
  destruct n as [|n]; [lia|].
  rewrite (turns_succ cfg widening initial n (start cfg r0)
             (out_node cfg) [] eq_refl) in Hturns.
  apply bind_Ok in Hturns as (s1 & Hturn & Hturns).
  rewrite (turn_visit cfg widening initial (start cfg r0)
             (out_node cfg) [] eq_refl) in Hturn.
  set (K := fun s : loop_state =>
    result s !! identifier (out_node cfg)
    = Some (Spec.layout (out_node cfg) initial) /\
    forall x, x ∈ worklist s ->
      identifier x = identifier (out_node cfg) -> x = out_node cfg).
  assert (K s) as [HK _]; [|done].
  apply (turns_ind K) with (n := n) (s0 := s1); [| |done].
  - intros current rest s2 s3 Hw [Hres Hwl] Hv.
    assert (forall x, x ∈ rest ++ predecessors cfg current ->
              identifier x = identifier (out_node cfg) ->
              x = out_node cfg) as Hwl'.
    { intros x [Hx|Hx]%elem_of_app Hid.
      - apply Hwl; [|done]. rewrite Hw. by right.
      - by eapply Hunique. }
    apply (visit_inv cfg widening initial) in Hv
      as (iteration & previous & entry & _ & _ & Hentry & ->).
    destruct (changed previous entry); simpl.
    + split; [simpl|done].
      destruct (decide (identifier current = identifier (out_node cfg)))
        as [Hid|Hne].
      * assert (current = out_node cfg) as ->
          by (apply Hwl; [rewrite Hw; by left | done]).
        rewrite (exit_state_out cfg widening initial) in Hentry by done.
        injection Hentry as <-.
        by rewrite lookup_insert_eq, states_of_layout.
      * by rewrite lookup_insert_ne.
    + split; [done|]. intros x Hx. apply Hwl. rewrite Hw. by right.
  - apply (first_visit_stores cfg widening initial) in Hturn
      as (iteration & entry & _ & Hentry & Hres & Hwl & _).
    + rewrite (exit_state_out cfg widening initial) in Hentry by done.
      injection Hentry as <-. split.
      * by rewrite Hres, lookup_insert_eq, states_of_layout.
      * rewrite Hwl. simpl. intros x Hx. by eapply Hunique.
    + unfold previous_of, AnalysisResult.contains. simpl.
      rewrite Hnone. by rewrite bool_decide_false by (by intros [? ?]).
Qed.
End Invariants.

Section Progress.
Import BackwardInterpreter Trace Reach.
Context {Stmt T : Type}.
Context `{!State.ops T} `{!BackwardSemantics.ops Stmt T}.
Variable cfg : ControlFlowGraph Stmt.
Variable widening : Z.
Variable initial : T.

Local Abbreviation turn := (turn cfg widening initial).
Local Abbreviation turns := (turns cfg widening initial).
Local Abbreviation visit := (visit cfg widening initial).
Local Abbreviation analyze := (analyze cfg widening initial).
Local Abbreviation popped := (popped cfg widening initial).
Local Abbreviation exit_state := (exit_state cfg widening initial).

(** *** Runs in two parts *)

Lemma turns_add (n m : nat) (s : loop_state) :
  turns (n + m) s = s' ← turns n s; turns m s'.
Proof.
  revert s. induction n as [|n IH]; intros s; [done|].
  destruct (worklist s) as [|current rest] eqn:Hw.
  - rewrite (turns_empty cfg widening initial (S n + m) s Hw).
    rewrite (turns_empty cfg widening initial (S n) s Hw). simpl.
    by rewrite (turns_empty cfg widening initial m s Hw).
  - change (S n + m)%nat with (S (n + m)).
    rewrite (turns_succ cfg widening initial (n + m) _ _ _ Hw).
    rewrite (turns_succ cfg widening initial n _ _ _ Hw).
    destruct (turn s) as [s1|e]; simpl; [apply IH | done].
Qed.

(** *** What stays stored *)

Lemma previous_of_Some (r : gmap Z (list T)) (current : Node Stmt)
    (x : T) :
  previous_of r current = Ok (Some x) ->
  r !! identifier current ≫= last = Some x.
Proof.
  unfold previous_of, AnalysisResult.contains,
    AnalysisResult.get_node_result.
  destruct (r !! identifier current) as [states|] eqn:Hr; simpl.
  - unfold last_item. destruct (last states); simpl; congruence.
  - discriminate.
Qed.

Lemma visit_stores_current (current : Node Stmt) (rest : list (Node Stmt))
    (its : gmap Z Z) (r : gmap Z (list T)) (s' : loop_state) :
  visit current rest its r = Ok s' ->
  is_Some (result s' !! identifier current).
Proof.
  intros Hv. apply (visit_inv cfg widening initial) in Hv
    as (iteration & previous & entry & _ & Hprev & _ & ->).
  destruct previous as [x|]; simpl.
  - apply previous_of_Some in Hprev.
    destruct (negb (State.less_equal entry x)); simpl.
    + rewrite lookup_insert_eq. eauto.
    + destruct (r !! identifier current); [eauto | discriminate].
  - rewrite lookup_insert_eq. eauto.
Qed.

Lemma visit_keeps (current : Node Stmt) (rest : list (Node Stmt))
    (its : gmap Z Z) (r : gmap Z (list T)) (s' : loop_state) (i : Z) :
  visit current rest its r = Ok s' ->
  is_Some (r !! i) -> is_Some (result s' !! i).
Proof.
  intros Hv Hi. apply (visit_inv cfg widening initial) in Hv
    as (iteration & previous & entry & _ & _ & _ & ->).
  destruct (changed previous entry); simpl; [|done].
  destruct (decide (identifier current = i)) as [<-|Hne].
  - rewrite lookup_insert_eq. eauto.
  - by rewrite lookup_insert_ne.
Qed.

(** *** The queue is served in order *)

(** A queued node gets its turn: unless the run raises first, the queue
    hands it out and its turn leaves a sequence stored for it. *)
Lemma queued_stored (k : nat) (s : loop_state) (x : Node Stmt) :
  worklist s !! k = Some x ->
  exists m,
    match turns m s with
    | Raise _ => True
    | Ok s' => is_Some (result s' !! identifier x)
    end.
Proof.
  revert s. induction k as [|k IH]; intros s Hk;
    destruct (worklist s) as [|y rest] eqn:Hw; simplify_eq/=.
  - exists 1%nat.
    rewrite (turns_succ cfg widening initial 0 _ _ _ Hw),
      (turn_visit cfg widening initial _ _ _ Hw).
    destruct (visit x rest (iterations s) (result s)) as [s1|e] eqn:Hv;
      simpl; [|done].
    by eapply visit_stores_current.
  - destruct (visit y rest (iterations s) (result s)) as [s1|e] eqn:Hv.
    + assert (worklist s1 !! k = Some x) as Hk1.
      { apply (visit_worklist cfg widening initial) in Hv as [-> | ->];
          [done|]. by apply lookup_app_l_Some. }
      destruct (IH s1 Hk1) as [m Hm]. exists (S m).
      by rewrite (turns_succ cfg widening initial m _ _ _ Hw),
        (turn_visit cfg widening initial _ _ _ Hw), Hv.
    + exists 1%nat.
      by rewrite (turns_succ cfg widening initial 0 _ _ _ Hw),
        (turn_visit cfg widening initial _ _ _ Hw), Hv.
Qed.

(** *** Nodes of the graph *)

Lemma is_node_inj (a b : Node Stmt) :
  is_node cfg a -> is_node cfg b -> identifier a = identifier b -> a = b.
Proof. unfold is_node. intros Ha Hb Hid. congruence. Qed.

Lemma coreachable_is_node (n : Node Stmt) :
  well_formed cfg -> coreachable cfg n -> is_node cfg n.
Proof.
  intros [Hout Hpred] Hn. destruct Hn as [|n p _ Hp]; [done|].
  by eapply Hpred.
Qed.

(** In a run of a new interpreter, the predecessors of a node with a
    stored sequence are stored themselves or wait in the queue. *)
Lemma pending_or_stored (n : nat) (s : loop_state) :
  well_formed cfg ->
  turns n (start cfg ∅) = Ok s ->
  Forall (is_node cfg) (worklist s) /\
  forall node p,
    is_node cfg node -> is_Some (result s !! identifier node) ->
    p ∈ predecessors cfg node ->
    p ∈ worklist s \/ is_Some (result s !! identifier p).
Proof.
  intros Hwf Hturns.
  apply (turns_ind cfg widening initial
           (fun s =>
              Forall (is_node cfg) (worklist s) /\
              forall node p,
                is_node cfg node -> is_Some (result s !! identifier node) ->
                p ∈ predecessors cfg node ->
                p ∈ worklist s \/ is_Some (result s !! identifier p)))
    with (n := n) (s0 := start cfg ∅); [| |done].
  - intros current rest s1 s2 Hw [Hnodes Hinv] Hv.
    rewrite Hw in Hnodes. apply Forall_cons in Hnodes as [Hcur Hrest].
    pose proof (visit_stores_current _ _ _ _ _ Hv) as Hstored.
    pose proof (fun i => visit_keeps _ _ _ _ _ i Hv) as Hkeeps.
    apply (visit_inv cfg widening initial) in Hv
      as (iteration & previous & entry & _ & _ & _ & ->).
    destruct (changed previous entry); simpl in *.
    + split.
      { apply Forall_app. split; [done|].
        apply Forall_forall. intros p Hp. by eapply (proj2 Hwf). }
      intros node p Hnode Hs Hp.
      destruct (decide (identifier current = identifier node)) as [Hid|Hne].
      * assert (current = node) as <- by by apply is_node_inj.
        left. apply elem_of_app. by right.
      * rewrite lookup_insert_ne in Hs by done.
        destruct (Hinv node p Hnode Hs Hp) as [Hin|Hps].
        -- rewrite Hw in Hin. apply elem_of_cons in Hin as [->|Hin].
           ++ by right.
           ++ left. apply elem_of_app. by left.
        -- right. by apply Hkeeps.
    + split; [done|]. intros node p Hnode Hs Hp.
      destruct (Hinv node p Hnode Hs Hp) as [Hin|Hps]; [|by right].
      rewrite Hw in Hin. apply elem_of_cons in Hin as [->|Hin];
        [by right | by left].
  - simpl. split.
    + apply Forall_cons. split; [apply Hwf | done].
    + intros node p _ [x Hx]. by rewrite lookup_empty in Hx.
Qed.

(** Unless the run raises first, every node from which the out node can
    be reached gets a sequence stored. *)
Lemma coreachable_stored (node : Node Stmt) :
  well_formed cfg ->
  coreachable cfg node ->
  exists m,
    match turns m (start cfg ∅) with
    | Raise _ => True
    | Ok s => is_Some (result s !! identifier node)
    end.
Proof.
  intros Hwf Hnode. induction Hnode as [|node p Hnode [m IH] Hp].
  - by apply (queued_stored 0).
  - destruct (turns m (start cfg ∅)) as [s|e] eqn:Hturns.
    + destruct (pending_or_stored m s Hwf Hturns) as [_ Hinv].
      destruct (Hinv node p) as [Hin|Hs];
        [by apply coreachable_is_node | done | done | |].
      * apply list_elem_of_lookup in Hin as [k Hk].
        destruct (queued_stored k s p Hk) as [m' Hm'].
        exists (m + m')%nat. by rewrite turns_add, Hturns.
      * exists m. by rewrite Hturns.
    + exists m. by rewrite Hturns.
Qed.

Lemma turns_raise_KeyError (n : nat) (s0 : loop_state) (e : exn) :
  filled (result s0) -> turns n s0 = Raise e -> e = KeyError.
Proof.
  revert s0. induction n as [|n IH]; intros s0 Hr Hturns; [done|].
  destruct (worklist s0) as [|current rest] eqn:Hw.
  - by rewrite (turns_empty cfg widening initial) in Hturns.
  - rewrite (turns_succ cfg widening initial n _ _ _ Hw),
      (turn_visit cfg widening initial _ _ _ Hw) in Hturns.
    destruct (visit current rest (iterations s0) (result s0))
      as [s1|e1] eqn:Hv; simpl in Hturns.
    + apply (IH s1); [|done]. by eapply visit_filled.
    + simplify_eq. destruct e; [done|].
      by apply (visit_no_IndexError cfg widening initial current rest
                  (iterations s0)) in Hr.
Qed.

(** *** Cycles *)

(** X7. A new interpreter cannot analyse a graph with a cycle from which the
    out node can be reached: given enough turns, [analyze] raises
    [KeyError].  The cycle is given as a trap, a set of nodes each with a
    successor in the set, one of which leads to the out node. *)
Theorem cycle_raises_KeyError (C : gset Z) (p : Node Stmt) :
  well_formed cfg ->
  trap cfg C ->
  coreachable cfg p ->
  identifier p ∈ C ->
  exists fuel,
    forall fuel', (fuel <= fuel')%nat ->
      analyze fuel' ∅ = Some (Raise KeyError).
Proof.
  intros Hwf Htrap Hp HC.
  destruct (coreachable_stored p Hwf Hp) as [m Hm].
  exists m. intros fuel' Hle. unfold BackwardInterpreter.analyze.
  destruct (turns m (start cfg ∅)) as [s|e] eqn:Hturns.
  - destruct Hm as [x Hx].
    rewrite (cycle_never_stored cfg widening initial C m _ _ Htrap
               (fun i _ => lookup_empty i) Hturns _ HC) in Hx.
    discriminate.
  - assert (e = KeyError) as ->.
    { apply (turns_raise_KeyError m (start cfg ∅)); [|done].
      intros i. simpl. by rewrite lookup_empty. }
    by rewrite (turns_raised cfg widening initial _ _ _ _ Hturns Hle).
Qed.

(** *** Graphs without cycles *)

Lemma weight_app (B : nat) (rank : Node Stmt -> nat)
    (l1 l2 : list (Node Stmt)) :
  weight B rank (l1 ++ l2) = (weight B rank l1 + weight B rank l2)%nat.
Proof.
  unfold weight. induction l1 as [|x l1 IH]; simpl; [done|].
  rewrite IH. lia.
Qed.

Lemma weight_below (B : nat) (rank : Node Stmt -> nat) (k : nat)
    (l : list (Node Stmt)) :
  Forall (fun p => (rank p < k)%nat) l ->
  (length l <= B)%nat ->
  (weight B rank l < (B + 1) ^ k)%nat.
Proof.
  intros Hall Hlen. destruct k as [|k].
  - destruct l as [|p l]; simpl; [lia|].
    apply Forall_cons in Hall as [Hp _]. lia.
  - assert (weight B rank l <= length l * (B + 1) ^ k)%nat as Hle.
    { clear Hlen. induction l as [|p l IH]; simpl; [lia|].
      apply Forall_cons in Hall as [Hp Hall]. specialize (IH Hall).
      assert ((B + 1) ^ rank p <= (B + 1) ^ k)%nat
        by (apply Nat.pow_le_mono_r; lia).
      lia. }
    assert (0 < (B + 1) ^ k)%nat
      by (pose proof (Nat.pow_nonzero (B + 1) k); lia).
    rewrite Nat.pow_succ_r'. nia.
Qed.

Lemma turns_drain (B : nat) (rank : Node Stmt -> nat) (n : nat)
    (s : loop_state) :
  (forall node p, coreachable cfg node -> p ∈ predecessors cfg node ->
     (rank p < rank node)%nat) ->
  (forall node, coreachable cfg node ->
     (length (predecessors cfg node) <= B)%nat) ->
  Forall (coreachable cfg) (worklist s) ->
  (weight B rank (worklist s) <= n)%nat ->
  match turns n s with
  | Ok s' => worklist s' = []
  | Raise _ => True
  end.
Proof.
  intros Hrank Hdeg. revert s. induction n as [|n IH]; intros s Hco Hn.
  - simpl. destruct (worklist s) as [|current rest]; [done|].
    simpl in Hn. pose proof (Nat.pow_nonzero (B + 1) (rank current)). lia.
  - destruct (worklist s) as [|current rest] eqn:Hw.
    + by rewrite (turns_empty cfg widening initial).
    + rewrite (turns_succ cfg widening initial n _ _ _ Hw),
        (turn_visit cfg widening initial _ _ _ Hw).
      apply Forall_cons in Hco as [Hcur Hrest].
      destruct (visit current rest (iterations s) (result s))
        as [s1|e] eqn:Hv; simpl; [|done].
      simpl in Hn.
      assert (0 < (B + 1) ^ rank current)%nat
        by (pose proof (Nat.pow_nonzero (B + 1) (rank current)); lia).
      assert (weight B rank (predecessors cfg current)
              < (B + 1) ^ rank current)%nat as Hpreds.
      { apply weight_below; [|by apply Hdeg].
        apply Forall_forall. intros p Hp. by apply (Hrank current). }
      apply IH.
      * apply (visit_worklist cfg widening initial) in Hv as [-> | ->];
          [done|].
        apply Forall_app. split; [done|].
        apply Forall_forall. intros p Hp. by eapply coreachable_pred.
      * apply (visit_worklist cfg widening initial) in Hv as [-> | ->].
        -- fold (weight B rank rest) in Hn. lia.
        -- rewrite weight_app. fold (weight B rank rest) in Hn. lia.
Qed.

(** X8. On a graph without cycles the loop ends.  With a rank that decreases
    from every node to its predecessors and at most [B] predecessors per
    node, [analyze] returns or raises within [(B + 1) ^ rank out_node]
    turns, whatever the domain and the store it starts from. *)
Theorem analyze_ends_on_ranked (B : nat) (rank : Node Stmt -> nat)
    (r : gmap Z (list T)) :
  (forall node p, coreachable cfg node -> p ∈ predecessors cfg node ->
     (rank p < rank node)%nat) ->
  (forall node, coreachable cfg node ->
     (length (predecessors cfg node) <= B)%nat) ->
  exists outcome,
    analyze ((B + 1) ^ rank (out_node cfg)) r = Some outcome.
Proof.
  intros Hrank Hdeg. unfold BackwardInterpreter.analyze.
  pose proof (turns_drain B rank ((B + 1) ^ rank (out_node cfg))
                (start cfg r) Hrank Hdeg) as Hdrain.
  destruct (turns _ (start cfg r)) as [s|e]; [|by eexists].
  rewrite Hdrain; [by eexists | |].
  - apply Forall_cons. split; [constructor | done].
  - simpl. lia.
Qed.
End Progress.

Section Threshold.
Import BackwardInterpreter Trace Reach.
Context {Stmt T : Type}.
Context `{!State.ops T} `{!BackwardSemantics.ops Stmt T}.
Variable cfg : ControlFlowGraph Stmt.
Variable initial : T.

Lemma visit_threshold (w1 w2 : Z) (current : Node Stmt)
    (rest : list (Node Stmt)) (its : gmap Z Z) (r : gmap Z (list T)) :
  is_Loop current = false ->
  visit cfg w1 initial current rest its r
  = visit cfg w2 initial current rest its r.
Proof.
  intros Hloop. unfold visit, exit_state. by rewrite Hloop.
Qed.

Lemma turns_threshold (w1 w2 : Z) (n : nat) (s : loop_state) :
  (forall node, coreachable cfg node -> is_Loop node = false) ->
  Forall (coreachable cfg) (worklist s) ->
  turns cfg w1 initial n s = turns cfg w2 initial n s.
Proof.
  intros Hloops. revert s. induction n as [|n IH]; intros s Hco; [done|].
  destruct (worklist s) as [|current rest] eqn:Hw.
  - by rewrite !turns_empty.
  - rewrite !(turns_succ _ _ _ n _ _ _ Hw), !(turn_visit _ _ _ _ _ _ Hw).
    apply Forall_cons in Hco as [Hcur Hrest].
    rewrite (visit_threshold w1 w2) by by apply Hloops.
    destruct (visit cfg w2 initial current rest (iterations s) (result s))
      as [s1|e] eqn:Hv; simpl; [|done].
    apply IH.
    apply visit_worklist in Hv as [-> | ->]; [done|].
    apply Forall_app. split; [done|].
    apply Forall_forall. intros p Hp. by eapply coreachable_pred.
Qed.

(** X9. The widening threshold plays no part on a graph none of whose nodes
    that lead to the out node is a loop head: widening is applied to
    [Loop] nodes only, so two interpreters that differ in the threshold
    alone give the same outcome. *)
Theorem threshold_unused_without_loops (w1 w2 : Z) (fuel : nat)
    (r : gmap Z (list T)) :
  (forall node, coreachable cfg node -> is_Loop node = false) ->
  analyze cfg w1 initial fuel r = analyze cfg w2 initial fuel r.
Proof.
  intros Hloops. unfold analyze.
  rewrite (turns_threshold w1 w2 fuel (start cfg r) Hloops); [done|].
  apply Forall_cons. split; [constructor | done].
Qed.
End Threshold.

Section AtReturn.
Import BackwardInterpreter Trace Reach.
Context {Stmt T : Type}.
Context `{!State.ops T} `{!BackwardSemantics.ops Stmt T}.
Variable cfg : ControlFlowGraph Stmt.
Variable widening : Z.
Variable initial : T.

Local Abbreviation turn := (turn cfg widening initial).
Local Abbreviation turns := (turns cfg widening initial).
Local Abbreviation visit := (visit cfg widening initial).
Local Abbreviation analyze := (analyze cfg widening initial).
Local Abbreviation exit_state := (exit_state cfg widening initial).
Local Abbreviation settled := (settled cfg initial).

(** The join over the out-edges reads the store at the targets only. *)
Lemma join_edges_agree (r r' : gmap Z (list T)) (edges : list (Edge Stmt))
    (entry : T) :
  Forall (fun edge => r' !! identifier (target edge)
                      = r !! identifier (target edge)) edges ->
  join_edges r' edges entry = join_edges r edges entry.
Proof.
  revert entry. induction edges as [|edge edges IH]; intros entry Hall;
    [done|].
  apply Forall_cons in Hall as [Hedge Hall]. simpl.
  unfold successor_of, AnalysisResult.get_node_result. rewrite Hedge.
  destruct (stored (r !! identifier (target edge)) ≫= first_item)
    as [successor|e] eqn:Hs.
  - apply bind_Ok in Hs as (states & -> & Hfirst). simpl.
    rewrite Hfirst. simpl. by apply IH.
  - destruct (stored (r !! identifier (target edge))) as [states|e'];
      simpl in *; [by rewrite Hs | done].
Qed.

Lemma settled_agree (r r' : gmap Z (list T)) (node : Node Stmt) :
  r' !! identifier node = r !! identifier node ->
  Forall (fun edge => r' !! identifier (target edge)
                      = r !! identifier (target edge))
         (out_edges cfg node) ->
  settled r node -> settled r' node.
Proof.
  intros Hnode Hedges (joined & x & Hj & Hx & Hcases).
  exists joined, x. by rewrite (join_edges_agree r r'), Hnode.
Qed.

Lemma last_states_of (node : Node Stmt) (entry : T) :
  last (states_of node entry) = Some entry.
Proof. rewrite states_of_layout. apply layout_last. Qed.

(** The state computed for a node other than the out node. *)
Lemma exit_state_cases (r : gmap Z (list T)) (iteration : Z)
    (previous : option T) (current : Node Stmt) (entry : T) :
  identifier current ≠ identifier (out_node cfg) ->
  exit_state r iteration previous current = Ok entry ->
  exists joined,
    join_edges r (out_edges cfg current) (State.bottom initial)
    = Ok joined /\
    (entry = joined \/
     (is_Loop current = true /\
      entry = State.widening (previous_or_bottom initial previous) joined)).
Proof.
  intros Hout. unfold BackwardInterpreter.exit_state.
  rewrite bool_decide_true by done.
  destruct (join_edges _ _ _) as [joined|e]; simpl; [|done].
  intros Hentry. exists joined. split; [done|].
  destruct (is_Loop current); simpl in Hentry; [|left; congruence].
  destruct (bool_decide (widening < iteration));
    [right | left]; split || idtac; congruence.
Qed.

(** In a run of a new interpreter, a node with a stored sequence waits in
    the queue or is settled. *)
Lemma settled_or_pending (n : nat) (s : loop_state) :
  well_formed cfg ->
  consistent cfg ->
  turns n (start cfg ∅) = Ok s ->
  Forall (is_node cfg) (worklist s) /\
  forall node,
    is_node cfg node ->
    identifier node ≠ identifier (out_node cfg) ->
    is_Some (result s !! identifier node) ->
    node ∈ worklist s \/ settled (result s) node.
Proof.
  intros Hwf Hcons Hturns.
  apply (turns_ind cfg widening initial
           (fun s =>
              Forall (is_node cfg) (worklist s) /\
              forall node,
                is_node cfg node ->
                identifier node ≠ identifier (out_node cfg) ->
                is_Some (result s !! identifier node) ->
                node ∈ worklist s \/ settled (result s) node))
    with (n := n) (s0 := start cfg ∅); [| |done].
  - intros current rest s1 s2 Hw [Hnodes Hinv] Hv.
    rewrite Hw in Hnodes. apply Forall_cons in Hnodes as [Hcur Hrest].
    apply (visit_inv cfg widening initial) in Hv
      as (iteration & previous & entry & _ & Hprev & Hentry & ->).
    destruct (changed previous entry) eqn:Hch; simpl.
    + (* a new sequence replaces the stored one *)
      split.
      { apply Forall_app. split; [done|].
        apply Forall_forall. intros p Hp. by eapply (proj2 Hwf). }
      intros node Hnode Hout Hs.
      destruct (decide (Exists (fun edge => identifier (target edge)
                                            = identifier current)
                          (out_edges cfg node))) as [Hex|Hnex].
      { apply Exists_exists in Hex as (edge & Hedge & Hid).
        destruct (Hcons node edge Hnode Hedge) as [Htarget Hpred].
        assert (target edge = current) as <-
          by by apply (is_node_inj cfg).
        left. apply elem_of_app. by right. }
      apply Forall_Exists_neg in Hnex.
      assert (Forall (fun edge =>
                <[identifier current := states_of current entry]>
                  (result s1) !! identifier (target edge)
                = result s1 !! identifier (target edge))
                (out_edges cfg node)) as Hagree.
      { eapply Forall_impl; [exact Hnex|]. simpl. intros edge Hne.
        by rewrite lookup_insert_ne. }
      destruct (decide (identifier current = identifier node)) as [Hid|Hne].
      * assert (current = node) as -> by by apply (is_node_inj cfg).
        right. apply exit_state_cases in Hentry as (joined & Hj & Hcases);
          [|done].
        exists joined, entry.
        rewrite (join_edges_agree (result s1)) by done.
        split; [done|]. rewrite lookup_insert_eq. simpl.
        split; [apply last_states_of|].
        destruct Hcases as [->|[Hloop ->]]; [by left|].
        right; right. split; [done|]. left. by eexists.
      * rewrite lookup_insert_ne in Hs by done.
        destruct (Hinv node Hnode Hout Hs) as [Hin|Hset].
        -- rewrite Hw in Hin. apply elem_of_cons in Hin as [->|Hin];
             [done|]. left. apply elem_of_app. by left.
        -- right. eapply settled_agree; [|done..].
           by rewrite lookup_insert_ne.
    + (* the check of line 67 fails: nothing changes *)
      destruct previous as [x0|]; [|done].
      simpl in Hch. apply negb_false_iff in Hch.
      split; [done|]. intros node Hnode Hout Hs.
      destruct (Hinv node Hnode Hout Hs) as [Hin|Hset]; [|by right].
      rewrite Hw in Hin. apply elem_of_cons in Hin as [->|Hin];
        [|by left].
      right. apply previous_of_Some in Hprev.
      apply exit_state_cases in Hentry as (joined & Hj & Hcases);
        [|done].
      exists joined, x0. split; [done|]. split; [done|].
      destruct Hcases as [->|[Hloop ->]]; [by right; left|].
      right; right. split; [done|]. by right.
  - simpl. split.
    + apply Forall_cons. split; [apply Hwf | done].
    + intros node _ _ [x Hx]. by rewrite lookup_empty in Hx.
Qed.

(** X10. What [analyze] returns is a fixpoint of the engine's own check.
    On a graph whose [out_edges] and [predecessors] agree, when a new
    interpreter returns a store, every node in it other than the out node
    is settled: its exit state is the join over its out-edges taken on
    the returned store (a widening with that join for a loop head), or
    the engine found the state it computes from that join [less_equal]
    to it, that state being the join or, for a loop head, the widening of
    line 64 with the stored exit state as [previous]. *)
Theorem analyze_result_settled (fuel : nat) (r : gmap Z (list T))
    (node : Node Stmt) :
  well_formed cfg ->
  consistent cfg ->
  analyze fuel ∅ = Some (Ok r) ->
  is_node cfg node ->
  identifier node ≠ identifier (out_node cfg) ->
  is_Some (r !! identifier node) ->
  settled r node.
Proof.
  intros Hwf Hcons Han Hnode Hout Hs.
  unfold BackwardInterpreter.analyze in Han.
  destruct (turns fuel (start cfg ∅)) as [s|e] eqn:Hturns; [|done].
  destruct (worklist s) as [|? ?] eqn:Hw; [|done].
  injection Han as <-.
  destruct (settled_or_pending fuel s Hwf Hcons Hturns) as [_ Hinv].
  destruct (Hinv node Hnode Hout Hs) as [Hin|Hset]; [|done].
  rewrite Hw in Hin. by apply elem_of_nil in Hin.
Qed.
(** In a run of a new interpreter the out node waits in the queue or is
    stored, and whatever is queued or stored leads to the out node. *)
Lemma stored_coreachable (n : nat) (s : loop_state) :
  turns n (start cfg ∅) = Ok s ->
  (out_node cfg ∈ worklist s
   \/ is_Some (result s !! identifier (out_node cfg))) /\
  Forall (coreachable cfg) (worklist s) /\
  forall i, is_Some (result s !! i) ->
    exists node, coreachable cfg node /\ identifier node = i.
Proof.
  intros Hturns.
  apply (turns_ind cfg widening initial
           (fun s =>
              (out_node cfg ∈ worklist s
               \/ is_Some (result s !! identifier (out_node cfg))) /\
              Forall (coreachable cfg) (worklist s) /\
              forall i, is_Some (result s !! i) ->
                exists node, coreachable cfg node /\ identifier node = i))
    with (n := n) (s0 := start cfg ∅); [| |done].
  - intros current rest s1 s2 Hw (Hout & Hco & Hkeys) Hv.
    rewrite Hw in Hco. apply Forall_cons in Hco as [Hcur Hrest].
    pose proof (visit_stores_current cfg widening initial _ _ _ _ _ Hv)
      as Hstored.
    pose proof (fun i => visit_keeps cfg widening initial _ _ _ _ _ i Hv)
      as Hkeeps.
    split; [|split].
    + destruct Hout as [Hin|Hs]; [|right; by apply Hkeeps].
      rewrite Hw in Hin. apply elem_of_cons in Hin as [->|Hin];
        [by right|].
      left. apply (visit_worklist cfg widening initial) in Hv
        as [-> | ->]; [done|]. apply elem_of_app. by left.
    + apply (visit_worklist cfg widening initial) in Hv as [-> | ->];
        [done|]. apply Forall_app. split; [done|].
      apply Forall_forall. intros p Hp. by eapply coreachable_pred.
    + apply (visit_inv cfg widening initial) in Hv
        as (iteration & previous & entry & _ & _ & _ & ->).
      intros i. destruct (changed previous entry); simpl; [|apply Hkeys].
      destruct (decide (identifier current = i)) as [<-|Hne].
      * intros _. by exists current.
      * rewrite lookup_insert_ne by done. apply Hkeys.
  - simpl. split; [left; by left|]. split.
    + apply Forall_cons. split; [constructor | done].
    + intros i [x Hx]. by rewrite lookup_empty in Hx.
Qed.

(** X11. The store a new interpreter returns holds a sequence for exactly the
    nodes from which the out node can be reached along the edges. *)
Theorem analyze_result_keys (fuel : nat) (r : gmap Z (list T)) (i : Z) :
  well_formed cfg ->
  analyze fuel ∅ = Some (Ok r) ->
  is_Some (r !! i) <->
  exists node, coreachable cfg node /\ identifier node = i.
Proof.
  intros Hwf Han. unfold BackwardInterpreter.analyze in Han.
  destruct (turns fuel (start cfg ∅)) as [s|e] eqn:Hturns; [|done].
  destruct (worklist s) as [|? ?] eqn:Hw; [|done].
  injection Han as <-.
  destruct (stored_coreachable fuel s Hturns) as (Hout & _ & Hkeys).
  split; [apply Hkeys|]. intros (node & Hnode & <-).
  induction Hnode as [|node p Hnode IH Hp].
  - destruct Hout as [Hin|Hs]; [|done].
    rewrite Hw in Hin. by apply elem_of_nil in Hin.
  - destruct (pending_or_stored cfg widening initial fuel s Hwf Hturns)
      as [_ Hinv].
    destruct (Hinv node p) as [Hin|Hs];
      [by apply coreachable_is_node | done | done | | done].
    rewrite Hw in Hin. by apply elem_of_nil in Hin.
Qed.
End AtReturn.

(** ** The objects a run stores *)

Section Fresh.
Import Heap.
Context {Stmt V : Type}.
Context {D : Heap.ops V Stmt}.
Hypothesis domain_lawful : Heap.lawful D.

Variable cfg : ControlFlowGraph Stmt.
Variable threshold : Z.
Variable initial : nat.
(** The first reference not yet in use when [analyze] is called. *)
Variable base : nat.

Local Abbreviation fresh := (fun y : nat => (base <= y)%nat).
Local Abbreviation fresh_opt :=
  (fun o : option nat => forall p, o = Some p -> (base <= p)%nat).
(** The store [r'] holds what [r] holds, or new objects. *)
Local Abbreviation renewed := (fun r r' : gmap Z (list nat) =>
  forall i, r' !! i = r !! i \/
            exists states, r' !! i = Some states /\ Forall fresh states).

Lemma fresh_walk_rev (stmts : list Stmt) (successor : nat)
    (states : list nat) :
  (base <= successor)%nat -> Forall fresh states ->
  framed base (walk_rev (V:=V) stmts successor states) (Forall fresh).
Proof.
  revert successor states.
  induction stmts as [|stmt stmts IH]; intros successor states Hs Hall.
  - by apply (framed_ret base).
  - simpl.
    eapply (framed_bind base); [apply (framed_deepcopy base)|].
    intros c Hc.
    eapply (framed_bind base).
    { apply (framed_local1 base); [apply domain_lawful | done]. }
    intros s Hs'. apply IH; [done|]. by apply Forall_cons.
Qed.

Lemma fresh_states_of (current : Node Stmt) (entry : nat) :
  (base <= entry)%nat ->
  framed base (states_of (V:=V) current entry) (Forall fresh).
Proof.
  intros He. assert (Forall fresh [entry]) by by apply Forall_singleton.
  unfold states_of. destruct (node_cls current).
  - by apply fresh_walk_rev.
  - by apply (framed_ret base).
  - by apply (framed_ret base).
Qed.

Lemma fresh_visit (current : Node Stmt) (rest : list (Node Stmt))
    (its : gmap Z Z) (r : gmap Z (list nat)) :
  framed base (visit cfg threshold initial current rest its r)
    (fun s' => renewed r (result s')).
Proof.
  unfold visit.
  eapply (framed_bind base); [apply (framed_lift base)|].
  intros iteration _.
  eapply (framed_bind base); [apply (framed_previous_of base)|].
  intros previous Hp.
  eapply (framed_bind base); [by apply (framed_exit_state domain_lawful)|].
  intros entry He.
  eapply (framed_bind base); [by apply (framed_changed domain_lawful)|].
  intros go _.
  destruct go; [|apply (framed_ret base); simpl; by left].
  eapply (framed_bind base); [by apply fresh_states_of|].
  intros states Hstates. apply (framed_ret base). simpl. intros i.
  unfold AnalysisResult.set_node_result.
  destruct (decide (identifier current = i)) as [<-|Hne].
  - right. exists states. by rewrite lookup_insert_eq.
  - left. by rewrite lookup_insert_ne.
Qed.

Lemma fresh_turns (n : nat) (s : loop_state) :
  framed base (turns cfg threshold initial n s)
    (fun s' => renewed (result s) (result s')).
Proof.
  revert s. induction n as [|n IH]; intros s;
    [apply (framed_ret base); by left|].
  simpl. destruct (worklist s) as [|current rest] eqn:Hw;
    [apply (framed_ret base); by left|].
  eapply (framed_bind base).
  { unfold turn. rewrite Hw. apply fresh_visit. }
  intros s1 H1. eapply (framed_weaken base); [apply IH|].
  intros s2 H2 i. simpl in *.
  destruct (H2 i) as [Heq|Hnew]; [|by right].
  rewrite Heq. apply H1.
Qed.
End Fresh.

(** X12. What [analyze] stores is its own.  With a domain whose operations write
    only to the state objects they are given and return one of them or a
    new object, every sequence in the returned store is the one the store
    held when [analyze] was called or is made of objects allocated during
    the call: a stored state is never the caller's [initial] object nor a
    state of an earlier result. *)
Theorem stored_states_are_new {Stmt V : Type} (D : Heap.ops V Stmt)
    (cfg : ControlFlowGraph Stmt) (threshold : Z) (initial : nat)
    (fuel : nat) (r0 r : gmap Z (list nat)) (h0 h : Heap.heap V) (i : Z) :
  Heap.lawful D ->
  Heap.analyze cfg threshold initial fuel r0 h0 = Some (Ok (r, h)) ->
  r !! i = r0 !! i \/
  exists states,
    r !! i = Some states /\
    Forall (fun l => (Heap.next h0 <= l)%nat) states.
Proof.
  intros Hlawful Hrun. unfold Heap.analyze in Hrun.
  destruct (Heap.turns cfg threshold initial fuel (Heap.start cfg r0) h0)
    as [[s h']|e] eqn:Hturns; [|done].
  destruct (Heap.worklist s); [|done]. simplify_eq.
  destruct (fresh_turns Hlawful cfg threshold initial (Heap.next h0)
              fuel _ h0 s h (le_n _) Hturns) as (_ & _ & Hnew).
  apply Hnew.
Qed.

(** ** Graphs in layers *)

Section Layered.
Import BackwardInterpreter Trace Reach.
Context {Stmt T : Type}.
Context `{!State.ops T} `{!BackwardSemantics.ops Stmt T}.
Variable cfg : ControlFlowGraph Stmt.
Variable widening : Z.
Variable initial : T.

Local Abbreviation turn := (turn cfg widening initial).
Local Abbreviation turns := (turns cfg widening initial).
Local Abbreviation visit := (visit cfg widening initial).
Local Abbreviation analyze := (analyze cfg widening initial).
Local Abbreviation exit_state := (exit_state cfg widening initial).

(** *** Runs, one turn at the end *)

Lemma turns_snoc (n : nat) (s0 : loop_state) :
  turns (S n) s0 = s ← turns n s0; turn s.
Proof.
  replace (S n) with (n + 1)%nat by lia.
  rewrite (turns_add cfg widening initial).
  destruct (turns n s0) as [s|e]; simpl; [|done].
  unfold BackwardInterpreter.turn.
  destruct (worklist s) as [|current rest]; [done|].
  by destruct (BackwardInterpreter.visit _ _ _ _ _ _ _).
Qed.

Lemma run_ind (P : loop_state -> Prop) (r0 : gmap Z (list T)) :
  P (start cfg r0) ->
  (forall n s current rest s',
     turns n (start cfg r0) = Ok s ->
     worklist s = current :: rest -> P s ->
     visit current rest (iterations s) (result s) = Ok s' -> P s') ->
  forall n s, turns n (start cfg r0) = Ok s -> P s.
Proof.
  intros Hstart Hstep. induction n as [|n IH]; intros s Hturns.
  - simpl in Hturns. by simplify_eq.
  - rewrite turns_snoc in Hturns.
    apply bind_Ok in Hturns as (s1 & Hrun & Hturn).
    destruct (worklist s1) as [|current rest] eqn:Hw.
    + unfold BackwardInterpreter.turn in Hturn. rewrite Hw in Hturn.
      simplify_eq. by apply IH.
    + rewrite (turn_visit cfg widening initial _ _ _ Hw) in Hturn.
      eapply Hstep; eauto.
Qed.

Lemma run_filled (n : nat) (s : loop_state) :
  turns n (start cfg ∅) = Ok s -> filled (result s).
Proof.
  apply (turns_ind cfg widening initial (fun s => filled (result s))).
  - intros current rest s1 s2 _ Hfilled Hv. by eapply visit_filled.
  - intros i. simpl. by rewrite lookup_empty.
Qed.

Lemma run_iterations_dom (n : nat) (r0 : gmap Z (list T))
    (s : loop_state) :
  turns n (start cfg r0) = Ok s ->
  dom (iterations s) = dom (nodes cfg).
Proof.
  apply (turns_ind cfg widening initial
           (fun s => dom (iterations s) = dom (nodes cfg))).
  - intros current rest s1 s2 _ Hd Hv.
    apply (visit_inv cfg widening initial) in Hv
      as (iteration & previous & entry & Hit & _ & _ & ->).
    destruct (changed previous entry); simpl; [|done].
    rewrite dom_insert_L, <- Hd. apply elem_of_dom_2 in Hit.
    apply subseteq_union_1_L. by apply singleton_subseteq_l.
  - simpl. by rewrite dom_fmap_L.
Qed.

(** *** When a turn completes *)

Lemma visit_Ok (current : Node Stmt) (rest : list (Node Stmt))
    (its : gmap Z Z) (r : gmap Z (list T)) :
  is_Some (its !! identifier current) ->
  filled r ->
  (identifier current ≠ identifier (out_node cfg) ->
   forall edge, edge ∈ out_edges cfg current ->
     is_Some (r !! identifier (target edge))) ->
  exists s', visit current rest its r = Ok s'.
Proof.
  intros [iteration Hit] Hfilled Htargets.
  unfold BackwardInterpreter.visit, dict_get. rewrite Hit. simpl.
  assert (exists previous, previous_of r current = Ok previous)
    as [previous ->].
  { unfold previous_of, AnalysisResult.contains,
      AnalysisResult.get_node_result.
    destruct (r !! identifier current) as [states|] eqn:Hr; simpl;
      [|by eexists].
    unfold last_item. destruct (last states) as [x|] eqn:Hlast; simpl;
      [by eexists|].
    apply last_None in Hlast. subst states. by apply Hfilled in Hr. }
  simpl.
  assert (exists entry,
            BackwardInterpreter.exit_state cfg widening initial r
              iteration previous current = Ok entry) as [entry ->].
  { unfold BackwardInterpreter.exit_state.
    case_bool_decide as Hout; [|by eexists].
    destruct (join_edges_Ok r (out_edges cfg current)
                (State.bottom initial)) as [joined ->].
    - intros edge Hedge.
      destruct (Htargets Hout edge Hedge) as [[|pre states] Hs].
      + by apply Hfilled in Hs.
      + by exists pre, states.
    - simpl. destruct (_ && _); by eexists. }
  simpl. destruct (changed previous entry); by eexists.
Qed.

(** *** Levels *)

Variable level : Node Stmt -> nat.
Variables L B : nat.
Hypothesis graph_well_formed : well_formed cfg.
Hypothesis graph_consistent : consistent cfg.
Hypothesis level_step :
  forall node p, coreachable cfg node -> p ∈ predecessors cfg node ->
    level p = S (level node).
Hypothesis no_dead_end :
  forall node edge, coreachable cfg node -> edge ∈ out_edges cfg node ->
    coreachable cfg (target edge).
Hypothesis level_bound :
  forall node, coreachable cfg node -> (level node <= L)%nat.
Hypothesis degree_bound :
  forall node, coreachable cfg node ->
    (length (predecessors cfg node) <= B)%nat.

Lemma level_out (node : Node Stmt) :
  coreachable cfg node ->
  node = out_node cfg \/ (level (out_node cfg) < level node)%nat.
Proof.
  induction 1 as [|node p Hnode IH Hp]; [by left|]. right.
  rewrite (level_step node p Hnode Hp). destruct IH as [->|IH]; lia.
Qed.

Lemma level_target (node : Node Stmt) (edge : Edge Stmt) :
  coreachable cfg node -> edge ∈ out_edges cfg node ->
  level node = S (level (target edge)).
Proof.
  intros Hnode Hedge.
  destruct (graph_consistent node edge) as [_ Hpred];
    [by apply coreachable_is_node | done |].
  apply level_step; [by eapply no_dead_end | done].
Qed.

(** The queue serves the graph level by level: while the nodes of level
    [k] are served, every node below is stored and the nodes of level
    [k + 1] gather at the end of the queue. *)
Lemma layered_run (n : nat) (s : loop_state) :
  turns n (start cfg ∅) = Ok s ->
  exists k A B',
    worklist s = A ++ B' /\
    Forall (fun x => level x = k) A /\
    Forall (fun x => level x = S k) B' /\
    (forall node, coreachable cfg node -> (level node < k)%nat ->
       is_Some (result s !! identifier node)) /\
    (forall node, coreachable cfg node -> level node = k ->
       is_Some (result s !! identifier node) \/ node ∈ A).
Proof.
  revert n s. apply run_ind.
  - exists (level (out_node cfg)), [out_node cfg], []. simpl.
    split; [done|]. split; [by apply Forall_singleton|].
    split; [done|]. split.
    + intros node [->|Hlt]%level_out; lia.
    + intros node [->|Hlt]%level_out Hk; [|lia]. right. by left.
  - intros n s current rest s' Hrun Hw
      (k & A & B' & Hsplit & HA & HB & Hlow & Hk) Hv.
    destruct (stored_coreachable cfg widening initial n s Hrun)
      as (Hout & Hco & _).
    destruct (pending_or_stored cfg widening initial n s
                graph_well_formed Hrun) as [_ Hpend].
    pose proof (visit_stores_current cfg widening initial _ _ _ _ _ Hv)
      as Hcur.
    pose proof (fun i => visit_keeps cfg widening initial _ _ _ _ _ i Hv)
      as Hkeeps.
    rewrite Hw in Hco. apply Forall_cons in Hco as [Hcurrent _].
    assert (exists pushed,
              worklist s' = rest ++ pushed /\
              Forall (fun p => level p = S (level current)) pushed)
      as (pushed & Hw' & Hpushed).
    { apply (visit_worklist cfg widening initial) in Hv as [-> | ->].
      - exists []. by rewrite app_nil_r.
      - eexists. split; [done|]. apply Forall_forall. intros p Hp.
        by apply level_step. }
    rewrite Hw in Hsplit. destruct A as [|a A]; simpl in Hsplit.
    + (* the last node of level [k] has been served *)
      subst B'. apply Forall_cons in HB as [Hlevel HB].
      rewrite Hlevel in Hpushed.
      exists (S k), rest, pushed. split; [done|]. split; [done|].
      split; [done|]. split.
      * intros node Hnode Hlt. apply Hkeeps.
        destruct (decide (level node = k)) as [Heq|Hne].
        -- destruct (Hk node Hnode Heq) as [Hs|Hin]; [done|].
           by apply elem_of_nil in Hin.
        -- apply Hlow; [done|lia].
      * intros node Hnode Hlevel'.
        assert (node ∈ worklist s \/ is_Some (result s !! identifier node))
          as [Hin|Hs].
        { destruct Hnode as [|m node Hm Hp]; [done|].
          assert (level m = k) as Hmk.
          { pose proof (level_step m node Hm Hp). lia. }
          apply (Hpend m node); [by apply coreachable_is_node| |done].
          destruct (Hk m Hm Hmk) as [Hs|Hin]; [done|].
          by apply elem_of_nil in Hin. }
        -- rewrite Hw in Hin. apply elem_of_cons in Hin as [->|Hin];
             [by left | by right].
        -- left. by apply Hkeeps.
    + (* a node of level [k] is served *)
      injection Hsplit as <- ->.
      apply Forall_cons in HA as [Hlevel HA].
      rewrite Hlevel in Hpushed.
      exists k, A, (B' ++ pushed). split; [by rewrite Hw', app_assoc|].
      split; [done|]. split; [by apply Forall_app|]. split.
      * intros node Hnode Hlt. apply Hkeeps. by apply Hlow.
      * intros node Hnode Hlevel'.
        destruct (Hk node Hnode Hlevel') as [Hs|Hin].
        -- left. by apply Hkeeps.
        -- apply elem_of_cons in Hin as [->|Hin]; [by left | by right].
Qed.

Lemma layered_turn (n : nat) (s : loop_state) :
  turns n (start cfg ∅) = Ok s -> exists s', turn s = Ok s'.
Proof.
  intros Hrun. unfold BackwardInterpreter.turn.
  destruct (worklist s) as [|current rest] eqn:Hw; [by eexists|].
  destruct (stored_coreachable cfg widening initial n s Hrun)
    as (_ & Hco & _).
  rewrite Hw in Hco. apply Forall_cons in Hco as [Hcurrent _].
  apply visit_Ok.
  - apply elem_of_dom. rewrite (run_iterations_dom n ∅ s Hrun).
    apply elem_of_dom. exists current.
    by apply coreachable_is_node.
  - by eapply run_filled.
  - intros _ edge Hedge.
    pose proof (level_target current edge Hcurrent Hedge) as Hlevel.
    pose proof (no_dead_end current edge Hcurrent Hedge) as Htarget.
    destruct (layered_run n s Hrun)
      as (k & A & B' & Hsplit & HA & HB & Hlow & Hk).
    rewrite Hw in Hsplit. destruct A as [|a A]; simpl in Hsplit.
    + subst B'. apply Forall_cons in HB as [Hcur _].
      destruct (Hk (target edge) Htarget) as [Hs|Hin]; [lia|done|].
      by apply elem_of_nil in Hin.
    + injection Hsplit as <- ->. apply Forall_cons in HA as [Hcur _].
      apply Hlow; [done|lia].
Qed.

Lemma layered_no_raise (n : nat) :
  exists s, turns n (start cfg ∅) = Ok s.
Proof.
  induction n as [|n [s Hrun]]; [by eexists|].
  rewrite turns_snoc, Hrun. simpl. by eapply layered_turn.
Qed.

Lemma layered_returns :
  exists r,
    analyze ((B + 1) ^ (L - level (out_node cfg))) ∅ = Some (Ok r).
Proof.
  unfold BackwardInterpreter.analyze.
  destruct (layered_no_raise ((B + 1) ^ (L - level (out_node cfg))))
    as [s Hrun].
  pose proof (turns_drain cfg widening initial B
                (fun node => (L - level node)%nat)
                ((B + 1) ^ (L - level (out_node cfg))) (start cfg ∅))
    as Hdrain.
  rewrite Hrun in *. rewrite Hdrain; [by eexists| | | |].
  - intros node p Hnode Hp.
    pose proof (level_step node p Hnode Hp).
    pose proof (level_bound p (coreachable_pred cfg node p Hnode Hp)).
    lia.
  - done.
  - apply Forall_cons. split; [constructor | done].
  - simpl. lia.
Qed.
End Layered.

(** X16. A new interpreter analyses a graph in layers without an exception.
    When every edge leads from a node to a node one level closer to the out
    node, the out-edges of a node that leads to the out node go to such
    nodes, and levels and numbers of predecessors are bounded, [analyze]
    returns a store within [(B + 1) ^ (L - level out_node)] turns: the queue
    serves the graph level by level, so each node is visited after all its
    successors. *)
Theorem layered_analysis_returns {Stmt T : Type} `{!State.ops T}
    `{!BackwardSemantics.ops Stmt T} (cfg : ControlFlowGraph Stmt)
    (widening : Z) (initial : T) (level : Node Stmt -> nat) (L B : nat) :
  Reach.well_formed cfg ->
  Reach.consistent cfg ->
  (forall node p,
     Reach.coreachable cfg node -> p ∈ predecessors cfg node ->
     level p = S (level node)) ->
  (forall node edge,
     Reach.coreachable cfg node -> edge ∈ out_edges cfg node ->
     Reach.coreachable cfg (target edge)) ->
  (forall node, Reach.coreachable cfg node -> (level node <= L)%nat) ->
  (forall node,
     Reach.coreachable cfg node ->
     (length (predecessors cfg node) <= B)%nat) ->
  exists r,
    BackwardInterpreter.analyze cfg widening initial
      ((B + 1) ^ (L - level (out_node cfg))) ∅ = Some (Ok r).
Proof. intros. by apply layered_returns. Qed.

(** ** The order of the out-edges *)

Section EdgeOrder.
Import BackwardInterpreter Trace Reach.
Context {Stmt T : Type}.
Context `{!State.ops T} `{!BackwardSemantics.ops Stmt T}.
Hypothesis join_swap :
  forall a b c : T,
    State.join (State.join a b) c = State.join (State.join a c) b.




Variable cfg : ControlFlowGraph Stmt.
Variable widening : Z.
Variable initial : T.
(** The out-edges of the nodes in another order. *)
Variable out_edges' : Node Stmt -> list (Edge Stmt).
Hypothesis same_edges : forall node, out_edges' node ≡ₚ out_edges cfg node.

Local Abbreviation cfg' :=
  {| nodes := nodes cfg; out_node := out_node cfg;
     out_edges := out_edges'; predecessors := predecessors cfg |}.



End EdgeOrder.


(** * The helpers of the type encoding *)

Section OrderedDictFacts.
Import OrderedDict.
Context {K V : Type} `{!Key K}.
Hypothesis key_lawful : lawful K.
Implicit Types d : list (K * V).

Lemma wf_hashable d (key : K) (value : V) :
  wf d -> (key, value) ∈ d -> hashable key = true.
Proof.
  induction d as [|[k v] d IH]; simpl; intros Hwf Hin.
  - by apply elem_of_nil in Hin.
  - destruct Hwf as (Hk & _ & Hwf).
    apply elem_of_cons in Hin as [[= -> ->]|Hin]; [done | by apply IH].
Qed.

Lemma find_elem_of d (key : K) (value : V) :
  wf d -> (key, value) ∈ d -> find d key = Some value.
Proof.
  induction d as [|[k v] d IH]; simpl; intros Hwf Hin.
  - by apply elem_of_nil in Hin.
  - destruct Hwf as (Hk & Hnew & Hwf).
    apply elem_of_cons in Hin as [[= -> ->]|Hin].
    + by rewrite (same_refl K key_lawful).
    + rewrite Forall_forall in Hnew.
      pose proof (Hnew _ Hin) as Hne. simpl in Hne.
      rewrite Hne. by apply IH.
Qed.

Lemma getitem_elem_of d (key : K) (value : V) :
  wf d -> (key, value) ∈ d -> getitem d key = Return value.
Proof.
  intros Hwf Hin. unfold getitem.
  by rewrite (wf_hashable d key value), (find_elem_of d key value).
Qed.

Lemma find_put_same d (key key' : K) (value : V) :
  same key key' = true -> find (put d key value) key' = Some value.
Proof.
  intros Hsame. induction d as [|[k v] d IH]; simpl.
  - by rewrite Hsame.
  - destruct (same k key) eqn:Hk; simpl.
    + by rewrite (same_trans K key_lawful k key key').
    + destruct (same k key') eqn:Hk'; [|done].
      rewrite (same_sym K key_lawful key key') in Hsame.
      by rewrite (same_trans K key_lawful k key' key) in Hk.
Qed.

Lemma find_put_other d (key key' : K) (value : V) :
  same key key' = false -> find (put d key value) key' = find d key'.
Proof.
  intros Hother. induction d as [|[k v] d IH]; simpl.
  - by rewrite Hother.
  - destruct (same k key) eqn:Hk; simpl; [|by rewrite IH].
    destruct (same k key') eqn:Hk'; [|done].
    rewrite (same_sym K key_lawful k key) in Hk.
    by rewrite (same_trans K key_lawful key k key') in Hother.
Qed.

Lemma put_keys d (key : K) (value : V) (P : K -> Prop) :
  Forall (fun item => P item.1) d -> P key ->
  Forall (fun item => P item.1) (put d key value).
Proof.
  intros Hd Hkey. induction d as [|[k v] d IH]; simpl.
  - by apply Forall_singleton.
  - apply Forall_cons in Hd as [Hk Hd].
    destruct (same k key); apply Forall_cons; auto.
Qed.

Lemma put_new d (key : K) (value : V) :
  Forall (fun item => same item.1 key = false) d ->
  put d key value = d ++ [(key, value)].
Proof.
  induction d as [|[k v] d IH]; simpl; intros Hnew; [done|].
  apply Forall_cons in Hnew as [Hk Hnew]. simpl in Hk.
  by rewrite Hk, IH.
Qed.

Lemma wf_put d (key : K) (value : V) :
  wf d -> hashable key = true -> wf (put d key value).
Proof.
  intros Hwf Hkey. induction d as [|[k v] d IH]; simpl.
  - by repeat split.
  - destruct Hwf as (Hk & Hnew & Hwf).
    destruct (same k key) eqn:Hsame; simpl; [done|].
    split; [done|]. split; [|by apply IH].
    by apply (put_keys d key value (fun k' => same k k' = false)).
Qed.

Lemma wf_app_inv (d1 d2 : list (K * V)) :
  wf (d1 ++ d2) ->
  wf d1 /\ wf d2 /\
  forall a b, a ∈ d1 -> b ∈ d2 -> same a.1 b.1 = false.
Proof.
  induction d1 as [|[k v] d1 IH]; simpl.
  - intros Hwf. repeat split; [done|].
    intros a b Ha. by apply elem_of_nil in Ha.
  - intros (Hk & Hnew & Hwf). apply Forall_app in Hnew as [Hnew1 Hnew2].
    destruct (IH Hwf) as (Hwf1 & Hwf2 & Hdisj).
    repeat split; try done.
    intros a b [->|Ha]%elem_of_cons Hb; [|by apply Hdisj].
    rewrite Forall_forall in Hnew2. by apply Hnew2.
Qed.
End OrderedDictFacts.

Section InvertDictFacts.
Import OrderedDict.
Context {K V : Type} `{!Key K} `{!Key V}.
Hypothesis key_lawful : lawful K.
Hypothesis value_lawful : lawful V.
Implicit Types d items : list (K * V).
Implicit Types result : list (V * K).

(** What the loop has built after the items [items] of [d], when their
    values can be hashed. *)
Lemma invert_loop_items d items result :
  wf d -> items ⊆ d ->
  Forall (fun item => hashable item.2 = true) items ->
  invert_loop d (keys items) result
  = Return (foldl (fun result item => put result item.2 item.1)
              result items).
Proof.
  intros Hwf. revert result.
  induction items as [|[k v] items IH]; intros result Hsub Hhash; [done|].
  apply Forall_cons in Hhash as [Hv Hhash]. simpl in *.
  rewrite (getitem_elem_of key_lawful d k v Hwf) by (apply Hsub; by left).
  simpl. unfold setitem. rewrite Hv. simpl.
  apply IH; [|done]. intros item Hitem. apply Hsub. by right.
Qed.

(** The loop stops with [TypeError] at the first value that cannot be
    hashed. *)
Lemma invert_loop_unhashable d items result :
  wf d -> items ⊆ d ->
  Exists (fun item => hashable item.2 = false) items ->
  invert_loop d (keys items) result = Throw TypeError.
Proof.
  intros Hwf. revert result.
  induction items as [|[k v] items IH]; intros result Hsub Hex.
  - by apply Exists_nil in Hex.
  - simpl.
    rewrite (getitem_elem_of key_lawful d k v Hwf) by (apply Hsub; by left).
    simpl. unfold setitem. destruct (hashable v) eqn:Hv; [|done]. simpl.
    apply IH; [intros item Hitem; apply Hsub; by right|].
    apply Exists_cons in Hex as [Hex|Hex]; [|done].
    simpl in Hex. congruence.
Qed.

Lemma wf_inverted items result :
  wf result ->
  Forall (fun item => hashable item.2 = true) items ->
  wf (foldl (fun result item => put result item.2 item.1) result items).
Proof.
  revert result. induction items as [|[k v] items IH];
    intros result Hwf Hhash; [done|].
  apply Forall_cons in Hhash as [Hv Hhash]. simpl.
  apply IH; [|done]. by apply wf_put.
Qed.

Lemma find_inverted items result (value : V) :
  find (foldl (fun result item => put result item.2 item.1) result items)
    value
  = match last (base.filter (fun item => same item.2 value = true) items)
    with
    | Some item => Some item.1
    | None => find result value
    end.
Proof.
  revert result. induction items as [|[k v] items IH]; intros result;
    [done|].
  simpl. rewrite IH. rewrite filter_cons. simpl.
  destruct (decide (same v value = true)) as [Hsame|Hother].
  - rewrite last_cons.
    destruct (last (base.filter _ items)); [done|].
    by apply (find_put_same value_lawful).
  - destruct (last (base.filter _ items)); [done|].
    apply (find_put_other value_lawful).
    by destruct (same v value).
Qed.

Lemma inverted_distinct items result :
  wf (result ++ (prod_swap <$> items)) ->
  foldl (fun result item => put result item.2 item.1) result items
  = result ++ (prod_swap <$> items).
Proof.
  revert result. induction items as [|[k v] items IH]; intros result Hwf.
  - simpl. by rewrite app_nil_r.
  - simpl in *. rewrite put_new.
    + rewrite IH; rewrite <- app_assoc; done.
    + destruct (wf_app_inv result _ Hwf) as (_ & _ & Hdisj).
      apply Forall_forall. intros item Hitem.
      apply (Hdisj item (v, k) Hitem). by left.
Qed.

Lemma invert_dict_distinct d :
  wf d -> wf (prod_swap <$> d) ->
  invert_dict d = Return (prod_swap <$> d).
Proof.
  intros Hwf Hswap. unfold invert_dict.
  rewrite invert_loop_items; [|done..|].
  - by rewrite inverted_distinct.
  - apply Forall_forall. intros [k v] Hin.
    apply (wf_hashable (prod_swap <$> d) v k Hswap).
    apply list_elem_of_fmap. by exists (k, v).
Qed.

Lemma invert_dict_lookup d :
  wf d ->
  (Exists (fun item => hashable item.2 = false) d ->
   invert_dict d = Throw TypeError) /\
  (Forall (fun item => hashable item.2 = true) d ->
   exists result,
     invert_dict d = Return result /\
     wf result /\
     forall value,
       hashable value = true ->
       getitem result value
       = match last (base.filter (fun item => same item.2 value = true) d)
         with
         | Some item => Return item.1
         | None => Throw KeyError
         end).
Proof.
  intros Hwf. split.
  - intros Hex. by apply invert_loop_unhashable.
  - intros Hhash. eexists. split; [by apply invert_loop_items|]. split.
    + by apply wf_inverted.
    + intros value Hvalue. unfold getitem.
      rewrite Hvalue, find_inverted. simpl.
      by destruct (last (base.filter _ d)).
Qed.
End InvertDictFacts.

(** X13. [invert_dict(d)] raises [TypeError] when a value of [d] cannot be
    hashed.  When every value can, it returns a dictionary that has each
    value of [d] once as a key, values that a dictionary takes for the same
    key ([1] and [True]) counting as one, mapped to the last key of [d]
    that holds it; looking up anything else that can be hashed raises
    [KeyError]. *)
Theorem invert_dict_last_key_wins {K V : Type} `{!OrderedDict.Key K}
    `{!OrderedDict.Key V} (d : list (K * V)) :
  OrderedDict.lawful K ->
  OrderedDict.lawful V ->
  OrderedDict.wf d ->
  (Exists (fun item => OrderedDict.hashable item.2 = false) d ->
   invert_dict d = OrderedDict.Throw OrderedDict.TypeError) /\
  (Forall (fun item => OrderedDict.hashable item.2 = true) d ->
   exists result,
     invert_dict d = OrderedDict.Return result /\
     OrderedDict.wf result /\
     forall value,
       OrderedDict.hashable value = true ->
       OrderedDict.getitem result value
       = match last (base.filter
                       (fun item => OrderedDict.same item.2 value = true) d)
         with
         | Some item => OrderedDict.Return item.1
         | None => OrderedDict.Throw OrderedDict.KeyError
         end).
Proof. intros HK HV Hwf. by apply invert_dict_lookup. Qed.

(** X14. On a dictionary whose values can be hashed and are pairwise
    different keys, [invert_dict] swaps every item and keeps the order, and
    inverting twice gives the dictionary back. *)
Theorem invert_dict_twice {K V : Type} `{!OrderedDict.Key K}
    `{!OrderedDict.Key V} (d : list (K * V)) :
  OrderedDict.lawful K ->
  OrderedDict.lawful V ->
  OrderedDict.wf d ->
  OrderedDict.wf (prod_swap <$> d) ->
  invert_dict d = OrderedDict.Return (prod_swap <$> d) /\
  (inverted ← invert_dict d; invert_dict inverted) = OrderedDict.Return d.
Proof.
  intros HK HV Hwf Hswap.
  assert (prod_swap <$> (prod_swap <$> d) = d) as Hback.
  { rewrite <- list_fmap_compose. rewrite <- (list_fmap_id d) at 2.
    by apply list_fmap_ext; intros ? [? ?]. }
  rewrite (invert_dict_distinct HK d Hwf Hswap). split; [done|]. simpl.
  rewrite (invert_dict_distinct HV (prod_swap <$> d) Hswap);
    by rewrite Hback.
Qed.

Section Names.
Import TypesSolver.
Local Open Scope string_scope.

Lemma to_uint_inj (n m : nat) : Nat.to_uint n = Nat.to_uint m -> n = m.
Proof.
  intros Heq. rewrite <- (DecimalNat.Unsigned.of_to n),
    <- (DecimalNat.Unsigned.of_to m). by rewrite Heq.
Qed.

Lemma str_inj (n m : nat) : str n = str m -> n = m.
Proof.
  unfold str. intros Heq. apply to_uint_inj.
  assert (Some (Nat.to_uint n) = Some (Nat.to_uint m)) as [= ->]; [|done].
  by rewrite <- !NilEmpty.usu, Heq.
Qed.

(** A decimal numeral has no underscore. *)
Lemma digits_no_underscore (u : Decimal.uint) (s1 s2 : string) :
  NilEmpty.string_of_uint u ≠ s1 +:+ "_" +:+ s2.
Proof.
  revert s1. induction u; intros [|c s1]; simpl; try discriminate;
    intros [= _ Heq]; by eapply IHu.
Qed.

(** The text after the last underscore of a name decides the number it
    was formatted with. *)
Lemma format_number (name name' : string) (u u' : Decimal.uint) :
  name +:+ "_" +:+ NilEmpty.string_of_uint u
  = name' +:+ "_" +:+ NilEmpty.string_of_uint u' ->
  NilEmpty.string_of_uint u = NilEmpty.string_of_uint u'.
Proof.
  revert name'. induction name as [|c name IH]; intros [|c' name']; simpl.
  - by intros [= Heq].
  - intros [= _ Heq]. by apply digits_no_underscore in Heq.
  - intros [= _ Heq]. symmetry in Heq.
    by apply digits_no_underscore in Heq.
  - intros [= _ Heq]. by apply IH in Heq.
Qed.

(** X15. [new_z3_const] gives every constant a name of its own.  A constant
    made once the counter has been advanced by an earlier call differs in
    name from the constant of that call, whatever the two names asked for
    (one may itself end in an underscore and digits) and the sorts. *)
Theorem new_z3_const_unique_name {Sort : Type} (self later : t Sort)
    (name name' : string) (sort sort' : option Sort) :
  (element_id (new_z3_const self name sort).2 <= element_id later)%nat ->
  const_name (new_z3_const later name' sort').1
  ≠ const_name (new_z3_const self name sort).1.
Proof.
  unfold new_z3_const, new_element_id, format, str. simpl.
  intros Hlater Heq. apply format_number in Heq.
  assert (Some (Nat.to_uint (element_id later + 1))
          = Some (Nat.to_uint (element_id self + 1))) as [= Hu].
  { by rewrite <- !NilEmpty.usu, Heq. }
  apply to_uint_inj in Hu. lia.
Qed.
End Names.

(** ** Instances of the further properties *)

Section MoreInstances.
Import BackwardInterpreter Trace Reach Symbolic Scenario.

(** *** The graphs of the scenarios are well formed *)

Lemma line_predecessors (node p : Node string) :
  p ∈ predecessors Line.cfg node ->
  (identifier node = 2 /\ p = Line.n_in) \/
  (identifier node = 3 /\ p = Line.block).
Proof.
  simpl. repeat case_bool_decide.
  - intros ->%list_elem_of_singleton. by left.
  - intros ->%list_elem_of_singleton. by right.
  - by intros ?%elem_of_nil.
Qed.

Lemma line_well_formed : well_formed Line.cfg.
Proof.
  split; [reflexivity|].
  intros node p [[_ ->]|[_ ->]]%line_predecessors; reflexivity.
Qed.

Lemma line_consistent : consistent Line.cfg.
Proof.
  intros node edge Hnode. unfold is_node in Hnode. simpl.
  destruct (decide (identifier node = 1)) as [H1|H1].
  - rewrite bool_decide_true by done. intros ->%list_elem_of_singleton.
    rewrite H1 in Hnode. vm_compute in Hnode. injection Hnode as <-.
    split; [reflexivity|]. change (Line.n_in ∈ [Line.n_in]). by left.
  - rewrite bool_decide_false by done.
    destruct (decide (identifier node = 2)) as [H2|H2].
    + rewrite bool_decide_true by done. intros ->%list_elem_of_singleton.
      rewrite H2 in Hnode. vm_compute in Hnode. injection Hnode as <-.
      split; [reflexivity|]. change (Line.block ∈ [Line.block]). by left.
    + rewrite bool_decide_false by done. by intros ?%elem_of_nil.
Qed.

Lemma line_coreachable (node : Node string) :
  coreachable Line.cfg node ->
  node = Line.n_out \/ node = Line.block \/ node = Line.n_in.
Proof.
  intros [|n p _ [[_ ->]|[_ ->]]%line_predecessors]; auto.
Qed.

Lemma while_well_formed : well_formed While.cfg.
Proof.
  split; [reflexivity|]. intros node p. simpl. repeat case_bool_decide.
  - intros [->|[->|[]%elem_of_nil]%elem_of_cons]%elem_of_cons;
      reflexivity.
  - intros ->%list_elem_of_singleton. reflexivity.
  - intros ->%list_elem_of_singleton. reflexivity.
  - by intros ?%elem_of_nil.
Qed.

Lemma line_run :
  exists s,
    turns Line.cfg 1 (Atom 0) 3 (start Line.cfg ∅) = Ok s.
Proof. eexists. vm_compute. reflexivity. Qed.

Lemma line_result :
  exists r, analyze Line.cfg 1 (Atom 0) 3 ∅ = Some (Ok r).
Proof. eexists. vm_compute. reflexivity. Qed.

(** *** Instances *)

(** The exit state of the block of scenario A, the out node stored. *)
Lemma exit_state_completes_witness :
  identifier Line.block ≠ identifier (out_node Line.cfg) /\
  exists v,
    exit_state Line.cfg 1 (Atom 0) {[ 3 := [Atom 0] ]} 0 None Line.block
    = Ok v.
Proof.
  assert (identifier Line.block ≠ identifier (out_node Line.cfg)) as Hne
    by (simpl; lia).
  split; [exact Hne|].
  apply (proj1 (exit_state_completes Line.cfg 1 (Atom 0)
                  {[ 3 := [Atom 0] ]} 0 None Line.block Hne)).
  intros edge Hin. vm_compute in Hin.
  apply list_elem_of_singleton in Hin. subst edge.
  exists (Atom 0), []. vm_compute. reflexivity.
Defined.

(** Scenario A from the empty store. *)
Lemma no_IndexError_witness :
  filled (result (start Line.cfg (∅ : gmap Z (list term)))) /\
  turns Line.cfg 1 (Atom 0) 3 (start Line.cfg ∅) ≠ Raise IndexError.
Proof.
  assert (filled (result (start Line.cfg (∅ : gmap Z (list term)))))
    as Hfilled by (intros i; simpl; by rewrite lookup_empty).
  split; [exact Hfilled|].
  exact (proj1 (no_IndexError Line.cfg 1 (Atom 0) 3 _ Hfilled)).
Defined.

Lemma iterations_keys_witness :
  exists s,
    turns Line.cfg 1 (Atom 0) 3 (start Line.cfg ∅) = Ok s /\
    dom (iterations s) = dom (nodes Line.cfg).
Proof.
  destruct line_run as [s Hturns]. exists s. split; [exact Hturns|].
  exact (proj1 (iterations_keys Line.cfg 1 (Atom 0) 3 ∅ s Hturns)).
Defined.

Lemma popped_coreachable_witness :
  Line.block ∈ popped Line.cfg 1 (Atom 0) 3 (start Line.cfg ∅) /\
  coreachable Line.cfg Line.block.
Proof.
  assert (Line.block ∈ popped Line.cfg 1 (Atom 0) 3 (start Line.cfg ∅))
    as Hin.
  { assert (popped Line.cfg 1 (Atom 0) 3 (start Line.cfg ∅)
            = [Line.n_out; Line.block; Line.n_in]) as ->
      by (vm_compute; reflexivity).
    right. left. }
  split; [exact Hin|].
  exact (popped_coreachable Line.cfg 1 (Atom 0) 3 ∅ Line.block Hin).
Defined.

Lemma stored_iff_counted_witness :
  exists s,
    turns Line.cfg 1 (Atom 0) 3 (start Line.cfg ∅) = Ok s /\
    (∅ : gmap Z (list term)) !! 2 = None /\
    (is_Some (result s !! 2) <-> 0 < count_of (iterations s) 2).
Proof.
  destruct line_run as [s Hturns]. exists s. split; [exact Hturns|].
  split; [reflexivity|].
  exact (stored_iff_counted Line.cfg 1 (Atom 0) 3 ∅ s 2 Hturns eq_refl).
Defined.

Lemma out_node_result_witness :
  (forall node p : Node string,
     p ∈ predecessors Line.cfg node ->
     identifier p = identifier (out_node Line.cfg) ->
     p = out_node Line.cfg) /\
  (∅ : gmap Z (list term)) !! identifier (out_node Line.cfg) = None /\
  (0 < 3)%nat /\
  exists s,
    turns Line.cfg 1 (Atom 0) 3 (start Line.cfg ∅) = Ok s /\
    result s !! identifier (out_node Line.cfg)
    = Some (Spec.layout (out_node Line.cfg) (Atom 0)).
Proof.
  assert (forall node p : Node string,
            p ∈ predecessors Line.cfg node ->
            identifier p = identifier (out_node Line.cfg) ->
            p = out_node Line.cfg) as Hunique.
  { intros node p [[_ ->]|[_ ->]]%line_predecessors; simpl; lia. }
  split; [exact Hunique|]. split; [reflexivity|]. split; [lia|].
  destruct line_run as [s Hturns]. exists s. split; [exact Hturns|].
  exact (out_node_result Line.cfg 1 (Atom 0) 3 ∅ s Hunique eq_refl
           ltac:(lia) Hturns).
Defined.

(** Scenario C: the header and the body form a cycle, and the header
    precedes the out node. *)
Lemma cycle_raises_KeyError_witness :
  well_formed While.cfg /\
  trap While.cfg {[ 2; 3 ]} /\
  coreachable While.cfg While.header /\
  identifier While.header ∈ ({[ 2; 3 ]} : gset Z) /\
  exists fuel,
    forall fuel', (fuel <= fuel')%nat ->
      analyze While.cfg 1 (Atom 0) fuel' ∅ = Some (Raise KeyError).
Proof.
  assert (coreachable While.cfg While.header) as Hco.
  { apply (coreachable_pred While.cfg While.n_out); [constructor|].
    simpl. by left. }
  assert (identifier While.header ∈ ({[ 2; 3 ]} : gset Z)) as Hin
    by (simpl; set_solver).
  split; [exact while_well_formed|]. split; [exact while_trap|].
  split; [exact Hco|]. split; [exact Hin|].
  exact (cycle_raises_KeyError While.cfg 1 (Atom 0) {[ 2; 3 ]}
           While.header while_well_formed while_trap Hco Hin).
Defined.

(** Scenario A, ranked by identifier, one predecessor at most. *)
Lemma analyze_ends_on_ranked_witness :
  (forall node p : Node string,
     coreachable Line.cfg node -> p ∈ predecessors Line.cfg node ->
     (Z.to_nat (identifier p) < Z.to_nat (identifier node))%nat) /\
  (forall node : Node string,
     coreachable Line.cfg node ->
     (length (predecessors Line.cfg node) <= 1)%nat) /\
  exists outcome,
    analyze Line.cfg 1 (Atom 0)
      ((1 + 1) ^ Z.to_nat (identifier (out_node Line.cfg))) ∅
    = Some outcome.
Proof.
  assert (forall node p : Node string,
            coreachable Line.cfg node -> p ∈ predecessors Line.cfg node ->
            (Z.to_nat (identifier p) < Z.to_nat (identifier node))%nat)
    as Hrank.
  { intros node p _ [[-> ->]|[-> ->]]%line_predecessors; simpl; lia. }
  assert (forall node : Node string,
            coreachable Line.cfg node ->
            (length (predecessors Line.cfg node) <= 1)%nat) as Hdeg.
  { intros node _. simpl. repeat case_bool_decide; simpl; lia. }
  split; [exact Hrank|]. split; [exact Hdeg|].
  exact (analyze_ends_on_ranked Line.cfg 1 (Atom 0) 1
           (fun node => Z.to_nat (identifier node)) ∅ Hrank Hdeg).
Defined.

Lemma threshold_unused_without_loops_witness :
  (forall node, coreachable Line.cfg node -> is_Loop node = false) /\
  analyze Line.cfg 0 (Atom 0) 3 ∅ = analyze Line.cfg 5 (Atom 0) 3 ∅.
Proof.
  assert (forall node, coreachable Line.cfg node -> is_Loop node = false)
    as Hloops.
  { by intros node [->|[->| ->]]%line_coreachable. }
  split; [exact Hloops|].
  exact (threshold_unused_without_loops Line.cfg (Atom 0) 0 5 3 ∅ Hloops).
Defined.

Lemma analyze_result_settled_witness :
  well_formed Line.cfg /\
  consistent Line.cfg /\
  is_node Line.cfg Line.block /\
  identifier Line.block ≠ identifier (out_node Line.cfg) /\
  exists r,
    analyze Line.cfg 1 (Atom 0) 3 ∅ = Some (Ok r) /\
    is_Some (r !! identifier Line.block) /\
    settled Line.cfg (Atom 0) r Line.block.
Proof.
  assert (identifier Line.block ≠ identifier (out_node Line.cfg)) as Hne
    by (simpl; lia).
  split; [exact line_well_formed|]. split; [exact line_consistent|].
  split; [reflexivity|]. split; [exact Hne|].
  assert (exists r,
            analyze Line.cfg 1 (Atom 0) 3 ∅ = Some (Ok r) /\
            is_Some (r !! identifier Line.block)) as (r & Hrun & Hs).
  { eexists. split; [vm_compute; reflexivity|].
    eexists. vm_compute. reflexivity. }
  exists r. split; [exact Hrun|]. split; [exact Hs|].
  exact (analyze_result_settled Line.cfg 1 (Atom 0) 3 r Line.block
           line_well_formed line_consistent Hrun eq_refl Hne Hs).
Defined.

Lemma analyze_result_keys_witness :
  well_formed Line.cfg /\
  exists r,
    analyze Line.cfg 1 (Atom 0) 3 ∅ = Some (Ok r) /\
    (is_Some (r !! 2) <->
     exists node, coreachable Line.cfg node /\ identifier node = 2).
Proof.
  split; [exact line_well_formed|].
  destruct line_result as [r Hrun]. exists r. split; [exact Hrun|].
  exact (analyze_result_keys Line.cfg 1 (Atom 0) 3 r 2 line_well_formed
           Hrun).
Defined.

(** Scenario A with the in-place domain: the caller's state is object 0,
    the states stored for the block are objects 2, 3 and 4. *)
Lemma stored_states_are_new_witness :
  Heap.lawful InPlace.ops /\
  exists r h,
    Heap.analyze Line.cfg 1 0%nat 3 ∅ (InPlace.caller (Atom 0))
    = Some (Ok (r, h)) /\
    (r !! 2 = (∅ : gmap Z (list nat)) !! 2 \/
     exists states,
       r !! 2 = Some states /\
       Forall (fun l => (Heap.next (InPlace.caller (Atom 0)) <= l)%nat)
         states).
Proof.
  split; [exact in_place_lawful|].
  assert (exists r h,
            Heap.analyze Line.cfg 1 0%nat 3 ∅ (InPlace.caller (Atom 0))
            = Some (Ok (r, h))) as (r & h & Hrun)
    by (eexists; eexists; vm_compute; reflexivity).
  exists r, h. split; [exact Hrun|].
  exact (stored_states_are_new InPlace.ops Line.cfg 1 0%nat 3 ∅ r
           (InPlace.caller (Atom 0)) h 2 in_place_lawful Hrun).
Defined.

(** *** The helpers of the type encoding *)

Lemma string_key_lawful : OrderedDict.lawful string.
Proof.
  split; simpl.
  - intros a _. by apply bool_decide_eq_true.
  - intros a b. by apply bool_decide_ext.
  - intros a b c Hab%bool_decide_eq_true Hbc%bool_decide_eq_true.
    apply bool_decide_eq_true. congruence.
Qed.

Lemma value_key_lawful : OrderedDict.lawful Py.value.
Proof.
  split; simpl.
  - intros a Ha%bool_decide_eq_true. destruct Ha as [x Hx].
    rewrite Hx. by apply bool_decide_eq_true.
  - intros a b. destruct (Py.code a), (Py.code b); try done.
    by apply bool_decide_ext.
  - intros a b c.
    destruct (Py.code a), (Py.code b), (Py.code c); try done.
    intros Hab%bool_decide_eq_true Hbc%bool_decide_eq_true.
    apply bool_decide_eq_true. congruence.
Qed.

(** A value that cannot be hashed: [invert_dict({'a': [1]})]. *)
Example invert_dict_unhashable :
  invert_dict [("a"%string, Py.List [1])]
  = OrderedDict.Throw OrderedDict.TypeError.
Proof. reflexivity. Qed.

(** [invert_dict({'a': 1, 'b': True, 'c': 'x'})]: [1] and [True] are one
    key; the key object kept is the first, the value the last. *)
Lemma invert_dict_last_key_wins_witness :
  OrderedDict.lawful string /\
  OrderedDict.lawful Py.value /\
  OrderedDict.wf
    [("a", Py.Int 1); ("b", Py.Bool true); ("c", Py.Str "x")]%string /\
  exists result,
    invert_dict
      [("a", Py.Int 1); ("b", Py.Bool true); ("c", Py.Str "x")]%string
    = OrderedDict.Return result /\
    result = [(Py.Int 1, "b"); (Py.Str "x", "c")]%string /\
    OrderedDict.getitem result (Py.Bool true)
    = OrderedDict.Return "b"%string.
Proof.
  assert (OrderedDict.wf
            [("a", Py.Int 1); ("b", Py.Bool true);
             ("c", Py.Str "x")]%string) as Hwf.
  { simpl. repeat split; repeat constructor. }
  split; [exact string_key_lawful|]. split; [exact value_key_lawful|].
  split; [exact Hwf|].
  destruct (proj2 (invert_dict_last_key_wins _ string_key_lawful
                     value_key_lawful Hwf))
    as (result & Hresult & _ & Hget).
  { repeat constructor. }
  exists result. split; [exact Hresult|]. split.
  - vm_compute in Hresult. by injection Hresult as <-.
  - by rewrite Hget.
Defined.

(** [invert_dict({'A': 'object', 'B': 'A'})] *)
Lemma invert_dict_twice_witness :
  OrderedDict.lawful string /\
  OrderedDict.wf [("A", "object"); ("B", "A")]%string /\
  OrderedDict.wf (prod_swap <$> [("A", "object"); ("B", "A")]%string) /\
  invert_dict [("A", "object"); ("B", "A")]%string
  = OrderedDict.Return [("object", "A"); ("A", "B")]%string.
Proof.
  assert (OrderedDict.wf [("A", "object"); ("B", "A")]%string) as Hwf.
  { simpl. repeat split; repeat constructor. }
  assert (OrderedDict.wf
            (prod_swap <$> [("A", "object"); ("B", "A")]%string))
    as Hswap.
  { simpl. repeat split; repeat constructor. }
  split; [exact string_key_lawful|].
  split; [exact Hwf|]. split; [exact Hswap|].
  exact (proj1 (invert_dict_twice _ string_key_lawful string_key_lawful
                  Hwf Hswap)).
Defined.

(** A name that ends in an underscore and a digit, then a plain one. *)
Lemma new_z3_const_unique_name_witness :
  (TypesSolver.element_id
     (TypesSolver.new_z3_const
        {| TypesSolver.element_id := 0; TypesSolver.type_sort := tt |}
        "x_1" None).2
   <= TypesSolver.element_id
        {| TypesSolver.element_id := 1; TypesSolver.type_sort := tt |})%nat
  /\
  TypesSolver.const_name
    (TypesSolver.new_z3_const
       {| TypesSolver.element_id := 1; TypesSolver.type_sort := tt |}
       "x" None).1
  ≠ TypesSolver.const_name
      (TypesSolver.new_z3_const
         {| TypesSolver.element_id := 0; TypesSolver.type_sort := tt |}
         "x_1" None).1.
Proof.
  assert (TypesSolver.element_id
            (TypesSolver.new_z3_const
               {| TypesSolver.element_id := 0;
                  TypesSolver.type_sort := tt |} "x_1" None).2
          <= TypesSolver.element_id
               {| TypesSolver.element_id := 1;
                  TypesSolver.type_sort := tt |})%nat as Hlater
    by (simpl; lia).
  split; [exact Hlater|].
  exact (new_z3_const_unique_name _ _ "x_1" "x" None None Hlater).
Defined.

(** Scenario A in layers: the out node at level 0, the block at level 1,
    the entry at level 2. *)
Lemma layered_analysis_returns_witness :
  well_formed Line.cfg /\
  consistent Line.cfg /\
  (forall node p,
     coreachable Line.cfg node -> p ∈ predecessors Line.cfg node ->
     Z.to_nat (3 - identifier p) = S (Z.to_nat (3 - identifier node))) /\
  exists r,
    analyze Line.cfg 1 (Atom 0)
      ((1 + 1) ^ (2 - Z.to_nat (3 - identifier (out_node Line.cfg)))) ∅
    = Some (Ok r).
Proof.
  assert (forall node p,
            coreachable Line.cfg node -> p ∈ predecessors Line.cfg node ->
            Z.to_nat (3 - identifier p)
            = S (Z.to_nat (3 - identifier node))) as Hlevel.
  { intros node p _ [[Hid ->]|[Hid ->]]%line_predecessors;
      rewrite Hid; reflexivity. }
  split; [exact line_well_formed|]. split; [exact line_consistent|].
  split; [exact Hlevel|].
  apply (layered_analysis_returns Line.cfg 1 (Atom 0)
           (fun node => Z.to_nat (3 - identifier node)) 2 1
           line_well_formed line_consistent Hlevel).
  - intros node edge [->|[->| ->]]%line_coreachable Hedge;
      vm_compute in Hedge.
    + by apply elem_of_nil in Hedge.
    + apply list_elem_of_singleton in Hedge. subst edge. constructor.
    + apply list_elem_of_singleton in Hedge. subst edge.
      apply (coreachable_pred Line.cfg Line.n_out); [constructor|].
      simpl. by left.
  - intros node [->|[->| ->]]%line_coreachable; simpl; lia.
  - intros node _. simpl. repeat case_bool_decide; simpl; lia.
Defined.

End MoreInstances.
